(** * markovid: adaptive, temperature-coupled Metropolis sampler

    A shallow embedding of [src/Particle.cpp] and of the tempering code of
    [src/main.cpp], and the properties of the specification stated and
    settled against it.

    - [Double]   : the arithmetic of C++ [double] values, idealised;
    - [Rcpp]     : outcomes of a call ([Rcpp::stop] aborts) and [std::vector]
                   reads and writes;
    - [Model]    : [System], [Particle] and the member functions;
    - [Tempering]: the rung schedule of [run_mcmc] and [coupling];
    - [Notions]  : the vocabulary of the specification;
    - [Examples] : small concrete systems and chains.

    The properties follow, by component: delay lookups, likelihood and
    prior, reparameterisation, adjustment factor, Metropolis sweep,
    coupling of rungs and rung schedule. *)

From Stdlib Require Import Reals Lra Lia ZArith String.
From stdpp Require Import base list.

(* ===================================================================== *)
(** * Doubles *)
(* ===================================================================== *)

(** A C++ [double] is modelled as an extended real: a finite value carries
    the real number it denotes, and the three special values of IEEE 754
    are kept apart because the program tests for them ([isfinite]) and
    produces them ([log] of a negative number is NaN, [log(0)] is [-inf]).
    Finite arithmetic is exact: there is no rounding, no overflow and a
    single zero.  Everything that the claims say about real-valued formulas
    is therefore stated over the reals, and everything they say about NaN
    and infinities is stated with the IEEE rules.  The one place where the
    program turns a computed value into a table index, [floor(m * 100)] of
    the delay lookups, depends on the rounding of the product: that
    product is [mul64], the binary64 product of IEEE 754. *)
Module Double.

Inductive double : Type :=
| Fin (r : R)
| PInf
| NInf
| NaN.

#[global] Instance double_inhabited : Inhabited double := populate (Fin 0).

(** Sign of a real, by the decidable order of the reals. *)
Definition sgn (r : R) : comparison :=
  if Rlt_dec r 0 then Lt else if Rlt_dec 0 r then Gt else Eq.

Definition inf_of (c : comparison) : double :=
  match c with Gt => PInf | Lt => NInf | Eq => NaN end.

Definition isfinite (x : double) : bool :=
  match x with Fin _ => true | _ => false end.

Definition neg (x : double) : double :=
  match x with
  | Fin r => Fin (- r)
  | PInf => NInf
  | NInf => PInf
  | NaN => NaN
  end.

Definition add (x y : double) : double :=
  match x, y with
  | NaN, _ | _, NaN => NaN
  | Fin a, Fin b => Fin (a + b)
  | PInf, NInf | NInf, PInf => NaN
  | PInf, _ | _, PInf => PInf
  | NInf, _ | _, NInf => NInf
  end.

Definition sub (x y : double) : double := add x (neg y).

Definition mul (x y : double) : double :=
  match x, y with
  | NaN, _ | _, NaN => NaN
  | Fin a, Fin b => Fin (a * b)
  | Fin a, PInf | PInf, Fin a => inf_of (sgn a)
  | Fin a, NInf | NInf, Fin a => inf_of (CompOpp (sgn a))
  | PInf, PInf | NInf, NInf => PInf
  | PInf, NInf | NInf, PInf => NInf
  end.

Definition div (x y : double) : double :=
  match x, y with
  | NaN, _ | _, NaN => NaN
  | Fin a, Fin b => if Req_dec_T b 0 then inf_of (sgn a) else Fin (a / b)
  | Fin _, (PInf | NInf) => Fin 0
  | PInf, Fin b => if Rlt_dec b 0 then NInf else PInf
  | NInf, Fin b => if Rlt_dec b 0 then PInf else NInf
  | (PInf | NInf), (PInf | NInf) => NaN
  end.

(** [<] of C++: false as soon as one side is NaN. *)
Definition lt (x y : double) : bool :=
  match x, y with
  | Fin a, Fin b => if Rlt_dec a b then true else false
  | NInf, (Fin _ | PInf) => true
  | Fin _, PInf => true
  | _, _ => false
  end.

Definition gt (x y : double) : bool := lt y x.

(** [<cmath>] functions. *)
Definition exp (x : double) : double :=
  match x with
  | Fin r => Fin (Rtrigo_def.exp r)
  | PInf => PInf
  | NInf => Fin 0
  | NaN => NaN
  end.

Definition log (x : double) : double :=
  match x with
  | Fin r => match sgn r with
             | Gt => Fin (ln r)
             | Eq => NInf
             | Lt => NaN
             end
  | PInf => PInf
  | NInf | NaN => NaN
  end.

Definition sqrt (x : double) : double :=
  match x with
  | Fin r => if Rlt_dec r 0 then NaN else Fin (R_sqrt.sqrt r)
  | PInf => PInf
  | NInf | NaN => NaN
  end.

Definition floor (x : double) : double :=
  match x with
  | Fin r => Fin (IZR (Int_part r))
  | _ => x
  end.

(** [pow(x, y)] for finite arguments, with the C99 conventions
    [pow(x, 0) = 1], [pow(0, y) = 0] for [y > 0] and [+inf] for [y < 0];
    a negative base is defined for integral exponents only. *)
Definition pow_fin (a b : R) : double :=
  match sgn b with
  | Eq => Fin 1
  | sb =>
      match sgn a with
      | Gt => Fin (Rpower a b)
      | Eq => match sb with Gt => Fin 0 | _ => PInf end
      | Lt => if Req_dec_T (IZR (Int_part b)) b
              then Fin (powerRZ a (Int_part b))
              else NaN
      end
  end.

Definition pow (x y : double) : double :=
  match x, y with
  | Fin a, Fin b => pow_fin a b
  | NaN, Fin b => match sgn b with Eq => Fin 1 | _ => NaN end
  | Fin a, NaN => if Req_dec_T a 1 then Fin 1 else NaN
  | Fin a, PInf =>
      match sgn (Rabs a - 1) with Lt => Fin 0 | Eq => Fin 1 | Gt => PInf end
  | Fin a, NInf =>
      match sgn (Rabs a - 1) with Lt => PInf | Eq => Fin 1 | Gt => Fin 0 end
  | PInf, Fin b =>
      match sgn b with Lt => Fin 0 | Eq => Fin 1 | Gt => PInf end
  | NInf, Fin b =>
      match sgn b with
      | Lt => Fin 0
      | Eq => Fin 1
      | Gt => if Req_dec_T (IZR (Int_part b)) b
              then (if Z.odd (Int_part b) then NInf else PInf)
              else PInf
      end
  | (PInf | NInf), PInf => PInf
  | (PInf | NInf), NInf => Fin 0
  | _, _ => NaN
  end.

(** Conversion of a C++ [int] to [double]. *)
Definition of_int (z : Z) : double := Fin (IZR z).

(** Conversion of a [double] used as a [std::vector] index: truncation
    towards zero; undefined for NaN, infinities and values at or below
    [-1]. *)
Definition to_index (x : double) : option nat :=
  match x with
  | Fin r => if Rlt_dec (-1) r then Some (Z.to_nat (Int_part r)) else None
  | _ => None
  end.

(** [DBL_MAX] of [<cfloat>]: [(2^53 - 1) * 2^971]. *)
Definition DBL_MAX : double := Fin (IZR ((2 ^ 53 - 1) * 2 ^ 971)).

(** ** Rounding to binary64

    [binade r] is [floor(log2 |r|)]; a double of that binade is a multiple
    of [ulp64 r], which is [2^(binade r - 52)] and [2^(-1074)] in the
    subnormal range; [round64] takes the nearest multiple, ties to the
    even one. *)
Definition binade (r : R) : Z := Int_part (ln (Rabs r) / ln 2).

Definition nearest_even (x : R) : Z :=
  let f := Int_part x in
  if Rlt_dec (x - IZR f) (1 / 2) then f
  else if Rlt_dec (1 / 2) (x - IZR f) then (f + 1)%Z
  else if Z.even f then f else (f + 1)%Z.

Definition ulp64 (r : R) : R := powerRZ 2 (Z.max (binade r) (-1022) - 52).

Definition round64 (r : R) : R :=
  if Req_dec_T r 0 then 0 else ulp64 r * IZR (nearest_even (r / ulp64 r)).

(** [x * y] of two doubles as the machine computes it: the exact product
    rounded, an infinity when the rounded value passes [DBL_MAX]. *)
Definition mul64 (x y : double) : double :=
  match mul x y with
  | Fin r =>
      let q := round64 r in
      if lt DBL_MAX (Fin (Rabs q)) then inf_of (sgn q) else Fin q
  | v => v
  end.

End Double.

Export Double.

Declare Scope double_scope.
Delimit Scope double_scope with D.
Bind Scope double_scope with double.
Infix "+" := Double.add : double_scope.
Infix "-" := Double.sub : double_scope.
Infix "*" := Double.mul : double_scope.
Infix "/" := Double.div : double_scope.
Notation "- x" := (Double.neg x) : double_scope.
Infix "<?" := Double.lt : double_scope.
Infix ">?" := Double.gt : double_scope.

(* ===================================================================== *)
(** * Calls that may abort, and vectors *)
(* ===================================================================== *)

Module Rcpp.

(** Outcome of a call: a value, an exception that leaves the call with
    its message ([Rcpp::stop], or [std::length_error] of a [std::vector]
    constructor), or undefined behaviour of C++ (a [std::vector] indexed
    out of range, a NaN converted to an index). *)
Inductive result (A : Type) : Type :=
| Ok (a : A)
| Stop (msg : string)
| Undef.

Arguments Ok {A} a.
Arguments Stop {A} msg.
Arguments Undef {A}.

#[global] Instance result_ret : MRet result := fun A a => Ok a.
#[global] Instance result_bind : MBind result := fun A B f m =>
  match m with
  | Ok a => f a
  | Stop msg => Stop msg
  | Undef => Undef
  end.

(** [v[i]] read. *)
Definition vget {A} (v : list A) (i : nat) : result A :=
  match v !! i with
  | Some x => Ok x
  | None => Undef
  end.

(** [v[i] = x]. *)
Definition vset {A} (v : list A) (i : nat) (x : A) : result (list A) :=
  if decide (i < length v)%nat then Ok (<[i := x]> v) else Undef.

(** [for (int i = 0; i < n; ++i) body], threading the variables the body
    assigns; an abort inside the body leaves the loop. *)
Fixpoint for_from {A} (i n : nat) (body : nat → A → result A) (a : A)
  : result A :=
  match n with
  | O => Ok a
  | S n' => a' ← body i a; for_from (S i) n' body a'
  end.

Definition for_loop {A} (n : nat) (body : nat → A → result A) (a : A)
  : result A := for_from 0 n body a.

(** [std::vector<T>(n, x)] for an [int] [n]: a negative [n] converts to a
    size above [max_size()] and the constructor throws
    [std::length_error]; the text of the message is the one of
    libstdc++. *)
Definition length_error : string :=
  "cannot create std::vector larger than max_size()".

Definition new_vector {A} (n : Z) (x : A) : result (list A) :=
  if (n <? 0)%Z then Stop length_error else Ok (replicate (Z.to_nat n) x).

End Rcpp.

Export Rcpp.

(* ===================================================================== *)
(** * System and Particle *)
(* ===================================================================== *)

Module Model.

Local Open Scope double_scope.

(** The members of [System] that [Particle.cpp] and [main.cpp] read through
    [s_ptr] and [s]. *)
Record System : Type := {
  d : nat;
  n_node : nat;
  max_indlevel_age : Z;
  node_x : list double;
  theta_min : list double;
  theta_max : list double;
  theta_init : list double;
  trans_type : list Z;
  skip_param : list bool;
  p_AI_numer : list Z;
  p_AI_denom : list Z;
  p_AD_numer : list Z;
  p_AD_denom : list Z;
  p_ID_numer : list Z;
  p_ID_denom : list Z;
  m_AI_count : list (list Z);
  m_AD_count : list (list Z);
  m_AC_count : list (list Z);
  m_ID_count : list (list Z);
  m_IS_count : list (list Z);
  m_SC_count : list (list Z);
  gamma_density_lookup : list (list (list double));
  gamma_tail_lookup : list (list (list double))
}.

(** The state of a chain.  [int] members are integers: the counters are
    only incremented, and overflow of a C++ [int] is undefined.  The
    scratch members of the class (the node
    vectors, the curves and the six coefficients of variation) are written
    in full by [get_loglike] and [get_logprior] before they are read, so
    they appear as local values of those functions below. *)
Record Particle : Type := {
  theta : list double;
  theta_prop : list double;
  phi : list double;
  phi_prop : list double;
  bw : list double;
  bw_index : list Z;
  bw_stepsize : double;
  loglike : double;
  loglike_prop : double;
  logprior : double;
  logprior_prop : double;
  accept_count : Z;
  beta_raised : double
}.

Definition set_theta (v : list double) (p : Particle) : Particle :=
  {| theta := v; theta_prop := theta_prop p; phi := phi p;
     phi_prop := phi_prop p; bw := bw p; bw_index := bw_index p;
     bw_stepsize := bw_stepsize p; loglike := loglike p;
     loglike_prop := loglike_prop p; logprior := logprior p;
     logprior_prop := logprior_prop p; accept_count := accept_count p;
     beta_raised := beta_raised p |}.

Definition set_theta_prop (v : list double) (p : Particle) : Particle :=
  {| theta := theta p; theta_prop := v; phi := phi p;
     phi_prop := phi_prop p; bw := bw p; bw_index := bw_index p;
     bw_stepsize := bw_stepsize p; loglike := loglike p;
     loglike_prop := loglike_prop p; logprior := logprior p;
     logprior_prop := logprior_prop p; accept_count := accept_count p;
     beta_raised := beta_raised p |}.

Definition set_phi (v : list double) (p : Particle) : Particle :=
  {| theta := theta p; theta_prop := theta_prop p; phi := v;
     phi_prop := phi_prop p; bw := bw p; bw_index := bw_index p;
     bw_stepsize := bw_stepsize p; loglike := loglike p;
     loglike_prop := loglike_prop p; logprior := logprior p;
     logprior_prop := logprior_prop p; accept_count := accept_count p;
     beta_raised := beta_raised p |}.

Definition set_phi_prop (v : list double) (p : Particle) : Particle :=
  {| theta := theta p; theta_prop := theta_prop p; phi := phi p;
     phi_prop := v; bw := bw p; bw_index := bw_index p;
     bw_stepsize := bw_stepsize p; loglike := loglike p;
     loglike_prop := loglike_prop p; logprior := logprior p;
     logprior_prop := logprior_prop p; accept_count := accept_count p;
     beta_raised := beta_raised p |}.

Definition set_bw (v : list double) (p : Particle) : Particle :=
  {| theta := theta p; theta_prop := theta_prop p; phi := phi p;
     phi_prop := phi_prop p; bw := v; bw_index := bw_index p;
     bw_stepsize := bw_stepsize p; loglike := loglike p;
     loglike_prop := loglike_prop p; logprior := logprior p;
     logprior_prop := logprior_prop p; accept_count := accept_count p;
     beta_raised := beta_raised p |}.

Definition set_bw_index (v : list Z) (p : Particle) : Particle :=
  {| theta := theta p; theta_prop := theta_prop p; phi := phi p;
     phi_prop := phi_prop p; bw := bw p; bw_index := v;
     bw_stepsize := bw_stepsize p; loglike := loglike p;
     loglike_prop := loglike_prop p; logprior := logprior p;
     logprior_prop := logprior_prop p; accept_count := accept_count p;
     beta_raised := beta_raised p |}.

Definition set_loglike (v : double) (p : Particle) : Particle :=
  {| theta := theta p; theta_prop := theta_prop p; phi := phi p;
     phi_prop := phi_prop p; bw := bw p; bw_index := bw_index p;
     bw_stepsize := bw_stepsize p; loglike := v;
     loglike_prop := loglike_prop p; logprior := logprior p;
     logprior_prop := logprior_prop p; accept_count := accept_count p;
     beta_raised := beta_raised p |}.

Definition set_loglike_prop (v : double) (p : Particle) : Particle :=
  {| theta := theta p; theta_prop := theta_prop p; phi := phi p;
     phi_prop := phi_prop p; bw := bw p; bw_index := bw_index p;
     bw_stepsize := bw_stepsize p; loglike := loglike p;
     loglike_prop := v; logprior := logprior p;
     logprior_prop := logprior_prop p; accept_count := accept_count p;
     beta_raised := beta_raised p |}.

Definition set_logprior (v : double) (p : Particle) : Particle :=
  {| theta := theta p; theta_prop := theta_prop p; phi := phi p;
     phi_prop := phi_prop p; bw := bw p; bw_index := bw_index p;
     bw_stepsize := bw_stepsize p; loglike := loglike p;
     loglike_prop := loglike_prop p; logprior := v;
     logprior_prop := logprior_prop p; accept_count := accept_count p;
     beta_raised := beta_raised p |}.

Definition set_logprior_prop (v : double) (p : Particle) : Particle :=
  {| theta := theta p; theta_prop := theta_prop p; phi := phi p;
     phi_prop := phi_prop p; bw := bw p; bw_index := bw_index p;
     bw_stepsize := bw_stepsize p; loglike := loglike p;
     loglike_prop := loglike_prop p; logprior := logprior p;
     logprior_prop := v; accept_count := accept_count p;
     beta_raised := beta_raised p |}.

Definition set_accept_count (v : Z) (p : Particle) : Particle :=
  {| theta := theta p; theta_prop := theta_prop p; phi := phi p;
     phi_prop := phi_prop p; bw := bw p; bw_index := bw_index p;
     bw_stepsize := bw_stepsize p; loglike := loglike p;
     loglike_prop := loglike_prop p; logprior := logprior p;
     logprior_prop := logprior_prop p; accept_count := v;
     beta_raised := beta_raised p |}.

Section Particle.

(** [s_ptr]: the shared, read-only system. *)
Variable s : System.

(** ** Reparameterisation *)

(** [Particle::phi_prop_to_theta_prop(int i)] *)
Definition phi_prop_to_theta_prop (i : nat) (p : Particle) : result Particle :=
  k ← vget (trans_type s) i;
  match k with
  | 0%Z =>
      ph ← vget (phi_prop p) i;
      tp ← vset (theta_prop p) i ph;
      Ok (set_theta_prop tp p)
  | 1%Z =>
      mx ← vget (theta_max s) i;
      ph ← vget (phi_prop p) i;
      tp ← vset (theta_prop p) i (mx - exp ph);
      Ok (set_theta_prop tp p)
  | 2%Z =>
      ph ← vget (phi_prop p) i;
      mn ← vget (theta_min s) i;
      tp ← vset (theta_prop p) i (exp ph + mn);
      Ok (set_theta_prop tp p)
  | 3%Z =>
      mx ← vget (theta_max s) i;
      ph ← vget (phi_prop p) i;
      mn ← vget (theta_min s) i;
      tp ← vset (theta_prop p) i ((mx * exp ph + mn) / (Fin 1 + exp ph));
      Ok (set_theta_prop tp p)
  | _ => Stop "trans_type invalid"
  end.

(** Body of the loop of [Particle::theta_to_phi()]. *)
Definition theta_to_phi_body (i : nat) (p : Particle) : result Particle :=
  k ← vget (trans_type s) i;
  match k with
  | 0%Z =>
      th ← vget (theta p) i;
      ph ← vset (phi p) i th;
      Ok (set_phi ph p)
  | 1%Z =>
      mx ← vget (theta_max s) i;
      th ← vget (theta p) i;
      ph ← vset (phi p) i (log (mx - th));
      Ok (set_phi ph p)
  | 2%Z =>
      th ← vget (theta p) i;
      mn ← vget (theta_min s) i;
      ph ← vset (phi p) i (log (th - mn));
      Ok (set_phi ph p)
  | 3%Z =>
      th ← vget (theta p) i;
      mn ← vget (theta_min s) i;
      mx ← vget (theta_max s) i;
      ph ← vset (phi p) i (log (th - mn) - log (mx - th));
      Ok (set_phi ph p)
  | _ => Stop "trans_type invalid"
  end.

(** [Particle::theta_to_phi()] *)
Definition theta_to_phi (p : Particle) : result Particle :=
  for_loop (d s) theta_to_phi_body p.

(** [Particle::get_adjustment(int i)] *)
Definition get_adjustment (i : nat) (p : Particle) : result double :=
  let ret := Fin 0 in
  k ← vget (trans_type s) i;
  match k with
  | 0%Z => Ok ret
  | 1%Z =>
      tp ← vget (theta_prop p) i;
      mx ← vget (theta_max s) i;
      th ← vget (theta p) i;
      Ok (log (tp - mx) - log (th - mx))
  | 2%Z =>
      tp ← vget (theta_prop p) i;
      mn ← vget (theta_min s) i;
      th ← vget (theta p) i;
      Ok (log (tp - mn) - log (th - mn))
  | 3%Z =>
      mx ← vget (theta_max s) i;
      tp ← vget (theta_prop p) i;
      mn ← vget (theta_min s) i;
      th ← vget (theta p) i;
      Ok (log (mx - tp) + log (tp - mn) - log (mx - th) - log (th - mn))
  | _ => Stop "trans_type invalid"
  end.

(** ** Delay distributions ([USE_LOOKUP] is defined in the source) *)

Definition floor_1e_200 : double := Fin 1e-200.

(** [table[m_index][s_index][x]] with the two [double] indices converted. *)
Definition lookup3 (table : list (list (list double)))
    (m_index s_index : double) (x : Z) : result double :=
  match to_index m_index, to_index s_index with
  | Some mi, Some si =>
      row ← vget table mi;
      col ← vget row si;
      vget col (Z.to_nat x)
  | _, _ => Undef
  end.

(** The range test shared by the two lookups. *)
Definition outside_lookup_range (m_index s_index : double) (x : Z) : bool :=
  (m_index <? Fin 0) || (m_index >? Fin 2000)
  || (s_index <? Fin 0) || (s_index >? Fin 100) || (x <? 0)%Z.

(** [Particle::get_delay_density(int x, double m, double s)] *)
Definition get_delay_density (x : Z) (m sd : double) : result double :=
  let m_index := floor (mul64 m (Fin 100)) in
  let s_index := floor (mul64 sd (Fin 100)) in
  if outside_lookup_range m_index s_index x then Stop ""
  else if (x >? 100)%Z then Ok floor_1e_200
  else lookup3 (gamma_density_lookup s) m_index s_index x.

(** [Particle::get_delay_tail(int x, double m, double s)] *)
Definition get_delay_tail (x : Z) (m sd : double) : result double :=
  let m_index := floor (mul64 m (Fin 100)) in
  let s_index := floor (mul64 sd (Fin 100)) in
  if outside_lookup_range m_index s_index x then Stop ""
  else if (x >? 100)%Z then Ok floor_1e_200
  else lookup3 (gamma_tail_lookup s) m_index s_index x.

(** ** External functions

    [cubic_spline] (of the misc header), [R::dbinom] and [R::dnorm] are not
    part of the sources; they are taken as they are called.  The spline is
    a function of the knots and of the query points, its result being the
    content of the output vector after the call. *)
Variable cubic_spline : list double → list double → list double → list double.
Variable dbinom : double → double → double → bool → double.
Variable dnorm : double → double → double → bool → double.

(** ** Likelihood *)

(** [for (int i = 0; i < n_node; ++i) node[i] = theta[pi++];] on a node
    vector allocated with [n_node] entries. *)
Definition unpack_nodes (theta : list double) (pi : nat)
  : result (list double * nat) :=
  for_loop (n_node s)
    (fun i '(node, pi) =>
       x ← vget theta pi;
       node' ← vset node i x;
       Ok (node', S pi))
    (replicate (n_node s) (Fin 0), pi).

(** Curves over the ages and coefficients of variation, as [get_loglike]
    leaves them in the members of the same names. *)
Record Curves : Type := {
  p_AI : list double;
  p_AD : list double;
  p_ID : list double;
  m_AI : list double;
  m_AD : list double;
  m_AC : list double;
  m_ID : list double;
  m_IS : list double;
  m_SC : list double;
  s_AI : double;
  s_AD : double;
  s_AC : double;
  s_ID : double;
  s_IS : double;
  s_SC : double
}.

(** Number of ages, [max_indlevel_age + 1], and [age_seq]. *)
Definition n_age : nat := Z.to_nat (max_indlevel_age s + 1).

Definition age_seq : list double :=
  map (fun i => of_int (Z.of_nat i)) (seq 0 n_age).

(** [ret += R::dbinom(numer[i], denom[i], p[i], true);] *)
Definition binom_term (numer denom : list Z) (p : list double)
    (i : nat) (ret : double) : result double :=
  x ← vget numer i;
  n ← vget denom i;
  pr ← vget p i;
  Ok (ret + dbinom (of_int x) (of_int n) pr true).

(** The loop over the day counts of one delay type at age [i]. *)
Definition delay_term (count : list (list Z)) (m : list double)
    (sd : double) (i : nat) (ret : double) : result double :=
  cnt ← vget count i;
  for_loop (length cnt)
    (fun j ret =>
       tmp ← vget cnt j;
       if (0 <? tmp)%Z then
         mi ← vget m i;
         dens ← get_delay_density (Z.of_nat j) mi sd;
         Ok (ret + of_int tmp * log dens)
       else Ok ret)
    ret.

(** The terms that age [i] adds to the running sum, before the test. *)
Definition age_terms (c : Curves) (i : nat) (ret : double) : result double :=
  ret ← binom_term (p_AI_numer s) (p_AI_denom s) (p_AI c) i ret;
  ret ← binom_term (p_AD_numer s) (p_AD_denom s) (p_AD c) i ret;
  ret ← binom_term (p_ID_numer s) (p_ID_denom s) (p_ID c) i ret;
  ret ← delay_term (m_AI_count s) (m_AI c) (s_AI c) i ret;
  ret ← delay_term (m_AD_count s) (m_AD c) (s_AD c) i ret;
  ret ← delay_term (m_AC_count s) (m_AC c) (s_AC c) i ret;
  ret ← delay_term (m_ID_count s) (m_ID c) (s_ID c) i ret;
  ret ← delay_term (m_IS_count s) (m_IS c) (s_IS c) i ret;
  delay_term (m_SC_count s) (m_SC c) (s_SC c) i ret.

(** Body of the loop over ages. *)
Definition age_step (c : Curves) (i : nat) (ret : double) : result double :=
  ret ← age_terms c i ret;
  if negb (isfinite ret) then Stop "ret non finite" else Ok ret.

(** The final statement of [get_loglike]: "catch underflow". *)
Definition catch_underflow (ret : double) : double :=
  if negb (isfinite ret) then - DBL_MAX / Fin 100 else ret.

Definition to_unit (x : double) : double := Fin 1 / (Fin 1 + exp (- x)).
Definition to_20 (x : double) : double := Fin 20 / (Fin 1 + exp (- x)).

(** Unpacking and splines of [get_loglike]. *)
Definition get_curves (theta : list double) : result Curves :=
  let pi := 0%nat in
  '(p_AI_node, pi) ← unpack_nodes theta pi;
  '(p_AD_node, pi) ← unpack_nodes theta pi;
  '(p_ID_node, pi) ← unpack_nodes theta pi;
  '(m_AI_node, pi) ← unpack_nodes theta pi;
  '(m_AD_node, pi) ← unpack_nodes theta pi;
  '(m_AC_node, pi) ← unpack_nodes theta pi;
  '(m_ID_node, pi) ← unpack_nodes theta pi;
  '(m_IS_node, pi) ← unpack_nodes theta pi;
  '(m_SC_node, pi) ← unpack_nodes theta pi;
  s_AI ← vget theta pi;
  s_AD ← vget theta (pi + 1);
  s_AC ← vget theta (pi + 2);
  s_ID ← vget theta (pi + 3);
  s_IS ← vget theta (pi + 4);
  s_SC ← vget theta (pi + 5);
  Ok {| p_AI := map to_unit (cubic_spline (node_x s) p_AI_node age_seq);
        p_AD := map to_unit (cubic_spline (node_x s) p_AD_node age_seq);
        p_ID := map to_unit (cubic_spline (node_x s) p_ID_node age_seq);
        m_AI := map to_20 (cubic_spline (node_x s) m_AI_node age_seq);
        m_AD := map to_20 (cubic_spline (node_x s) m_AD_node age_seq);
        m_AC := map to_20 (cubic_spline (node_x s) m_AC_node age_seq);
        m_ID := map to_20 (cubic_spline (node_x s) m_ID_node age_seq);
        m_IS := map to_20 (cubic_spline (node_x s) m_IS_node age_seq);
        m_SC := map to_20 (cubic_spline (node_x s) m_SC_node age_seq);
        s_AI := s_AI; s_AD := s_AD; s_AC := s_AC;
        s_ID := s_ID; s_IS := s_IS; s_SC := s_SC |}.

(** [Particle::get_loglike(vector<double> &theta, int theta_i)] *)
Definition get_loglike (theta : list double) (theta_i : nat) : result double :=
  c ← get_curves theta;
  let ret := Fin 0 in
  ret ← for_loop n_age (age_step c) ret;
  Ok (catch_underflow ret).

(** ** Prior *)

(** One of the nine loops of [get_logprior] over a node vector, with the
    smoothing parameter [k]. *)
Definition group_prior (k : double) (node : list double) (ret : double)
  : result double :=
  for_loop (n_node s)
    (fun i ret =>
       if (i =? 0)%nat then
         x ← vget node i;
         Ok (ret + (- x - Fin 2 * log (Fin 1 + exp (- x))))
       else
         x ← vget node i;
         y ← vget node (i - 1);
         Ok (ret + dnorm x y k true))
    ret.

(** [Particle::get_logprior(vector<double> &theta, int theta_i)] *)
Definition get_logprior (theta : list double) (theta_i : nat) : result double :=
  let pi := 0%nat in
  '(p_AI_node, pi) ← unpack_nodes theta pi;
  '(p_AD_node, pi) ← unpack_nodes theta pi;
  '(p_ID_node, pi) ← unpack_nodes theta pi;
  '(m_AI_node, pi) ← unpack_nodes theta pi;
  '(m_AD_node, pi) ← unpack_nodes theta pi;
  '(m_AC_node, pi) ← unpack_nodes theta pi;
  '(m_ID_node, pi) ← unpack_nodes theta pi;
  '(m_IS_node, pi) ← unpack_nodes theta pi;
  '(m_SC_node, pi) ← unpack_nodes theta pi;
  let k := Fin 0.5 in
  let ret := Fin 0 in
  ret ← group_prior k p_AI_node ret;
  ret ← group_prior k p_AD_node ret;
  ret ← group_prior k p_ID_node ret;
  ret ← group_prior k m_AI_node ret;
  ret ← group_prior k m_AD_node ret;
  ret ← group_prior k m_AC_node ret;
  ret ← group_prior k m_ID_node ret;
  ret ← group_prior k m_IS_node ret;
  ret ← group_prior k m_SC_node ret;
  Ok ret.

(** ** Metropolis sweep *)

(** The random number generator of R is a global state; [rnorm1] and
    [runif_0_1] (of the probability header) draw from it. *)
Variable rng : Type.
Variable rnorm1 : double → double → rng → double * rng.
Variable runif_0_1 : rng → double * rng.

(** First half of the loop body of [Particle::update]: the proposal, its
    adjustment factor, its likelihood and its prior. *)
Definition propose (i : nat) (st : Particle * rng)
  : result (Particle * double * rng) :=
  let '(p, g) := st in
  ph ← vget (phi p) i;
  b ← vget (bw p) i;
  let '(z, g) := rnorm1 ph b g in
  pp ← vset (phi_prop p) i z;
  let p := set_phi_prop pp p in
  p ← phi_prop_to_theta_prop i p;
  adj ← get_adjustment i p;
  ll ← get_loglike (theta_prop p) i;
  let p := set_loglike_prop ll p in
  lp ← get_logprior (theta_prop p) i;
  let p := set_logprior_prop lp p in
  Ok (p, adj, g).

(** The Metropolis-Hastings ratio [MH] of the loop body. *)
Definition MH_ratio (beta : double) (p : Particle) (adj : double) : double :=
  beta * (loglike_prop p - loglike p) + (logprior_prop p - logprior p) + adj.

(** The branch [if (MH_accept) { ... }]. *)
Definition accept_move (i : nat) (p : Particle) : result Particle :=
  tp ← vget (theta_prop p) i;
  th ← vset (theta p) i tp;
  let p := set_theta th p in
  pp ← vget (phi_prop p) i;
  ph ← vset (phi p) i pp;
  let p := set_phi ph p in
  let p := set_loglike (loglike_prop p) p in
  let p := set_logprior (logprior_prop p) p in
  b ← vget (bw p) i;
  n ← vget (bw_index p) i;
  bw' ← vset (bw p) i
         (exp (log b + bw_stepsize p * (Fin 1 - Fin 0.234) / sqrt (of_int n)));
  let p := set_bw bw' p in
  n ← vget (bw_index p) i;
  bi ← vset (bw_index p) i (n + 1)%Z;
  let p := set_bw_index bi p in
  let p := set_accept_count (accept_count p + 1)%Z p in
  Ok p.

(** The branch [else { ... }]. *)
Definition reject_move (i : nat) (p : Particle) : result Particle :=
  th ← vget (theta p) i;
  tp ← vset (theta_prop p) i th;
  let p := set_theta_prop tp p in
  ph ← vget (phi p) i;
  pp ← vset (phi_prop p) i ph;
  let p := set_phi_prop pp p in
  b ← vget (bw p) i;
  n ← vget (bw_index p) i;
  bw' ← vset (bw p) i
         (exp (log b - bw_stepsize p * Fin 0.234 / sqrt (of_int n)));
  let p := set_bw bw' p in
  n ← vget (bw_index p) i;
  bi ← vset (bw_index p) i (n + 1)%Z;
  let p := set_bw_index bi p in
  Ok p.

(** Body of the loop of [Particle::update(double beta)]. *)
Definition update_param (beta : double) (i : nat) (st : Particle * rng)
  : result (Particle * rng) :=
  skip ← vget (skip_param s) i;
  if (skip : bool) then Ok st
  else
    '(p, adj, g) ← propose i st;
    let MH := MH_ratio beta p adj in
    let '(u, g) := runif_0_1 g in
    let MH_accept := log u <? MH in
    if MH_accept then p ← accept_move i p; Ok (p, g)
    else p ← reject_move i p; Ok (p, g).

(** [Particle::update(double beta)] *)
Definition update (beta : double) (st : Particle * rng)
  : result (Particle * rng) :=
  let '(p, g) := st in
  let p := set_theta_prop (theta p) p in
  let p := set_phi_prop (phi p) p in
  for_loop (d s) (update_param beta) (p, g).

(** The allocations that open [Particle::init]: [age_seq] and, for each
    of the nine curves in the order of the source, the node vector of
    [n_node] entries and the curve of [max_indlevel_age + 1] entries.  A
    node vector is always allocated ([n_node] is a natural number here);
    the content of all of them is rewritten by [get_loglike] and
    [get_logprior] before it is read. *)
Definition init_scratch : result unit :=
  new_vector (max_indlevel_age s + 1) (Fin 0);;   (* age_seq *)
  new_vector (max_indlevel_age s + 1) (Fin 0);;   (* p_AI *)
  new_vector (max_indlevel_age s + 1) (Fin 0);;   (* p_AD *)
  new_vector (max_indlevel_age s + 1) (Fin 0);;   (* p_ID *)
  new_vector (max_indlevel_age s + 1) (Fin 0);;   (* m_AI *)
  new_vector (max_indlevel_age s + 1) (Fin 0);;   (* m_AD *)
  new_vector (max_indlevel_age s + 1) (Fin 0);;   (* m_AC *)
  new_vector (max_indlevel_age s + 1) (Fin 0);;   (* m_ID *)
  new_vector (max_indlevel_age s + 1) (Fin 0);;   (* m_IS *)
  new_vector (max_indlevel_age s + 1) (Fin 0);;   (* m_SC *)
  Ok tt.

(** [Particle::init(System &s)], on the object it resets.  Every member of
    the chain is assigned except [beta_raised], which [Particle.cpp] never
    writes; [theta_to_phi] runs when [theta] and [phi] alone are set, and
    reads and writes nothing else. *)
Definition init (self : Particle) : result Particle :=
  init_scratch;;
  let p := {| theta := theta_init s;
              theta_prop := replicate (d s) (Fin 0);
              phi := replicate (d s) (Fin 0);
              phi_prop := replicate (d s) (Fin 0);
              bw := replicate (d s) (Fin 1);
              bw_index := replicate (d s) 1%Z;
              bw_stepsize := Fin 1;
              loglike := loglike self;
              loglike_prop := Fin 0;
              logprior := logprior self;
              logprior_prop := Fin 0;
              accept_count := 0;
              beta_raised := beta_raised self |} in
  p ← theta_to_phi p;
  ll ← get_loglike (theta p) 0;
  let p := set_loglike ll p in
  lp ← get_logprior (theta p) 0;
  let p := set_logprior lp p in
  Ok p.

End Particle.
End Model.

Export Model.

(* ===================================================================== *)
(** * Tempering: the rung schedule and the coupling of rungs *)
(* ===================================================================== *)

Module Tempering.

Local Open Scope double_scope.

(** The value [run_mcmc] stores in [beta_raised_vec[r]] and hands to rung
    [r]: [(rungs == 1) ? 1 : pow(1.0 - r/double(rungs-1), s.GTI_pow)]. *)
Definition beta_raised_at (rungs : Z) (GTI_pow : double) (r : Z) : double :=
  if (rungs =? 1)%Z then Fin 1
  else pow (Fin 1 - of_int r / of_int (rungs - 1)) GTI_pow.

(** [beta_raised_vec] after the initialisation loop of [run_mcmc]. *)
Definition beta_raised_vec (rungs : Z) (GTI_pow : double) : list double :=
  map (fun r => beta_raised_at rungs GTI_pow (Z.of_nat r))
      (seq 0 (Z.to_nat rungs)).

Section Coupling.

Variable rng : Type.
Variable runif_0_1 : rng → double * rng.

(** [particle_vec[r].field = v], as a function on the element. *)
Definition vmodify {A} (v : list A) (i : nat) (f : A → A) : result (list A) :=
  x ← vget v i;
  vset v i (f x).

(** The swap of [coupling], assignment by assignment. *)
Definition swap_rungs (rung1 rung2 : nat) (particle_vec : list Particle)
  : result (list Particle) :=
  p1 ← vget particle_vec rung1;
  let theta_tmp := theta p1 in
  p2 ← vget particle_vec rung2;
  particle_vec ← vmodify particle_vec rung1 (set_theta (theta p2));
  particle_vec ← vmodify particle_vec rung2 (set_theta theta_tmp);
  p1 ← vget particle_vec rung1;
  let phi_tmp := phi p1 in
  p2 ← vget particle_vec rung2;
  particle_vec ← vmodify particle_vec rung1 (set_phi (phi p2));
  particle_vec ← vmodify particle_vec rung2 (set_phi phi_tmp);
  p1 ← vget particle_vec rung1;
  let loglike_tmp := loglike p1 in
  p2 ← vget particle_vec rung2;
  particle_vec ← vmodify particle_vec rung1 (set_loglike (loglike p2));
  particle_vec ← vmodify particle_vec rung2 (set_loglike loglike_tmp);
  p1 ← vget particle_vec rung1;
  let logprior_tmp := logprior p1 in
  p2 ← vget particle_vec rung2;
  particle_vec ← vmodify particle_vec rung1 (set_logprior (logprior p2));
  vmodify particle_vec rung2 (set_logprior logprior_tmp).

(** The acceptance ratio of [coupling], in log space. *)
Definition acceptance (p1 p2 : Particle) : double :=
  let loglike1 := loglike p1 in
  let loglike2 := loglike p2 in
  let beta_raised1 := beta_raised p1 in
  let beta_raised2 := beta_raised p2 in
  (loglike2 * beta_raised1 + loglike1 * beta_raised2)
  - (loglike1 * beta_raised1 + loglike2 * beta_raised2).

(** Body of the loop of [coupling]. *)
Definition coupling_step (i : nat) (st : list Particle * list Z * rng)
  : result (list Particle * list Z * rng) :=
  let '(particle_vec, mc_accept, g) := st in
  let rung1 := i in
  let rung2 := (i + 1)%nat in
  p1 ← vget particle_vec rung1;
  p2 ← vget particle_vec rung2;
  let '(u, g) := runif_0_1 g in
  let accept_move := log u <? acceptance p1 p2 in
  if accept_move then
    particle_vec ← swap_rungs rung1 rung2 particle_vec;
    mc_accept ← vmodify mc_accept i (fun c => (c + 1)%Z);
    Ok (particle_vec, mc_accept, g)
  else Ok (particle_vec, mc_accept, g).

(** [coupling(vector<Particle> &particle_vec, vector<int> &mc_accept)] *)
Definition coupling (st : list Particle * list Z * rng)
  : result (list Particle * list Z * rng) :=
  let rungs := length (st.1.1) in
  for_loop (rungs - 1) coupling_step st.

End Coupling.
End Tempering.

Export Tempering.

(* ===================================================================== *)
(** * Notions of the specification, and concrete systems *)
(* ===================================================================== *)

Module Notions.

Local Open Scope R_scope.

(** "[v] is at least [l]": NaN is not at least anything. *)
Definition at_least (l : R) (v : double) : Prop :=
  match v with
  | Fin r => l <= r
  | PInf => True
  | NInf | NaN => False
  end.

(** Every entry of a lookup table is at least [l]. *)
Definition table_at_least (l : R) (table : list (list (list double))) : Prop :=
  Forall (Forall (Forall (at_least l))) table.

(** The [phi -> theta] maps of the four transformation kinds, on the
    reals (the right column of the table of the specification). *)
Definition phi_to_theta (k : Z) (mn mx : R) (ph : R) : R :=
  match k with
  | 0%Z => ph
  | 1%Z => mx - Rtrigo_def.exp ph
  | 2%Z => Rtrigo_def.exp ph + mn
  | _ => (mx * Rtrigo_def.exp ph + mn) / (1 + Rtrigo_def.exp ph)
  end.

(** [d theta / d phi] of these maps, written in terms of [theta]. *)
Definition dtheta_dphi (k : Z) (mn mx : R) (th : R) : R :=
  match k with
  | 0%Z => 1
  | 1%Z => - (mx - th)
  | 2%Z => th - mn
  | _ => (mx - th) * (th - mn) / (mx - mn)
  end.

(** The real a finite bound stands for. *)
Definition bound (x : double) : R :=
  match x with Fin r => r | _ => 0 end.

(** The analytic log-Jacobian ratio of the proposed against the current
    point, as the specification words it. *)
Definition log_jacobian_ratio (k : Z) (mn mx : R) (th th_prop : R) : R :=
  match k with
  | 0%Z => 0
  | 1%Z => ln (mx - th_prop) - ln (mx - th)
  | 2%Z => ln (th_prop - mn) - ln (th - mn)
  | _ => ln (mx - th_prop) + ln (th_prop - mn) - ln (mx - th) - ln (th - mn)
  end.

(** "[x] lies strictly inside the bounds relevant to kind [k]": the upper
    bound for kind 1, the lower bound for kind 2, both for kind 3, none
    for kind 0.  The relevant bounds are finite. *)
Definition strictly_inside (k : Z) (mn mx : double) (x : R) : Prop :=
  match k with
  | 0%Z => True
  | 1%Z => ∃ b, mx = Fin b ∧ x < b
  | 2%Z => ∃ a, mn = Fin a ∧ a < x
  | 3%Z => ∃ a b, mn = Fin a ∧ mx = Fin b ∧ a < x < b
  | _ => False
  end.

(** The vectors the transformations index have [d] entries and every
    transformation kind is one of the four. *)
Definition transforms_well_formed (s : System) (p : Particle) : Prop :=
  length (trans_type s) = d s
  ∧ Forall (fun k => (0 ≤ k ≤ 3)%Z) (trans_type s)
  ∧ length (theta_min s) = d s ∧ length (theta_max s) = d s
  ∧ length (theta p) = d s ∧ length (phi p) = d s
  ∧ length (theta_prop p) = d s.

(** The value [theta_to_phi] stores in [phi[i]]. *)
Definition theta_to_phi_value (k : Z) (mn mx th : double) : double :=
  match k with
  | 0%Z => th
  | 1%Z => log (mx - th)
  | 2%Z => log (th - mn)
  | _ => log (th - mn) - log (mx - th)
  end%D.

(** The value [phi_prop_to_theta_prop] stores in [theta_prop[i]]. *)
Definition phi_to_theta_value (k : Z) (mn mx ph : double) : double :=
  match k with
  | 0%Z => ph
  | 1%Z => mx - exp ph
  | 2%Z => exp ph + mn
  | _ => (mx * exp ph + mn) / (Fin 1 + exp ph)
  end%D.

(** The rung [keep] after an accepted swap with the rung [take]: the
    position in parameter space, its likelihood and its prior come from
    [take]; the proposal buffers, the bandwidths and their counters, the
    step size, the acceptance count and the inverse-temperature power stay
    with the rung. *)
Definition with_state_of (keep take : Particle) : Particle :=
  {| theta := theta take; theta_prop := theta_prop keep;
     phi := phi take; phi_prop := phi_prop keep;
     bw := bw keep; bw_index := bw_index keep;
     bw_stepsize := bw_stepsize keep;
     loglike := loglike take; loglike_prop := loglike_prop keep;
     logprior := logprior take; logprior_prop := logprior_prop keep;
     accept_count := accept_count keep; beta_raised := beta_raised keep |}.

(** A table with the extent the range test allows for: 2001 means, 101
    coefficients of variation and days 0 to 100. *)
Definition table_full (table : list (list (list double))) : Prop :=
  length table = 2001%nat
  ∧ Forall (fun row => length row = 101%nat
                       ∧ Forall (fun col => length col = 101%nat) row) table.

(** The part of a chain that an accepted swap moves to the other rung. *)
Definition state_of (p : Particle) : list double * list double * double * double :=
  (theta p, phi p, loglike p, logprior p).

(** The part of a chain that stays with its rung. *)
Definition rung_of (p : Particle)
  : list double * list double * list double * list Z * double
    * double * double * Z * double :=
  (theta_prop p, phi_prop p, bw p, bw_index p, bw_stepsize p,
   loglike_prop p, logprior_prop p, accept_count p, beta_raised p).

(** The proposal buffers hold the current position. *)
Definition in_sync (p : Particle) : Prop :=
  theta_prop p = theta p ∧ phi_prop p = phi p.

(** The six vectors of a chain have [d] entries. *)
Definition vectors_sized (s : System) (p : Particle) : Prop :=
  length (theta p) = d s ∧ length (theta_prop p) = d s
  ∧ length (phi p) = d s ∧ length (phi_prop p) = d s
  ∧ length (bw p) = d s ∧ length (bw_index p) = d s.

(** [theta[i]] is the image of [phi[i]] under the transformation of [i],
    at every index. *)
Definition consistent (s : System) (p : Particle) : Prop :=
  ∀ i k mn mx th ph,
    trans_type s !! i = Some k →
    theta_min s !! i = Some mn → theta_max s !! i = Some mx →
    theta p !! i = Some th → phi p !! i = Some ph →
    th = phi_to_theta_value k mn mx ph.

(** The chain after an accepted and after a rejected move of parameter
    [i], from the chain [p] before the step: [pp] and [tp] are the proposal
    and its transform, [ll] and [lp] its likelihood and prior, [th], [ph],
    [b] and [n] the entries [i] of [theta], [phi], [bw] and [bw_index] of
    [p]. *)
Definition after_accept (i : nat) (p : Particle)
    (tp pp ll lp b : double) (n : Z) : Particle :=
  {| theta := <[i := tp]> (theta p);
     theta_prop := <[i := tp]> (theta_prop p);
     phi := <[i := pp]> (phi p);
     phi_prop := <[i := pp]> (phi_prop p);
     bw := <[i := exp (log b + bw_stepsize p * (Fin 1 - Fin 0.234)
                               / sqrt (of_int n))%D]> (bw p);
     bw_index := <[i := (n + 1)%Z]> (bw_index p);
     bw_stepsize := bw_stepsize p;
     loglike := ll; loglike_prop := ll;
     logprior := lp; logprior_prop := lp;
     accept_count := (accept_count p + 1)%Z;
     beta_raised := beta_raised p |}.

Definition after_reject (i : nat) (p : Particle)
    (tp pp th ph ll lp b : double) (n : Z) : Particle :=
  {| theta := theta p;
     theta_prop := <[i := th]> (<[i := tp]> (theta_prop p));
     phi := phi p;
     phi_prop := <[i := ph]> (<[i := pp]> (phi_prop p));
     bw := <[i := exp (log b - bw_stepsize p * Fin 0.234
                               / sqrt (of_int n))%D]> (bw p);
     bw_index := <[i := (n + 1)%Z]> (bw_index p);
     bw_stepsize := bw_stepsize p;
     loglike := loglike p; loglike_prop := ll;
     logprior := logprior p; logprior_prop := lp;
     accept_count := accept_count p;
     beta_raised := beta_raised p |}.

(** The per-parameter vectors of the system have [d] entries and every
    transformation kind is one of the four. *)
Definition system_sized (s : System) : Prop :=
  length (skip_param s) = d s ∧ length (trans_type s) = d s
  ∧ Forall (fun k => (0 ≤ k ≤ 3)%Z) (trans_type s)
  ∧ length (theta_min s) = d s ∧ length (theta_max s) = d s.

(** The [k]-th block of [n_node] consecutive entries of [theta]. *)
Definition node_group (s : System) (theta : list double) (k : nat)
  : list double :=
  take (n_node s) (drop (k * n_node s) theta).

(** The curves and coefficients of variation read off a parameter vector:
    nine blocks of nodes in the order AI, AD, ID of the probabilities and
    AI, AD, AC, ID, IS, SC of the mean durations, then the six
    coefficients of variation. *)
Definition curves_of (s : System)
    (cubic_spline : list double → list double → list double → list double)
    (theta : list double) : Curves :=
  let spline k := cubic_spline (node_x s) (node_group s theta k) (age_seq s) in
  {| p_AI := map to_unit (spline 0%nat);
     p_AD := map to_unit (spline 1%nat);
     p_ID := map to_unit (spline 2%nat);
     m_AI := map to_20 (spline 3%nat);
     m_AD := map to_20 (spline 4%nat);
     m_AC := map to_20 (spline 5%nat);
     m_ID := map to_20 (spline 6%nat);
     m_IS := map to_20 (spline 7%nat);
     m_SC := map to_20 (spline 8%nat);
     s_AI := theta !!! (9 * n_node s)%nat;
     s_AD := theta !!! (9 * n_node s + 1)%nat;
     s_AC := theta !!! (9 * n_node s + 2)%nat;
     s_ID := theta !!! (9 * n_node s + 3)%nat;
     s_IS := theta !!! (9 * n_node s + 4)%nat;
     s_SC := theta !!! (9 * n_node s + 5)%nat |}.

(** The generator after [n] uniform draws. *)
Definition draws {rng : Type} (runif_0_1 : rng → double * rng)
    (n : nat) (g : rng) : rng :=
  Nat.iter n (fun g => (runif_0_1 g).2) g.

(** The log-density of the standard logistic distribution, as
    [get_logprior] writes it. *)
Definition logistic_logdensity (x : double) : double :=
  (- x - Fin 2 * log (Fin 1 + exp (- x)))%D.

(** [floor(v * 100)], the index the lookups compute from a mean or a
    coefficient of variation. *)
Definition index_of (v : double) : double := floor (mul64 v (Fin 100)).

(** The double [v] is an integer between [lo] and [hi]. *)
Definition index_in (lo hi : Z) (v : double) : Prop :=
  ∃ k : Z, v = Fin (IZR k) ∧ (lo ≤ k ≤ hi)%Z.

(** What the range test of the lookups lets through on one argument: an
    index inside the bounds, or NaN. *)
Definition nan_or_in (lo hi : Z) (v : double) : Prop :=
  v = NaN ∨ index_in lo hi (index_of v).

(** The valid lookup domain: both indices inside the table and a day that
    is not negative. *)
Definition valid_lookup (x : Z) (m sd : double) : Prop :=
  index_in 0 2000 (index_of m) ∧ index_in 0 100 (index_of sd) ∧ (0 ≤ x)%Z.

(** The entry of a table at three integer indices, when it has one. *)
Definition table_entry (table : list (list (list double))) (mi si x : Z)
  : option double :=
  row ← table !! Z.to_nat mi; col ← row !! Z.to_nat si; col !! Z.to_nat x.

(** Reading an entry: the entry, or an out-of-range read. *)
Definition entry_result (o : option double) : result double :=
  match o with Some v => Ok v | None => Undef end.

(** The call [r'] fails as the call [r] does: both are stopped with the
    same message, or both are undefined. *)
Definition same_failure {A B} (r : result A) (r' : result B) : Prop :=
  match r, r' with
  | Stop msg, Stop msg' => msg = msg'
  | Undef, Undef => True
  | _, _ => False
  end.

End Notions.

Export Notions.

Module Examples.

(** A system with [n] parameters of transformation kind [k] bounded by
    [mn] and [mx], no spline node, no age and the given lookup table. *)
Definition sys (n : nat) (k : Z) (mn mx : double)
    (table : list (list (list double))) : System :=
  {| d := n; n_node := 0; max_indlevel_age := -1; node_x := [];
     theta_min := replicate n mn; theta_max := replicate n mx;
     theta_init := replicate n (Fin 0);
     trans_type := replicate n k; skip_param := replicate n false;
     p_AI_numer := []; p_AI_denom := []; p_AD_numer := [];
     p_AD_denom := []; p_ID_numer := []; p_ID_denom := [];
     m_AI_count := []; m_AD_count := []; m_AC_count := [];
     m_ID_count := []; m_IS_count := []; m_SC_count := [];
     gamma_density_lookup := table; gamma_tail_lookup := table |}.

(** The same with one age, without day counts. *)
Definition sys_one_age (n : nat) : System :=
  {| d := n; n_node := 0; max_indlevel_age := 0; node_x := [];
     theta_min := replicate n (Fin 0); theta_max := replicate n (Fin 1);
     theta_init := replicate n (Fin 0);
     trans_type := replicate n 0%Z; skip_param := replicate n false;
     p_AI_numer := [0%Z]; p_AI_denom := [0%Z]; p_AD_numer := [0%Z];
     p_AD_denom := [0%Z]; p_ID_numer := [0%Z]; p_ID_denom := [0%Z];
     m_AI_count := [[]]; m_AD_count := [[]]; m_AC_count := [[]];
     m_ID_count := [[]]; m_IS_count := [[]]; m_SC_count := [[]];
     gamma_density_lookup := []; gamma_tail_lookup := [] |}.

(** A system with [n] parameters of kind 0, all of them skipped. *)
Definition sys_skip (n : nat) : System :=
  {| d := n; n_node := 0; max_indlevel_age := -1; node_x := [];
     theta_min := replicate n (Fin 0); theta_max := replicate n (Fin 1);
     theta_init := replicate n (Fin 0);
     trans_type := replicate n 0%Z; skip_param := replicate n true;
     p_AI_numer := []; p_AI_denom := []; p_AD_numer := [];
     p_AD_denom := []; p_ID_numer := []; p_ID_denom := [];
     m_AI_count := []; m_AD_count := []; m_AC_count := [];
     m_ID_count := []; m_IS_count := []; m_SC_count := [];
     gamma_density_lookup := []; gamma_tail_lookup := [] |}.

(** A system with one node per spline, fifteen parameters of kind 0 and
    no age. *)
Definition sys_one_node : System :=
  {| d := 15; n_node := 1; max_indlevel_age := -1; node_x := [Fin 0];
     theta_min := replicate 15 (Fin 0); theta_max := replicate 15 (Fin 1);
     theta_init := replicate 15 (Fin 0);
     trans_type := replicate 15 0%Z; skip_param := replicate 15 false;
     p_AI_numer := []; p_AI_denom := []; p_AD_numer := [];
     p_AD_denom := []; p_ID_numer := []; p_ID_denom := [];
     m_AI_count := []; m_AD_count := []; m_AC_count := [];
     m_ID_count := []; m_IS_count := []; m_SC_count := [];
     gamma_density_lookup := []; gamma_tail_lookup := [] |}.

(** A chain whose vectors all hold [n] copies of one value. *)
Definition chain (n : nat) (th th_prop : double) (beta : double) : Particle :=
  {| theta := replicate n th; theta_prop := replicate n th_prop;
     phi := replicate n th; phi_prop := replicate n th_prop;
     bw := replicate n (Fin 1); bw_index := replicate n 1%Z;
     bw_stepsize := Fin 1; loglike := Fin 0; loglike_prop := Fin 0;
     logprior := Fin 0; logprior_prop := Fin 0; accept_count := 0;
     beta_raised := beta |}.

(** The full table with the same entry everywhere. *)
Definition table_const (v : double) : list (list (list double)) :=
  replicate 2001 (replicate 101 (replicate 101 v)).

(** Stand-ins for the external functions. *)
Definition spline_const : list double → list double → list double → list double :=
  fun _ _ x_pred => map (fun _ => Fin 0) x_pred.
Definition density_const (v : double) : double → double → double → bool → double :=
  fun _ _ _ _ => v.
Definition rnorm1_mean : double → double → unit → double * unit :=
  fun mean _ g => (mean, g).
Definition runif_const (u : double) : unit → double * unit :=
  fun g => (u, g).

End Examples.

(* ===================================================================== *)
(** * Arithmetic of doubles *)
(* ===================================================================== *)

Section DoubleFacts.

Local Open Scope R_scope.

Lemma sgn_pos r : 0 < r → sgn r = Gt.
Proof.
  intros H. unfold sgn.
  destruct (Rlt_dec r 0); [lra|]. destruct (Rlt_dec 0 r); [done|lra].
Qed.

Lemma sgn_neg r : r < 0 → sgn r = Lt.
Proof. intros H. unfold sgn. destruct (Rlt_dec r 0); [done|lra]. Qed.

Lemma sgn_zero r : r = 0 → sgn r = Eq.
Proof.
  intros ->. unfold sgn.
  destruct (Rlt_dec 0 0); [lra|done].
Qed.

Lemma lt_Fin_true a b : a < b → Double.lt (Fin a) (Fin b) = true.
Proof. intros H. simpl. destruct (Rlt_dec a b); [done|lra]. Qed.

Lemma lt_Fin_false a b : b <= a → Double.lt (Fin a) (Fin b) = false.
Proof. intros H. simpl. destruct (Rlt_dec a b); [lra|done]. Qed.

Lemma lt_Fin_iff a b : Double.lt (Fin a) (Fin b) = true ↔ a < b.
Proof. simpl. destruct (Rlt_dec a b); split; (done || lra). Qed.

Lemma log_Fin_pos r : 0 < r → log (Fin r) = Fin (ln r).
Proof. intros H. simpl. by rewrite sgn_pos. Qed.

Lemma log_Fin_neg r : r < 0 → log (Fin r) = NaN.
Proof. intros H. simpl. by rewrite sgn_neg. Qed.

Lemma sub_Fin a b : Double.sub (Fin a) (Fin b) = Fin (a - b).
Proof. done. Qed.

Lemma div_Fin a b : b ≠ 0 → Double.div (Fin a) (Fin b) = Fin (a / b).
Proof. intros H. simpl. destruct (Req_dec_T b 0); done. Qed.

Lemma floor_IZR z : floor (Fin (IZR z)) = Fin (IZR z).
Proof.
  simpl. f_equal. f_equal. symmetry. apply Int_part_spec. lra.
Qed.

Lemma isfinite_Fin x : isfinite x = true ↔ ∃ r, x = Fin r.
Proof. destruct x; simpl; split; (eauto || done || intros [? ?]; done). Qed.

End DoubleFacts.

(* ===================================================================== *)
(** * Vectors, aborts and loops *)
(* ===================================================================== *)

Section RcppFacts.

Context {A B : Type}.

Lemma vget_Some (v : list A) i x : v !! i = Some x → vget v i = Ok x.
Proof. intros H. unfold vget. by rewrite H. Qed.

Lemma vget_Ok_inv (v : list A) i x : vget v i = Ok x → v !! i = Some x.
Proof. unfold vget. destruct (v !! i); naive_solver. Qed.

Lemma vset_Ok (v : list A) i x :
  (i < length v)%nat → vset v i x = Ok (<[i := x]> v).
Proof. intros H. unfold vset. by rewrite decide_True. Qed.

Lemma vset_Ok_inv (v v' : list A) i x :
  vset v i x = Ok v' → (i < length v)%nat ∧ v' = <[i := x]> v.
Proof. unfold vset. destruct (decide _); naive_solver. Qed.

Lemma bind_Ok_inv (m : result A) (f : A → result B) b :
  m ≫= f = Ok b → ∃ a, m = Ok a ∧ f a = Ok b.
Proof. destruct m; simpl; naive_solver. Qed.

Lemma bind_Ok (m : result A) (f : A → result B) a :
  m = Ok a → m ≫= f = f a.
Proof. by intros ->. Qed.

End RcppFacts.

Section LoopFacts.

Context {A : Type}.
Implicit Types (body : nat → A → result A).

Lemma for_from_S i n body a :
  for_from i (S n) body a = body i a ≫= for_from (S i) n body.
Proof. done. Qed.

(** A loop of [n + k] rounds is a loop of [n] rounds followed by one of
    [k] rounds. *)
Lemma for_from_add i n k body a :
  for_from i (n + k) body a
  = for_from i n body a ≫= for_from (i + n) k body.
Proof.
  revert i a. induction n as [|n IH]; intros i a; simpl.
  - by rewrite Nat.add_0_r.
  - destruct (body i a) as [a'| |]; simpl; try done.
    rewrite IH. by replace (S i + n)%nat with (i + S n)%nat by lia.
Qed.

(** Invariant rule: what every round preserves holds when the loop
    returns. *)
Lemma for_from_invariant (P : nat → A → Prop) i n body a a' :
  P i a →
  (∀ j x y, (i ≤ j < i + n)%nat → P j x → body j x = Ok y → P (S j) y) →
  for_from i n body a = Ok a' →
  P (i + n)%nat a'.
Proof.
  revert i a. induction n as [|n IH]; intros i a Ha Hstep Hrun; simpl in *.
  - rewrite Nat.add_0_r. by inversion Hrun; subst.
  - apply bind_Ok_inv in Hrun as (x & Hx & Hrun).
    replace (i + S n)%nat with (S i + n)%nat by lia.
    apply (IH (S i) x); [|intros; eapply Hstep; eauto; lia|done].
    eapply Hstep; eauto. lia.
Qed.

(** A [for] loop visits the indices in increasing order. *)
Lemma for_from_seq body i n a :
  for_from i n body a
  = foldl (fun r k => r ≫= body k) (Ok a) (seq i n).
Proof.
  assert (Hstop : ∀ l (m : result A), (∀ x, m ≠ Ok x) →
            foldl (fun r k => r ≫= body k) m l = m).
  { induction l as [|k l IH]; intros m Hm; [done|]. simpl.
    destruct m; [by destruct (Hm a0)| |]; by rewrite IH. }
  revert i a. induction n as [|n IH]; intros i a; [done|].
  simpl. destruct (body i a) as [a'| |] eqn:E; simpl.
  - apply IH.
  - by rewrite Hstop.
  - by rewrite Hstop.
Qed.

(** Totality rule: a loop whose rounds all return, returns. *)
Lemma for_from_total (P : A → Prop) i n body a :
  P a →
  (∀ j x, (i ≤ j < i + n)%nat → P x → ∃ y, body j x = Ok y ∧ P y) →
  ∃ a', for_from i n body a = Ok a' ∧ P a'.
Proof.
  revert i a. induction n as [|n IH]; intros i a Ha Hstep; simpl.
  - eauto.
  - destruct (Hstep i a ltac:(lia) Ha) as (y & -> & Hy). simpl.
    apply IH; [done|]. intros j x Hj. apply Hstep. lia.
Qed.

(** A loop whose rounds either return and keep [P], or fail in a way [F]
    that a continuation cannot undo, returns with [P] or fails with
    [F]. *)
Lemma for_from_outcome (P : A → Prop) (F : result A → Prop) i n body a :
  (∀ (m : result A) (k : A → result A), F m → F (m ≫= k)) →
  P a →
  (∀ j x, (i ≤ j < i + n)%nat → P x →
     (∃ y, body j x = Ok y ∧ P y) ∨ F (body j x)) →
  (∃ a', for_from i n body a = Ok a' ∧ P a') ∨ F (for_from i n body a).
Proof.
  intros HF. revert i a. induction n as [|n IH]; intros i a Ha Hstep; simpl.
  - left. eauto.
  - destruct (Hstep i a ltac:(lia) Ha) as [(y & -> & Hy)|Hfail].
    + simpl. apply IH; [done|]. intros j x Hj. apply Hstep. lia.
    + right. by apply HF.
Qed.

End LoopFacts.

(* ===================================================================== *)
(** * Delay lookups *)
(* ===================================================================== *)

Section Rounding.

Local Open Scope R_scope.

Lemma ln_2_pos : 0 < ln 2.
Proof. rewrite <- ln_1. apply ln_increasing; lra. Qed.

Lemma ln_powerRZ_2 e : ln (powerRZ 2 e) = IZR e * ln 2.
Proof. rewrite powerRZ_Rpower by lra. apply ln_Rpower. Qed.

(** The binade of a number between [2^e] and [2^(e+1)] is [e]. *)
Lemma binade_spec e r :
  powerRZ 2 e <= Rabs r < powerRZ 2 (e + 1) → binade r = e.
Proof.
  intros [H1 H2]. unfold binade. symmetry. apply Int_part_spec.
  pose proof ln_2_pos as L2.
  assert (Hp : 0 < powerRZ 2 e) by (apply powerRZ_lt; lra).
  assert (Ha : 0 < Rabs r) by lra.
  assert (Hlo : IZR e * ln 2 <= ln (Rabs r)).
  { rewrite <- ln_powerRZ_2. destruct H1 as [H1|H1].
    - left. by apply ln_increasing.
    - rewrite H1. lra. }
  assert (Hhi : ln (Rabs r) < IZR (e + 1) * ln 2).
  { rewrite <- ln_powerRZ_2. by apply ln_increasing. }
  rewrite plus_IZR in Hhi.
  assert (E : ln (Rabs r) / ln 2 * ln 2 = ln (Rabs r)) by (field; lra).
  split.
  - apply (Rmult_lt_reg_r (ln 2)); [done|]. lra.
  - apply (Rmult_le_reg_r (ln 2)); [done|]. lra.
Qed.

Lemma Int_part_IZR k : Int_part (IZR k) = k.
Proof. symmetry. apply Int_part_spec. lra. Qed.

Lemma Int_part_bounds r : IZR (Int_part r) <= r < IZR (Int_part r) + 1.
Proof. destruct (base_Int_part r). lra. Qed.

Lemma nearest_even_IZR k : nearest_even (IZR k) = k.
Proof.
  unfold nearest_even. rewrite Int_part_IZR.
  destruct (Rlt_dec (IZR k - IZR k) (1 / 2)); [done|lra].
Qed.

Lemma nearest_even_up x f :
  IZR f + 1 / 2 < x < IZR f + 1 → nearest_even x = (f + 1)%Z.
Proof.
  intros [H1 H2]. unfold nearest_even.
  assert (E : Int_part x = f) by (symmetry; apply Int_part_spec; lra).
  rewrite E.
  destruct (Rlt_dec (x - IZR f) (1 / 2)); [lra|].
  destruct (Rlt_dec (1 / 2) (x - IZR f)); [done|lra].
Qed.

Lemma powerRZ_2_IZR e : (0 ≤ e)%Z → powerRZ 2 e = IZR (2 ^ e).
Proof.
  intros He. destruct e as [|p|p]; [done| |lia].
  change (Z.pow 2 (Z.pos p)) with (Z.pow_pos 2 p).
  by rewrite Zpower_pos_powerRZ.
Qed.

(** Integers below [2^53] in magnitude are doubles. *)
Lemma round64_IZR z : (Z.abs z < 2 ^ 53)%Z → round64 (IZR z) = IZR z.
Proof.
  intros Hz. unfold round64.
  destruct (Req_dec_T (IZR z) 0) as [E|E]; [done|].
  assert (Hz0 : z ≠ 0%Z) by (intros ->; done).
  pose proof (Z.log2_spec (Z.abs z) ltac:(lia)) as [Hlo Hhi].
  pose proof (Z.log2_nonneg (Z.abs z)) as He.
  set (e := Z.log2 (Z.abs z)) in *.
  assert (He52 : (e ≤ 52)%Z).
  { destruct (Z_le_gt_dec e 52) as [|Hgt]; [done|].
    assert (2 ^ 53 ≤ 2 ^ e)%Z by (apply Z.pow_le_mono_r; lia). lia. }
  assert (Hb : binade (IZR z) = e).
  { apply binade_spec. rewrite Rabs_Zabs, !powerRZ_2_IZR by lia.
    split; [by apply IZR_le|apply IZR_lt]. by rewrite <- Z.add_1_r in Hhi. }
  unfold ulp64. rewrite Hb. replace (Z.max e (-1022)) with e by lia.
  assert (Hdiv : IZR z / powerRZ 2 (e - 52) = IZR (z * 2 ^ (52 - e))).
  { rewrite mult_IZR, <- powerRZ_2_IZR by lia.
    replace (52 - e)%Z with (- (e - 52))%Z by lia.
    rewrite powerRZ_neg'. done. }
  rewrite Hdiv, nearest_even_IZR, mult_IZR, <- powerRZ_2_IZR by lia.
  rewrite <- Rmult_assoc, (Rmult_comm _ (IZR z)), Rmult_assoc.
  rewrite <- powerRZ_add by lra.
  replace (e - 52 + (52 - e))%Z with 0%Z by lia. simpl. lra.
Qed.

Lemma round64_0 r : r = 0 → round64 r = 0.
Proof. intros ->. unfold round64. by destruct (Req_dec_T 0 0). Qed.

(** A product whose rounded value stays within [DBL_MAX] is that value. *)
Lemma mul64_Fin a b :
  Rabs (round64 (a * b)) <= IZR ((2 ^ 53 - 1) * 2 ^ 971) →
  mul64 (Fin a) (Fin b) = Fin (round64 (a * b)).
Proof.
  intros H. unfold mul64, DBL_MAX. cbn [Double.mul]. cbv zeta.
  by rewrite lt_Fin_false.
Qed.

Lemma mul64_small a b :
  Rabs (round64 (a * b)) <= 2001 →
  mul64 (Fin a) (Fin b) = Fin (round64 (a * b)).
Proof.
  intros H. apply mul64_Fin.
  assert (2001 <= IZR ((2 ^ 53 - 1) * 2 ^ 971))
    by (apply IZR_le; by apply Z.leb_le).
  lra.
Qed.

(** An exact product of two doubles that is an integer below [2^53]. *)
Lemma mul64_int a b z :
  a * b = IZR z → (Z.abs z < 2 ^ 53)%Z → mul64 (Fin a) (Fin b) = Fin (IZR z).
Proof.
  intros E Hz. rewrite mul64_Fin; rewrite E, round64_IZR by done; [done|].
  rewrite Rabs_Zabs. apply IZR_le.
  assert (2 ^ 53 ≤ (2 ^ 53 - 1) * 2 ^ 971)%Z by (by apply Z.leb_le).
  lia.
Qed.

(** The product of a double that is not NaN with 100 is not NaN. *)
Lemma mul64_100_cases m :
  m ≠ NaN →
  (∃ q, mul64 m (Fin 100) = Fin q) ∨ mul64 m (Fin 100) = PInf
  ∨ mul64 m (Fin 100) = NInf.
Proof.
  intros Hm. destruct m as [a| | |]; [| | |done].
  - unfold mul64, DBL_MAX. cbn [Double.mul]. cbv zeta.
    set (q := round64 (a * 100)).
    destruct (Double.lt _ _) eqn:E; [|by left; exists q].
    assert (Hq : 0 < Rabs q).
    { simpl in E. destruct (Rlt_dec _ (Rabs q)) as [Hlt|]; [|done].
      assert (0 < IZR ((2 ^ 53 - 1) * 2 ^ 971))
        by (apply IZR_lt; by apply Z.ltb_lt).
      lra. }
    right. unfold sgn.
    destruct (Rlt_dec q 0); [by right|].
    destruct (Rlt_dec 0 q); [by left|].
    assert (q = 0) by lra. subst q. rewrite H, Rabs_R0 in Hq. lra.
  - right. left. unfold mul64. simpl. unfold sgn.
    destruct (Rlt_dec 100 0); [lra|]. destruct (Rlt_dec 0 100); [done|lra].
  - right. right. unfold mul64. simpl. unfold sgn.
    destruct (Rlt_dec 100 0); [lra|]. destruct (Rlt_dec 0 100); [done|lra].
Qed.

End Rounding.

Section DelayLookup.

Local Open Scope R_scope.

(** The index of a double that is not NaN is an integer or an infinity. *)
Lemma index_of_cases m :
  m ≠ NaN →
  (∃ k, index_of m = Fin (IZR k)) ∨ index_of m = PInf ∨ index_of m = NInf.
Proof.
  intros Hm. unfold index_of.
  destruct (mul64_100_cases m Hm) as [[q ->]|[-> | ->]]; simpl; eauto.
Qed.

(** The index of a finite double whose rounded multiple of 100 lies in the
    range of the table. *)
Lemma index_of_Fin r :
  (0 ≤ Int_part (round64 (r * 100)) ≤ 2000)%Z →
  index_of (Fin r) = Fin (IZR (Int_part (round64 (r * 100)))).
Proof.
  intros [H1 H2]. unfold index_of. rewrite mul64_small; [done|].
  pose proof (Int_part_bounds (round64 (r * 100))) as [Hl Hu].
  apply IZR_le in H1, H2. apply Rabs_le. lra.
Qed.

(** The rounding decides the row: at the double nearest to [0.15], which
    is [5404319552844595 / 2^55], the exact product with 100 lies below 15
    and the machine product is 15, so row 15 is read. *)
Lemma index_of_rounds :
  let m := IZR 5404319552844595 / IZR (2 ^ 55) in
  Int_part (m * 100) = 14%Z ∧ index_of (Fin m) = Fin 15.
Proof.
  intros m.
  assert (Hm : m * 100 = 540431955284459500 / 36028797018963968).
  { unfold m. change (2 ^ 55)%Z with 36028797018963968%Z. lra. }
  clearbody m.
  assert (Hlo : 14 <= m * 100 < 15) by lra.
  split; [symmetry; apply Int_part_spec; lra|].
  assert (Hb : binade (m * 100) = 3%Z).
  { apply binade_spec. rewrite Rabs_pos_eq by lra.
    rewrite !powerRZ_2_IZR by lia.
    change (2 ^ 3)%Z with 8%Z. change (2 ^ (3 + 1))%Z with 16%Z. lra. }
  assert (Hr : round64 (m * 100) = 15).
  { unfold round64. destruct (Req_dec_T (m * 100) 0); [lra|].
    unfold ulp64. rewrite Hb. change (Z.max 3 (-1022) - 52)%Z with (-49)%Z.
    assert (Hu : powerRZ 2 (-49) = / IZR (2 ^ 49)).
    { change (-49)%Z with (Z.opp 49). rewrite powerRZ_neg'.
      by rewrite powerRZ_2_IZR by lia. }
    rewrite Hu, Hm.
    change (2 ^ 49)%Z with 562949953421312%Z.
    rewrite (nearest_even_up _ 8444249301319679) by lra.
    change (8444249301319679 + 1)%Z with 8444249301319680%Z. lra. }
  unfold index_of. rewrite mul64_small; rewrite Hr.
  - apply (floor_IZR 15).
  - rewrite Rabs_pos_eq; lra.
Qed.

(** On an integer, the two tests on an index are the comparisons of the
    integer with the bounds. *)
Lemma index_test_int (lo hi k : Z) :
  (Fin (IZR k) <? Fin (IZR lo))%D = false
  ∧ (Fin (IZR k) >? Fin (IZR hi))%D = false
  ↔ (lo ≤ k ≤ hi)%Z.
Proof.
  unfold Double.gt. simpl.
  destruct (Rlt_dec (IZR k) (IZR lo)) as [H1|H1];
    destruct (Rlt_dec (IZR hi) (IZR k)) as [H2|H2]; split;
    try (by intros [? ?]); intros [Hlo Hhi];
    try (apply lt_IZR in H1; lia); try (apply lt_IZR in H2; lia); try done.
  split; apply le_IZR; lra.
Qed.

(** On an integer or an infinity, an index passes the two tests exactly
    when it is an integer within the bounds. *)
Lemma index_test_iff (lo hi : Z) v :
  (∃ k, v = Fin (IZR k)) ∨ v = PInf ∨ v = NInf →
  (v <? Fin (IZR lo))%D = false ∧ (v >? Fin (IZR hi))%D = false
  ↔ index_in lo hi v.
Proof.
  intros [[k ->]|[-> | ->]].
  - rewrite index_test_int. unfold index_in. split.
    + intros H. by exists k.
    + intros (k' & E & H). inversion E as [E']. apply eq_IZR in E'. by subst.
  - split; [by intros [_ ?]|by intros (k & ? & _)].
  - split; [by intros [? _]|by intros (k & ? & _)].
Qed.

(** For arguments that are not NaN the range test of the source fails
    exactly on the valid lookup domain. *)
Lemma outside_lookup_range_valid x m sd :
  m ≠ NaN → sd ≠ NaN →
  outside_lookup_range (index_of m) (index_of sd) x = false
  ↔ valid_lookup x m sd.
Proof.
  intros Hm Hs. unfold outside_lookup_range, valid_lookup.
  rewrite !orb_false_iff, Z.ltb_ge.
  rewrite <- (index_test_iff 0 2000 _ (index_of_cases m Hm)).
  rewrite <- (index_test_iff 0 100 _ (index_of_cases sd Hs)).
  tauto.
Qed.

Lemma to_index_floor r :
  (0 ≤ Int_part r)%Z →
  to_index (floor (Fin r)) = Some (Z.to_nat (Int_part r)).
Proof.
  intros H. simpl. apply IZR_le in H.
  destruct (Rlt_dec (-1) (IZR (Int_part r))); [|lra].
  do 2 f_equal. symmetry. apply Int_part_spec. lra.
Qed.

(** Reading the table at integer indices. *)
Lemma lookup3_entry (table : list (list (list double))) mi si x :
  (0 ≤ mi)%Z → (0 ≤ si)%Z →
  lookup3 table (Fin (IZR mi)) (Fin (IZR si)) x
  = entry_result (table_entry table mi si x).
Proof.
  intros Hm Hs. unfold lookup3, to_index, table_entry.
  apply IZR_le in Hm, Hs.
  destruct (Rlt_dec (-1) (IZR mi)); [|lra].
  destruct (Rlt_dec (-1) (IZR si)); [|lra].
  rewrite !Int_part_IZR. unfold vget.
  destruct (table !! Z.to_nat mi) as [row|]; [|done]. simpl.
  destruct (row !! Z.to_nat si) as [col|]; [|done]. simpl.
  by destruct (col !! Z.to_nat x).
Qed.

(** NaN passes every comparison of the range test: an argument gets
    through when its index is within the bounds or when it is NaN. *)
Lemma index_test_nan_or_in (lo hi : Z) v :
  (index_of v <? Fin (IZR lo))%D = false
  ∧ (index_of v >? Fin (IZR hi))%D = false
  ↔ nan_or_in lo hi v.
Proof.
  unfold nan_or_in. destruct v as [r| | |].
  - rewrite (index_test_iff lo hi _ (index_of_cases (Fin r) ltac:(done))).
    split; [by right|by intros [?|?]].
  - rewrite (index_test_iff lo hi _ (index_of_cases PInf ltac:(done))).
    split; [by right|by intros [?|?]].
  - rewrite (index_test_iff lo hi _ (index_of_cases NInf ltac:(done))).
    split; [by right|by intros [?|?]].
  - split; [by left|done].
Qed.

Lemma outside_lookup_range_passes x m sd :
  outside_lookup_range (index_of m) (index_of sd) x = false
  ↔ nan_or_in 0 2000 m ∧ nan_or_in 0 100 sd ∧ (0 ≤ x)%Z.
Proof.
  unfold outside_lookup_range. rewrite !orb_false_iff, Z.ltb_ge.
  rewrite <- (index_test_nan_or_in 0 2000 m).
  rewrite <- (index_test_nan_or_in 0 100 sd).
  tauto.
Qed.

(** A NaN index is converted to no index: the read is undefined. *)
Lemma lookup3_NaN (table : list (list (list double))) m sd x :
  m = NaN ∨ sd = NaN → lookup3 table (index_of m) (index_of sd) x = Undef.
Proof.
  intros [-> | ->]; unfold lookup3; [done|].
  by destruct (to_index (index_of m)).
Qed.

Lemma not_valid_lookup_NaN x m sd :
  m = NaN ∨ sd = NaN → ¬ valid_lookup x m sd.
Proof.
  intros [-> | ->]; [by intros [(k & ? & _) _]|by intros (_ & (k & ? & _) & _)].
Qed.

End DelayLookup.

Section DelayCases.

Local Open Scope R_scope.

Variable s : System.
Variables (x : Z) (m sd : double).

Lemma delay_outside :
  outside_lookup_range (index_of m) (index_of sd) x = true →
  get_delay_density s x m sd = Stop "" ∧ get_delay_tail s x m sd = Stop "".
Proof.
  intros H. unfold get_delay_density, get_delay_tail.
  change (floor (mul64 m (Fin 100))) with (index_of m).
  change (floor (mul64 sd (Fin 100))) with (index_of sd).
  by rewrite H.
Qed.

Lemma delay_past_100 :
  outside_lookup_range (index_of m) (index_of sd) x = false → (100 < x)%Z →
  get_delay_density s x m sd = Ok (Fin 1e-200)
  ∧ get_delay_tail s x m sd = Ok (Fin 1e-200).
Proof.
  intros H Hx. unfold get_delay_density, get_delay_tail.
  change (floor (mul64 m (Fin 100))) with (index_of m).
  change (floor (mul64 sd (Fin 100))) with (index_of sd).
  rewrite H. apply Z.gtb_lt in Hx. by rewrite Hx.
Qed.

Lemma delay_up_to_100 :
  outside_lookup_range (index_of m) (index_of sd) x = false → (x ≤ 100)%Z →
  get_delay_density s x m sd
  = lookup3 (gamma_density_lookup s) (index_of m) (index_of sd) x
  ∧ get_delay_tail s x m sd
    = lookup3 (gamma_tail_lookup s) (index_of m) (index_of sd) x.
Proof.
  intros H Hx. unfold get_delay_density, get_delay_tail.
  change (floor (mul64 m (Fin 100))) with (index_of m).
  change (floor (mul64 sd (Fin 100))) with (index_of sd).
  rewrite H.
  destruct (x >? 100)%Z eqn:E; [apply Z.gtb_lt in E; lia|done].
Qed.

End DelayCases.

(** A mean of 25 has index 2500 and aborts both lookups. *)
Lemma delay_at_25 (s : System) (x : Z) (sd : double) :
  get_delay_density s x (Fin 25) sd = Stop ""
  ∧ get_delay_tail s x (Fin 25) sd = Stop "".
Proof.
  apply delay_outside. unfold index_of at 1.
  rewrite (mul64_int 25 100 2500) by (lra || (simpl; lia)).
  unfold outside_lookup_range, Double.gt.
  rewrite floor_IZR, (lt_Fin_false 2500 0), (lt_Fin_true 2000 2500) by lra.
  done.
Qed.

(** C6.  The range test of [get_delay_density] and [get_delay_tail] is
    written with [<] and [>], which are false on NaN, so it misses the
    calls whose mean or coefficient of variation is NaN.  For every call
    with [m] and [s] that are not NaN the code does what is asked: when
    [floor(m*100)] is not an integer in [[0, 2000]], or [floor(s*100)] not
    one in [[0, 100]], or [x < 0], the call aborts through [Rcpp::stop];
    otherwise, when [x > 100], it returns [1e-200] whatever the table
    holds; otherwise it reads the table at
    [(floor(m*100), floor(s*100), x)] and returns that entry (the read is
    out of range when the table has no such entry).  A call with [m = 25]
    aborts.  When [m] or [s] is NaN its index is NaN, which lies in no
    range, and the call is not aborted on its account: if the other
    argument gets through the test, the call returns [1e-200] past day 100
    and indexes the table with NaN up to day 100. *)
Theorem get_delay_lookup_nan_unchecked (s : System) :
  (∀ x m sd, m ≠ NaN → sd ≠ NaN →
     (¬ valid_lookup x m sd →
        get_delay_density s x m sd = Stop ""
        ∧ get_delay_tail s x m sd = Stop "")
     ∧ (valid_lookup x m sd → (100 < x)%Z →
        get_delay_density s x m sd = Ok (Fin 1e-200)
        ∧ get_delay_tail s x m sd = Ok (Fin 1e-200))
     ∧ (∀ mi si,
          index_of m = Fin (IZR mi) → index_of sd = Fin (IZR si) →
          valid_lookup x m sd → (x ≤ 100)%Z →
          get_delay_density s x m sd
          = entry_result (table_entry (gamma_density_lookup s) mi si x)
          ∧ get_delay_tail s x m sd
            = entry_result (table_entry (gamma_tail_lookup s) mi si x)))
  ∧ (∀ x sd,
       get_delay_density s x (Fin 25) sd = Stop ""
       ∧ get_delay_tail s x (Fin 25) sd = Stop "")
  ∧ (∀ x m sd, m = NaN ∨ sd = NaN →
       ¬ valid_lookup x m sd
       ∧ (nan_or_in 0 2000 m → nan_or_in 0 100 sd →
          ((100 < x)%Z →
             get_delay_density s x m sd = Ok (Fin 1e-200)
             ∧ get_delay_tail s x m sd = Ok (Fin 1e-200))
          ∧ ((0 ≤ x ≤ 100)%Z →
             get_delay_density s x m sd = Undef
             ∧ get_delay_tail s x m sd = Undef))).
Proof.
  split; [|split; [apply delay_at_25|]].
  - intros x m sd Hm Hs.
    pose proof (outside_lookup_range_valid x m sd Hm Hs) as Hiff.
    split; [|split].
    + intros Hno. apply delay_outside.
      destruct (outside_lookup_range _ _ _); [done|].
      exfalso. apply Hno. by apply Hiff.
    + intros Hin. apply delay_past_100. by apply Hiff.
    + intros mi si Em Es Hin Hx.
      destruct (delay_up_to_100 s x m sd (proj2 Hiff Hin) Hx) as [-> ->].
      destruct Hin as ((k1 & E1 & H1) & (k2 & E2 & H2) & _).
      rewrite Em in E1. rewrite Es in E2.
      inversion E1 as [E1']. inversion E2 as [E2'].
      apply eq_IZR in E1', E2'. subst k1 k2.
      rewrite Em, Es, !lookup3_entry by lia. done.
  - intros x m sd Hnan. split; [by apply not_valid_lookup_NaN|].
    intros Pm Ps. split.
    + intros Hx. apply delay_past_100; [|done].
      apply outside_lookup_range_passes. repeat split; (done || lia).
    + intros Hx.
      destruct (delay_up_to_100 s x m sd) as [-> ->]; [|lia|].
      * apply outside_lookup_range_passes. repeat split; (done || lia).
      * by rewrite !lookup3_NaN.
Qed.

(** The table read of [get_delay_lookup_nan_unchecked] at day 0, mean 0
    and coefficient of variation 0 on a one-entry table. *)
Lemma get_delay_lookup_nan_unchecked_witness :
  get_delay_density (Examples.sys 0 0 (Fin 0) (Fin 0) [[[Fin 1]]])
    0 (Fin 0) (Fin 0) = Ok (Fin 1).
Proof.
  assert (E : index_of (Fin 0) = Fin (IZR 0)).
  { unfold index_of. rewrite (mul64_int 0 100 0) by (lra || (simpl; lia)).
    apply floor_IZR. }
  assert (V : valid_lookup 0 (Fin 0) (Fin 0)).
  { split; [|split; [|lia]]; exists 0%Z; (split; [exact E|lia]). }
  exact (proj1 (proj2 (proj2 (proj1
    (get_delay_lookup_nan_unchecked
       (Examples.sys 0 0 (Fin 0) (Fin 0) [[[Fin 1]]]))
    0%Z (Fin 0) (Fin 0) ltac:(done) ltac:(done))) 0%Z 0%Z E E V ltac:(lia))).
Defined.

Section DelayFloor.

Local Open Scope R_scope.

Lemma lookup3_in_table (table : list (list (list double))) r1 r2 x l :
  table_full table → table_at_least l table →
  (0 ≤ Int_part r1 ≤ 2000)%Z → (0 ≤ Int_part r2 ≤ 100)%Z → (0 ≤ x ≤ 100)%Z →
  ∃ v, lookup3 table (floor (Fin r1)) (floor (Fin r2)) x = Ok v
       ∧ at_least l v.
Proof.
  intros [Hlen Hfull] Hfloor H1 H2 Hx. unfold lookup3.
  rewrite !to_index_floor by lia.
  destruct (lookup_lt_is_Some_2 table (Z.to_nat (Int_part r1))) as [row Hrow];
    [lia|].
  rewrite (vget_Some _ _ _ Hrow). simpl.
  destruct (proj1 (Forall_lookup _ _) Hfull _ _ Hrow) as [Hlrow Hcols].
  pose proof (proj1 (Forall_lookup _ _) Hfloor _ _ Hrow) as Hfrow.
  destruct (lookup_lt_is_Some_2 row (Z.to_nat (Int_part r2))) as [col Hcol];
    [lia|].
  rewrite (vget_Some _ _ _ Hcol). simpl.
  pose proof (proj1 (Forall_lookup _ _) Hcols _ _ Hcol) as Hlcol.
  simpl in Hlcol.
  pose proof (proj1 (Forall_lookup _ _) Hfrow _ _ Hcol) as Hfcol.
  destruct (lookup_lt_is_Some_2 col (Z.to_nat x)) as [v Hv]; [lia|].
  rewrite (vget_Some _ _ _ Hv). exists v. split; [done|].
  exact (proj1 (Forall_lookup _ _) Hfcol _ _ Hv).
Qed.

Lemma at_least_weaken l l' v : l' <= l → at_least l v → at_least l' v.
Proof. destruct v; simpl; (done || lra). Qed.

(** On finite arguments whose indices lie in the table the range test
    passes. *)
Lemma inside_lookup_range_Fin (rm rs : R) (x : Z) :
  (0 ≤ Int_part (round64 (rm * 100)) ≤ 2000)%Z →
  (0 ≤ Int_part (round64 (rs * 100)) ≤ 100)%Z → (0 ≤ x)%Z →
  outside_lookup_range (index_of (Fin rm)) (index_of (Fin rs)) x = false.
Proof.
  intros Hm Hs Hx. apply outside_lookup_range_valid; [done|done|].
  split; [|split; [|done]].
  - eexists. split; [by apply index_of_Fin|done].
  - eexists. split; [apply index_of_Fin; lia|done].
Qed.

(** C8, as the claim states it, fails: the lookup returns the entry of the
    table as it is.  With a table whose entry at [(0, 0, 0)] is [0], the
    call at day 0, mean 0 and coefficient of variation 0 lies in the valid
    domain and returns [0], which is below [1e-200]. *)
Lemma delay_below_floor_counterexample :
  let s := Examples.sys 0 0 (Fin 0) (Fin 0) [[[Fin 0]]] in
  (0 ≤ Int_part (round64 (0 * 100)) ≤ 2000)%Z
  ∧ (0 ≤ Int_part (round64 (0 * 100)) ≤ 100)%Z
  ∧ get_delay_density s 0 (Fin 0) (Fin 0) = Ok (Fin 0)
  ∧ get_delay_tail s 0 (Fin 0) (Fin 0) = Ok (Fin 0)
  ∧ ¬ at_least 1e-200 (Fin 0).
Proof.
  assert (E : Int_part (round64 (0 * 100)) = 0%Z).
  { rewrite round64_0 by lra. apply (Int_part_IZR 0). }
  assert (I : index_of (Fin 0) = Fin 0)
    by (rewrite index_of_Fin; rewrite E; (done || lia)).
  destruct (delay_up_to_100
              (Examples.sys 0 0 (Fin 0) (Fin 0) [[[Fin 0]]])
              0 (Fin 0) (Fin 0)) as [Hd Ht].
  { apply inside_lookup_range_Fin; rewrite ?E; lia. }
  { lia. }
  assert (L : lookup3 [[[Fin 0]]] (index_of (Fin 0)) (index_of (Fin 0)) 0
              = Ok (Fin 0))
    by (rewrite I; apply (lookup3_entry [[[Fin 0]]] 0 0 0); lia).
  cbv zeta. rewrite E. repeat split; try lia.
  - rewrite Hd. exact L.
  - rewrite Ht. exact L.
  - simpl. lra.
Qed.

(** C8, amended.  For every day, mean and coefficient of variation in the
    valid lookup domain: past day 100 [get_delay_density] and
    [get_delay_tail] return exactly the floor [1e-200]; up to day 100 they
    return the entry of the lookup table, which is non-negative and at
    least [1e-200] when every entry of the table supplied to the sampler
    is at least [1e-200].  The indices are those the code computes: the
    floor of the product as the machine rounds it. *)
Theorem delay_at_least_floor (s : System) (x : Z) (rm rs : R) :
  (0 ≤ Int_part (round64 (rm * 100)) ≤ 2000)%Z →
  (0 ≤ Int_part (round64 (rs * 100)) ≤ 100)%Z →
  (0 ≤ x)%Z →
  ((100 < x)%Z →
     get_delay_density s x (Fin rm) (Fin rs) = Ok (Fin 1e-200)
     ∧ get_delay_tail s x (Fin rm) (Fin rs) = Ok (Fin 1e-200))
  ∧ (table_full (gamma_density_lookup s) →
     table_at_least 1e-200 (gamma_density_lookup s) →
     ∃ v, get_delay_density s x (Fin rm) (Fin rs) = Ok v
          ∧ at_least 1e-200 v ∧ at_least 0 v)
  ∧ (table_full (gamma_tail_lookup s) →
     table_at_least 1e-200 (gamma_tail_lookup s) →
     ∃ v, get_delay_tail s x (Fin rm) (Fin rs) = Ok v
          ∧ at_least 1e-200 v ∧ at_least 0 v).
Proof.
  intros Hm Hs Hx.
  pose proof (inside_lookup_range_Fin rm rs x Hm Hs Hx) as Hin.
  pose proof (delay_past_100 s x (Fin rm) (Fin rs) Hin) as Hfar.
  pose proof (delay_up_to_100 s x (Fin rm) (Fin rs) Hin) as Hnear.
  split; [exact Hfar|].
  destruct (Z_lt_le_dec 100 x) as [Hbig|Hsmall].
  - destruct (Hfar Hbig) as [-> ->].
    split; intros _ _; exists (Fin 1e-200); simpl; (repeat split); lra.
  - destruct (Hnear Hsmall) as [-> ->].
    rewrite (index_of_Fin rm), (index_of_Fin rs) by lia.
    split; intros Hfull Hfloor.
    + destruct (lookup3_in_table _ (round64 (rm * 100)) (round64 (rs * 100))
                  x _ Hfull Hfloor) as (v & Hv & Hge); try lia.
      exists v. repeat split; try done.
      apply (at_least_weaken 1e-200); [lra|done].
    + destruct (lookup3_in_table _ (round64 (rm * 100)) (round64 (rs * 100))
                  x _ Hfull Hfloor) as (v & Hv & Hge); try lia.
      exists v. repeat split; try done.
      apply (at_least_weaken 1e-200); [lra|done].
Qed.

Lemma table_const_full v : table_full (Examples.table_const v).
Proof.
  unfold table_full, Examples.table_const. rewrite length_replicate.
  split; [done|]. apply Forall_replicate. rewrite length_replicate.
  split; [done|]. apply Forall_replicate. by rewrite length_replicate.
Qed.

Lemma table_const_at_least l v :
  at_least l v → table_at_least l (Examples.table_const v).
Proof.
  intros H. unfold table_at_least, Examples.table_const.
  by do 3 apply Forall_replicate.
Qed.

(** [delay_at_least_floor] at day 0, mean 0 and coefficient of variation 0
    on the table whose entries are all 1. *)
Lemma delay_at_least_floor_witness :
  ∃ v, get_delay_density
         (Examples.sys 0 0 (Fin 0) (Fin 0) (Examples.table_const (Fin 1)))
         0 (Fin 0) (Fin 0) = Ok v
       ∧ at_least 1e-200 v ∧ at_least 0 v.
Proof.
  assert (E : Int_part (round64 (0 * 100)) = 0%Z).
  { rewrite round64_0 by lra. apply (Int_part_IZR 0). }
  refine (proj1 (proj2 (delay_at_least_floor
            (Examples.sys 0 0 (Fin 0) (Fin 0) (Examples.table_const (Fin 1)))
            0 0 0 _ _ _)) _ _).
  - rewrite E. lia.
  - rewrite E. lia.
  - lia.
  - apply table_const_full.
  - apply table_const_at_least. simpl. lra.
Defined.

End DelayFloor.

(* ===================================================================== *)
(** * Likelihood and prior *)
(* ===================================================================== *)

Section Likelihood.

Local Open Scope R_scope.

Variable s : System.
Variable cubic_spline : list double → list double → list double → list double.
Variable dbinom : double → double → double → bool → double.
Variable dnorm : double → double → double → bool → double.

Local Abbreviation age_terms := (age_terms s dbinom).
Local Abbreviation age_step := (age_step s dbinom).
Local Abbreviation get_curves := (get_curves s cubic_spline).
Local Abbreviation get_loglike := (get_loglike s cubic_spline dbinom).
Local Abbreviation get_logprior := (get_logprior s dnorm).

(** The test that closes every round of the loop over ages. *)
Lemma age_step_finite c i ret ret' :
  age_step c i ret = Ok ret' →
  age_terms c i ret = Ok ret' ∧ isfinite ret' = true.
Proof.
  unfold Model.age_step. intros H.
  apply bind_Ok_inv in H as (x & Hx & H).
  destruct (isfinite x) eqn:E; simpl in H; [|done].
  by inversion H; subst.
Qed.

Lemma age_step_abort c i ret bad :
  age_terms c i ret = Ok bad → isfinite bad = false →
  age_step c i ret = Stop "ret non finite".
Proof. intros H E. unfold Model.age_step. rewrite H. simpl. by rewrite E. Qed.

(** The running sum is finite whenever the loop over ages returns. *)
Lemma age_loop_finite c n ret ret' :
  isfinite ret = true →
  for_loop n (age_step c) ret = Ok ret' → isfinite ret' = true.
Proof.
  intros H0 Hrun.
  apply (for_from_invariant (fun _ x => isfinite x = true) 0 n
           (age_step c) ret ret' H0); [|exact Hrun].
  intros j x y _ _ Hy. by apply age_step_finite in Hy as [_ ?].
Qed.

(** The sentinel [-DBL_MAX/100.0]. *)
Lemma sentinel_value :
  ∃ r, (- DBL_MAX / Fin 100)%D = Fin r ∧ r < 0.
Proof.
  unfold DBL_MAX. exists (- IZR ((2 ^ 53 - 1) * 2 ^ 971) / 100).
  split.
  - simpl Double.neg. apply div_Fin. lra.
  - assert (0 < IZR ((2 ^ 53 - 1) * 2 ^ 971)); [|lra].
    apply IZR_lt. by apply Z.ltb_lt.
Qed.

Lemma catch_underflow_finite ret : isfinite (catch_underflow ret) = true.
Proof.
  unfold catch_underflow. destruct (isfinite ret) eqn:E; cbn [negb].
  - exact E.
  - destruct sentinel_value as (r & -> & _). done.
Qed.

(** C7.  In [get_loglike] the running sum is tested after the terms of
    each age: a sum that is not finite aborts the run with
    ["ret non finite"], at whichever age it appears; the final statement
    replaces a total that is not finite by the negative finite sentinel
    [-DBL_MAX/100]; and a value returned by [get_loglike] is finite. *)
Theorem get_loglike_finite :
  (∀ c i ret bad,
     age_terms c i ret = Ok bad → isfinite bad = false →
     age_step c i ret = Stop "ret non finite")
  ∧ (∀ theta theta_i c k ret bad,
       get_curves theta = Ok c → (k < n_age s)%nat →
       for_loop k (age_step c) (Fin 0) = Ok ret →
       age_terms c k ret = Ok bad → isfinite bad = false →
       get_loglike theta theta_i = Stop "ret non finite")
  ∧ (∀ ret, isfinite ret = false →
       catch_underflow ret = (- DBL_MAX / Fin 100)%D
       ∧ ∃ r, catch_underflow ret = Fin r ∧ r < 0)
  ∧ (∀ ret, isfinite ret = true → catch_underflow ret = ret)
  ∧ (∀ theta theta_i v,
       get_loglike theta theta_i = Ok v → isfinite v = true).
Proof.
  split; [exact age_step_abort|].
  split; [|split; [|split]].
  - intros theta theta_i c k ret bad Hc Hk Hrun Hbad Hinf.
    unfold Model.get_loglike. rewrite Hc. simpl.
    replace (n_age s) with (k + S (n_age s - S k))%nat by lia.
    unfold for_loop in *. rewrite for_from_add, Hrun. simpl.
    by rewrite (age_step_abort _ _ _ _ Hbad Hinf).
  - intros ret E. unfold catch_underflow. rewrite E. cbn [negb].
    split; [done|]. exact sentinel_value.
  - intros ret E. unfold catch_underflow. by rewrite E.
  - intros theta theta_i v H. unfold Model.get_loglike in H.
    apply bind_Ok_inv in H as (c & _ & H).
    apply bind_Ok_inv in H as (ret & _ & H).
    inversion H; subst. apply catch_underflow_finite.
Qed.

(** C10.  [get_loglike(theta, theta_i)] and [get_logprior(theta, theta_i)]
    are functions of the vector [theta] and of the shared system alone:
    for every [theta] and every two indices, the results agree. *)
Theorem loglike_logprior_ignore_index (theta : list double) (i j : nat) :
  get_loglike theta i = get_loglike theta j
  ∧ get_logprior theta i = get_logprior theta j.
Proof. split; reflexivity. Qed.

End Likelihood.

(** [get_loglike_finite] on a system with one age whose binomial terms are
    NaN: the run aborts at age 0. *)
Lemma get_loglike_finite_witness :
  get_loglike (Examples.sys_one_age 6) Examples.spline_const
    (Examples.density_const NaN) (replicate 6 (Fin 0)) 0
  = Stop "ret non finite".
Proof.
  eapply (proj1 (proj2 (get_loglike_finite (Examples.sys_one_age 6)
            Examples.spline_const (Examples.density_const NaN)))
            (replicate 6 (Fin 0)) 0%nat _ 0%nat (Fin 0) NaN).
  - reflexivity.
  - unfold n_age. simpl. lia.
  - reflexivity.
  - reflexivity.
  - reflexivity.
Defined.

(* ===================================================================== *)
(** * Reparameterisation *)
(* ===================================================================== *)

Section Transform.

Local Open Scope R_scope.

Variable s : System.


(** One round of [theta_to_phi] writes [phi[i]] and nothing else. *)
Lemma theta_to_phi_body_frame i p p' :
  theta_to_phi_body s i p = Ok p' →
  ∃ v, (i < length (phi p))%nat ∧ p' = set_phi (<[i := v]> (phi p)) p.
Proof.
  unfold theta_to_phi_body. intros H.
  apply bind_Ok_inv in H as (k & _ & H).
  destruct k as [|[[|[]|]|[]|]|]; try done;
    repeat (apply bind_Ok_inv in H as (? & ? & H));
    match goal with
    | Hs : vset _ _ _ = Ok _ |- _ => apply vset_Ok_inv in Hs as [? ->]
    end; inversion H; eauto.
Qed.

Lemma theta_to_phi_body_value i p k mn mx th :
  trans_type s !! i = Some k →
  theta_min s !! i = Some mn → theta_max s !! i = Some mx →
  theta p !! i = Some th →
  (0 ≤ k ≤ 3)%Z →
  (i < length (phi p))%nat →
  theta_to_phi_body s i p
  = Ok (set_phi (<[i := theta_to_phi_value k mn mx th]> (phi p)) p).
Proof.
  intros Hk Hmn Hmx Hth Hr Hlen. unfold theta_to_phi_body.
  rewrite (vget_Some _ _ _ Hk). simpl.
  assert (k = 0 ∨ k = 1 ∨ k = 2 ∨ k = 3)%Z as [->|[->|[->| ->]]] by lia;
    rewrite ?(vget_Some _ _ _ Hmn), ?(vget_Some _ _ _ Hmx),
            ?(vget_Some _ _ _ Hth); simpl;
    rewrite vset_Ok by done; done.
Qed.

(** After [theta_to_phi], [phi[i]] holds the transform of [theta[i]], and
    the natural-space vectors are as before. *)
Lemma theta_to_phi_at i p p' k mn mx th :
  (i < d s)%nat →
  trans_type s !! i = Some k →
  theta_min s !! i = Some mn → theta_max s !! i = Some mx →
  theta p !! i = Some th →
  (0 ≤ k ≤ 3)%Z →
  theta_to_phi s p = Ok p' →
  phi p' !! i = Some (theta_to_phi_value k mn mx th)
  ∧ theta p' = theta p ∧ theta_prop p' = theta_prop p.
Proof.
  intros Hi Hk Hmn Hmx Hth Hr Hrun. unfold theta_to_phi, for_loop in Hrun.
  pose (P := fun (j : nat) (q : Particle) =>
    theta q = theta p ∧ theta_prop q = theta_prop p
    ∧ ((i < j)%nat → phi q !! i = Some (theta_to_phi_value k mn mx th))).
  assert (HP : P (0 + d s)%nat p').
  { apply (for_from_invariant P 0 (d s) (theta_to_phi_body s) p p');
      [split; [done|split; [done|lia]]| |done].
    intros j q q' Hj (Hq1 & Hq2 & Hq3) Hbody.
    destruct (theta_to_phi_body_frame _ _ _ Hbody) as (v & Hlen & Hq').
    destruct (decide (j = i)) as [->|Hne].
    - rewrite <- Hq1 in Hth.
      rewrite (theta_to_phi_body_value _ _ _ _ _ _ Hk Hmn Hmx Hth Hr Hlen)
        in Hbody.
      inversion Hbody; subst q'.
      split; [done|split; [done|]]. intros _. simpl.
      by apply list_lookup_insert_eq.
    - subst q'. split; [done|split; [done|]]. intros Hlt. simpl.
      rewrite list_lookup_insert_ne by done. apply Hq3. lia. }
  destruct HP as (H1 & H2 & H3). split; [apply H3; lia|done].
Qed.

(** [theta_to_phi] returns on well-formed vectors. *)
Lemma theta_to_phi_total p :
  transforms_well_formed s p → ∃ p', theta_to_phi s p = Ok p'.
Proof.
  intros (Hlk & Hkinds & Hlmn & Hlmx & Hlth & Hlph & _).
  destruct (for_from_total
              (fun q => theta q = theta p ∧ length (phi q) = length (phi p))
              0 (d s) (theta_to_phi_body s) p) as (p' & Hrun & _);
    [done| |by exists p'].
  intros j q Hj [Hq1 Hq2].
  destruct (lookup_lt_is_Some_2 (trans_type s) j) as [k Hk]; [lia|].
  destruct (lookup_lt_is_Some_2 (theta_min s) j) as [mn Hmn]; [lia|].
  destruct (lookup_lt_is_Some_2 (theta_max s) j) as [mx Hmx]; [lia|].
  destruct (lookup_lt_is_Some_2 (theta q) j) as [th Hth];
    [rewrite Hq1; lia|].
  pose proof (proj1 (Forall_lookup _ _) Hkinds _ _ Hk) as Hr. simpl in Hr.
  rewrite (theta_to_phi_body_value _ _ _ _ _ _ Hk Hmn Hmx Hth Hr)
    by (rewrite Hq2; lia).
  eexists. split; [done|]. simpl. split; [done|].
  by rewrite length_insert.
Qed.

Lemma phi_prop_to_theta_prop_value i p k mn mx ph :
  trans_type s !! i = Some k →
  theta_min s !! i = Some mn → theta_max s !! i = Some mx →
  phi_prop p !! i = Some ph →
  (0 ≤ k ≤ 3)%Z →
  (i < length (theta_prop p))%nat →
  phi_prop_to_theta_prop s i p
  = Ok (set_theta_prop (<[i := phi_to_theta_value k mn mx ph]> (theta_prop p)) p).
Proof.
  intros Hk Hmn Hmx Hph Hr Hlen. unfold phi_prop_to_theta_prop.
  rewrite (vget_Some _ _ _ Hk). simpl.
  assert (k = 0 ∨ k = 1 ∨ k = 2 ∨ k = 3)%Z as [->|[->|[->| ->]]] by lia;
    rewrite ?(vget_Some _ _ _ Hmn), ?(vget_Some _ _ _ Hmx),
            ?(vget_Some _ _ _ Hph); simpl;
    rewrite vset_Ok by done; done.
Qed.



End Transform.


(* ===================================================================== *)
(** * Adjustment factor *)
(* ===================================================================== *)

Section Adjustment.

Local Open Scope R_scope.

(** The Jacobian of the [phi -> theta] map of each kind. *)
Lemma phi_to_theta_derivative k mn mx ph :
  (0 ≤ k ≤ 3)%Z → mn < mx →
  derivable_pt_lim (phi_to_theta k mn mx) ph
    (dtheta_dphi k mn mx (phi_to_theta k mn mx ph)).
Proof.
  intros Hk Hlt.
  assert (k = 0 ∨ k = 1 ∨ k = 2 ∨ k = 3)%Z as [->|[->|[->| ->]]] by lia;
    unfold phi_to_theta, dtheta_dphi.
  - apply derivable_pt_lim_id.
  - apply derivable_pt_lim_ext with (f := (fct_cte mx - Rtrigo_def.exp)%F);
      [reflexivity|].
    replace (- (mx - (mx - Rtrigo_def.exp ph)))
      with (0 - Rtrigo_def.exp ph) by lra.
    apply derivable_pt_lim_minus;
      [apply derivable_pt_lim_const|apply derivable_pt_lim_exp].
  - apply derivable_pt_lim_ext with (f := (Rtrigo_def.exp + fct_cte mn)%F);
      [reflexivity|].
    replace (Rtrigo_def.exp ph + mn - mn) with (Rtrigo_def.exp ph + 0) by lra.
    apply derivable_pt_lim_plus;
      [apply derivable_pt_lim_exp|apply derivable_pt_lim_const].
  - pose proof (exp_pos ph) as He.
    apply derivable_pt_lim_ext
      with (f := ((fct_cte mx * Rtrigo_def.exp + fct_cte mn)
                  / (fct_cte 1 + Rtrigo_def.exp))%F); [reflexivity|].
    match goal with |- derivable_pt_lim ?f _ ?l =>
      replace l with
        ((((0 * Rtrigo_def.exp ph + fct_cte mx ph * Rtrigo_def.exp ph) + 0)
          * (fct_cte 1 + Rtrigo_def.exp)%F ph
          - (0 + Rtrigo_def.exp ph)
            * (fct_cte mx * Rtrigo_def.exp + fct_cte mn)%F ph)
         / Rsqr ((fct_cte 1 + Rtrigo_def.exp)%F ph))
    end.
    + apply derivable_pt_lim_div.
      * apply derivable_pt_lim_plus; [|apply derivable_pt_lim_const].
        apply derivable_pt_lim_mult;
          [apply derivable_pt_lim_const|apply derivable_pt_lim_exp].
      * apply derivable_pt_lim_plus;
          [apply derivable_pt_lim_const|apply derivable_pt_lim_exp].
      * unfold plus_fct, fct_cte. lra.
    + unfold plus_fct, mult_fct, fct_cte, Rsqr. field. lra.
Qed.

(** The formulas of the specification are the log-ratio of the absolute
    Jacobian at the proposed against the current point. *)
Lemma log_jacobian_ratio_analytic k mn mx th tp :
  (0 ≤ k ≤ 3)%Z → mn < th < mx → mn < tp < mx →
  log_jacobian_ratio k mn mx th tp
  = ln (Rabs (dtheta_dphi k mn mx tp)) - ln (Rabs (dtheta_dphi k mn mx th)).
Proof.
  intros Hk Hth Htp.
  assert (k = 0 ∨ k = 1 ∨ k = 2 ∨ k = 3)%Z as [->|[->|[->| ->]]] by lia;
    unfold log_jacobian_ratio, dtheta_dphi.
  - rewrite Rabs_R1, ln_1. lra.
  - rewrite !Rabs_Ropp, !Rabs_pos_eq by lra. done.
  - rewrite !Rabs_pos_eq by lra. done.
  - assert (P : ∀ t, mn < t < mx → 0 < (mx - t) * (t - mn) / (mx - mn)).
    { intros t Ht. apply Rdiv_lt_0_compat; [|lra].
      apply Rmult_lt_0_compat; lra. }
    rewrite !Rabs_pos_eq by (left; auto).
    unfold Rdiv. rewrite !ln_mult, !ln_Rinv; try lra.
    all: try (apply Rinv_0_lt_compat; lra).
    all: apply Rmult_lt_0_compat; lra.
Qed.

Variable s : System.

(** For the kinds 0, 2 and 3 [get_adjustment] returns the analytic
    log-Jacobian ratio. *)
Lemma get_adjustment_analytic i p k mn mx th tp :
  trans_type s !! i = Some k →
  theta_min s !! i = Some mn → theta_max s !! i = Some mx →
  theta p !! i = Some (Fin th) → theta_prop p !! i = Some (Fin tp) →
  k ≠ 1%Z →
  strictly_inside k mn mx th → strictly_inside k mn mx tp →
  get_adjustment s i p
  = Ok (Fin (log_jacobian_ratio k (bound mn) (bound mx) th tp)).
Proof.
  intros Hk Hmn Hmx Hth Htp Hk1 Hin1 Hin2. unfold get_adjustment.
  rewrite (vget_Some _ _ _ Hk). simpl.
  destruct k as [|[[|[]|]|[]|]|]; simpl in Hin1, Hin2; try done;
    rewrite ?(vget_Some _ _ _ Hmn), ?(vget_Some _ _ _ Hmx),
            ?(vget_Some _ _ _ Hth), ?(vget_Some _ _ _ Htp);
    cbn [mbind result_bind].
  - destruct Hin1 as (a & b & -> & -> & Ha & Hb).
    destruct Hin2 as (a' & b' & [= <-] & [= <-] & Ha' & Hb').
    rewrite !sub_Fin, !log_Fin_pos by lra. done.
  - destruct Hin1 as (a & -> & Ha). destruct Hin2 as (a' & [= <-] & Ha').
    rewrite !sub_Fin, !log_Fin_pos by lra. done.
Qed.

(** For kind 1 the source takes the logarithm of [theta - theta_max],
    which is negative inside the bound: the result is NaN. *)
Lemma get_adjustment_kind1 i p b th tp :
  trans_type s !! i = Some 1%Z →
  theta_max s !! i = Some (Fin b) →
  theta p !! i = Some (Fin th) → theta_prop p !! i = Some (Fin tp) →
  th < b → tp < b →
  get_adjustment s i p = Ok NaN.
Proof.
  intros Hk Hmx Hth Htp H1 H2. unfold get_adjustment.
  rewrite (vget_Some _ _ _ Hk). simpl.
  rewrite (vget_Some _ _ _ Hmx), (vget_Some _ _ _ Hth),
          (vget_Some _ _ _ Htp).
  cbn [mbind result_bind].
  rewrite !sub_Fin, !log_Fin_neg by lra. done.
Qed.

End Adjustment.

(** C1, at a parameter of kind 1 with upper bound 1, current value 0 and
    proposed value 1/2, both strictly inside the bound: [get_adjustment]
    returns NaN, while the analytic log-Jacobian ratio is
    [log(1 - 1/2) - log(1 - 0) = log(1/2)]. *)
Theorem get_adjustment_kind1_diverges :
  let s := Examples.sys 1 1 (Fin 0) (Fin 1) [] in
  let p := Examples.chain 1 (Fin 0) (Fin (1/2)) (Fin 1) in
  strictly_inside 1 (Fin 0) (Fin 1) 0
  ∧ strictly_inside 1 (Fin 0) (Fin 1) (1/2)
  ∧ theta p !! 0%nat = Some (Fin 0)
  ∧ theta_prop p !! 0%nat = Some (Fin (1/2))
  ∧ get_adjustment s 0 p = Ok NaN
  ∧ log_jacobian_ratio 1 0 1 0 (1/2) = ln (1/2)
  ∧ get_adjustment s 0 p ≠ Ok (Fin (log_jacobian_ratio 1 0 1 0 (1/2))).
Proof.
  intros s p.
  assert (H : get_adjustment s 0 p = Ok NaN).
  { apply (get_adjustment_kind1 s 0 p 1 0 (1/2)); (reflexivity || lra). }
  split; [exists 1%R; split; [done|lra]|].
  split; [exists 1%R; split; [done|lra]|].
  split; [done|]. split; [done|]. split; [exact H|].
  split.
  - unfold log_jacobian_ratio.
    replace (1 - 0)%R with 1%R by lra. rewrite ln_1.
    replace (1 - 1/2)%R with (1/2)%R by lra. lra.
  - rewrite H. discriminate.
Qed.

(* ===================================================================== *)
(** * Metropolis sweep *)
(* ===================================================================== *)

Section Sweep.

Variable s : System.
Variable cubic_spline : list double → list double → list double → list double.
Variable dbinom : double → double → double → bool → double.
Variable dnorm : double → double → double → bool → double.
Variable rng : Type.
Variable rnorm1 : double → double → rng → double * rng.
Variable runif_0_1 : rng → double * rng.

#[local] Arguments Double.add : simpl never.
#[local] Arguments Double.sub : simpl never.
#[local] Arguments Double.mul : simpl never.
#[local] Arguments Double.div : simpl never.
#[local] Arguments Double.exp : simpl never.
#[local] Arguments Double.log : simpl never.
#[local] Arguments Double.sqrt : simpl never.
#[local] Arguments Double.lt : simpl never.

Local Abbreviation get_loglike := (get_loglike s cubic_spline dbinom).
Local Abbreviation get_logprior := (get_logprior s dnorm).
Local Abbreviation propose := (propose s cubic_spline dbinom dnorm rng rnorm1).
Local Abbreviation update_param :=
  (update_param s cubic_spline dbinom dnorm rng rnorm1 runif_0_1).

(** [phi_prop_to_theta_prop(i)] writes [theta_prop[i]] and nothing else. *)
Lemma phi_prop_to_theta_prop_frame i p p' :
  phi_prop_to_theta_prop s i p = Ok p' →
  ∃ v, (i < length (theta_prop p))%nat
       ∧ p' = set_theta_prop (<[i := v]> (theta_prop p)) p.
Proof.
  unfold phi_prop_to_theta_prop. intros H.
  apply bind_Ok_inv in H as (k & _ & H).
  destruct k as [|[[|[]|]|[]|]|]; try done;
    repeat (apply bind_Ok_inv in H as (? & ? & H));
    match goal with
    | Hs : vset _ _ _ = Ok _ |- _ => apply vset_Ok_inv in Hs as [? ->]
    end; inversion H; eauto.
Qed.

(** What the proposal stage leaves behind: a draw in [phi_prop[i]], its
    transform in [theta_prop[i]], the likelihood and the prior of the
    proposed vector in [loglike_prop] and [logprior_prop], and the current
    state of the chain untouched. *)
Lemma propose_frame i p g p1 adj g1 :
  propose i (p, g) = Ok (p1, adj, g1) →
  ∃ ph b pp tp,
    phi p !! i = Some ph ∧ bw p !! i = Some b
    ∧ rnorm1 ph b g = (pp, g1)
    ∧ (i < length (phi_prop p))%nat ∧ (i < length (theta_prop p))%nat
    ∧ p1 = set_logprior_prop (logprior_prop p1)
             (set_loglike_prop (loglike_prop p1)
                (set_theta_prop (<[i := tp]> (theta_prop p))
                   (set_phi_prop (<[i := pp]> (phi_prop p)) p)))
    ∧ get_adjustment s i p1 = Ok adj
    ∧ get_loglike (theta_prop p1) i = Ok (loglike_prop p1)
    ∧ get_logprior (theta_prop p1) i = Ok (logprior_prop p1).
Proof.
  unfold Model.propose. intros H.
  apply bind_Ok_inv in H as (ph & Hph & H).
  apply bind_Ok_inv in H as (b & Hb & H).
  destruct (rnorm1 ph b g) as [pp g'] eqn:Hdraw.
  apply bind_Ok_inv in H as (ppv & Hset & H).
  apply vset_Ok_inv in Hset as [Hlen ->].
  apply bind_Ok_inv in H as (q & Hq & H).
  apply phi_prop_to_theta_prop_frame in Hq as (tp & Hlen' & ->).
  apply bind_Ok_inv in H as (adj' & Hadj & H).
  apply bind_Ok_inv in H as (ll & Hll & H).
  apply bind_Ok_inv in H as (lp & Hlp & H).
  inversion H; subst; clear H.
  exists ph, b, pp, tp.
  apply vget_Ok_inv in Hph, Hb. simpl in *.
  repeat split; done.
Qed.

(** The two branches, in closed form. *)
Lemma accept_move_closed i p tp pp th ph b n :
  theta_prop p !! i = Some tp → phi_prop p !! i = Some pp →
  theta p !! i = Some th → phi p !! i = Some ph →
  bw p !! i = Some b → bw_index p !! i = Some n →
  accept_move i p
  = Ok {| theta := <[i := tp]> (theta p);
          theta_prop := theta_prop p;
          phi := <[i := pp]> (phi p);
          phi_prop := phi_prop p;
          bw := <[i := exp (log b + bw_stepsize p * (Fin 1 - Fin 0.234)
                                    / sqrt (of_int n))%D]> (bw p);
          bw_index := <[i := (n + 1)%Z]> (bw_index p);
          bw_stepsize := bw_stepsize p;
          loglike := loglike_prop p;
          loglike_prop := loglike_prop p;
          logprior := logprior_prop p;
          logprior_prop := logprior_prop p;
          accept_count := (accept_count p + 1)%Z;
          beta_raised := beta_raised p |}.
Proof.
  intros Htp Hpp Hth Hph Hb Hn. unfold accept_move.
  pose proof (lookup_lt_Some _ _ _ Hth). pose proof (lookup_lt_Some _ _ _ Hph).
  pose proof (lookup_lt_Some _ _ _ Hb). pose proof (lookup_lt_Some _ _ _ Hn).
  rewrite (vget_Some _ _ _ Htp). simpl.
  rewrite vset_Ok by done. simpl.
  rewrite (vget_Some _ _ _ Hpp). simpl.
  rewrite vset_Ok by done. simpl.
  rewrite (vget_Some _ _ _ Hb), (vget_Some _ _ _ Hn). simpl.
  rewrite vset_Ok by done. simpl.
  rewrite vset_Ok by done. done.
Qed.

Lemma reject_move_closed i p tp pp th ph b n :
  theta_prop p !! i = Some tp → phi_prop p !! i = Some pp →
  theta p !! i = Some th → phi p !! i = Some ph →
  bw p !! i = Some b → bw_index p !! i = Some n →
  reject_move i p
  = Ok {| theta := theta p;
          theta_prop := <[i := th]> (theta_prop p);
          phi := phi p;
          phi_prop := <[i := ph]> (phi_prop p);
          bw := <[i := exp (log b - bw_stepsize p * Fin 0.234
                                    / sqrt (of_int n))%D]> (bw p);
          bw_index := <[i := (n + 1)%Z]> (bw_index p);
          bw_stepsize := bw_stepsize p;
          loglike := loglike p;
          loglike_prop := loglike_prop p;
          logprior := logprior p;
          logprior_prop := logprior_prop p;
          accept_count := accept_count p;
          beta_raised := beta_raised p |}.
Proof.
  intros Htp Hpp Hth Hph Hb Hn. unfold reject_move.
  pose proof (lookup_lt_Some _ _ _ Htp). pose proof (lookup_lt_Some _ _ _ Hpp).
  pose proof (lookup_lt_Some _ _ _ Hb). pose proof (lookup_lt_Some _ _ _ Hn).
  rewrite (vget_Some _ _ _ Hth). simpl.
  rewrite vset_Ok by done. simpl.
  rewrite (vget_Some _ _ _ Hph). simpl.
  rewrite vset_Ok by done. simpl.
  rewrite (vget_Some _ _ _ Hb), (vget_Some _ _ _ Hn). simpl.
  rewrite vset_Ok by done. simpl.
  rewrite vset_Ok by done. done.
Qed.

(** A sweep copies the current vectors into the proposal buffers and runs
    the loop body on the parameters 0 to [d - 1] in increasing order. *)
Lemma update_sweep beta p g :
  update s cubic_spline dbinom dnorm rng rnorm1 runif_0_1 beta (p, g)
  = foldl (fun r i => r ≫= update_param beta i)
      (Ok (set_phi_prop (phi p) (set_theta_prop (theta p) p), g))
      (seq 0 (d s)).
Proof. unfold update, for_loop. apply for_from_seq. Qed.

(** The loop body on a parameter that is not skipped, once the proposal
    stage has returned. *)
Lemma update_param_unfold beta i p g p1 adj g1 :
  skip_param s !! i = Some false →
  propose i (p, g) = Ok (p1, adj, g1) →
  update_param beta i (p, g)
  = if ((log (runif_0_1 g1).1) <? MH_ratio beta p1 adj)%D
    then p' ← accept_move i p1; Ok (p', (runif_0_1 g1).2)
    else p' ← reject_move i p1; Ok (p', (runif_0_1 g1).2).
Proof.
  intros Hskip Hprop. unfold Model.update_param.
  rewrite (vget_Some _ _ _ Hskip). cbn [mbind result_bind].
  rewrite Hprop. cbn [mbind result_bind].
  by destruct (runif_0_1 g1).
Qed.

(** The reads of the two branches succeed after a proposal. *)
Lemma propose_reads i p g p1 adj g1 th n :
  propose i (p, g) = Ok (p1, adj, g1) →
  theta p !! i = Some th → bw_index p !! i = Some n →
  ∃ tp pp ph b,
    theta_prop p1 !! i = Some tp ∧ phi_prop p1 !! i = Some pp
    ∧ theta p1 !! i = Some th ∧ phi p1 !! i = Some ph
    ∧ bw p1 !! i = Some b ∧ bw_index p1 !! i = Some n
    ∧ theta p1 = theta p ∧ phi p1 = phi p ∧ bw p1 = bw p
    ∧ bw_index p1 = bw_index p ∧ bw_stepsize p1 = bw_stepsize p
    ∧ loglike p1 = loglike p ∧ logprior p1 = logprior p
    ∧ accept_count p1 = accept_count p.
Proof.
  intros Hprop Hth Hn.
  destruct (propose_frame _ _ _ _ _ _ Hprop)
    as (ph & b & pp & tp & Hph & Hb & _ & Hl1 & Hl2 & Hp1 & _).
  exists tp, pp, ph, b. rewrite Hp1. simpl.
  rewrite !list_lookup_insert_eq by done. repeat split; done.
Qed.

(** C2.  In a single-parameter step of [Particle::update] on a parameter
    that is not skipped: the Metropolis-Hastings log-ratio is
    [beta*(loglike_prop - loglike) + (logprior_prop - logprior) + adj] with
    [beta] the inverse-temperature power handed to [update], the
    likelihood and prior of the proposed vector and the adjustment factor
    of the proposal; the proposal is accepted exactly when [log(u)] is
    below the ratio for the uniform draw [u]; and on acceptance [theta[i]]
    and [phi[i]] take the proposed values, [loglike] and [logprior] take
    the proposed ones and [accept_count] grows by one, while on rejection
    all five are as before. *)
Theorem update_param_metropolis beta i p g p1 adj g1 th n :
  skip_param s !! i = Some false →
  propose i (p, g) = Ok (p1, adj, g1) →
  theta p !! i = Some th → bw_index p !! i = Some n →
  let MH := (beta * (loglike_prop p1 - loglike p)
             + (logprior_prop p1 - logprior p) + adj)%D in
  let u := (runif_0_1 g1).1 in
  ∃ p' tp pp,
    update_param beta i (p, g) = Ok (p', (runif_0_1 g1).2)
    ∧ theta_prop p1 !! i = Some tp ∧ phi_prop p1 !! i = Some pp
    ∧ get_loglike (theta_prop p1) i = Ok (loglike_prop p1)
    ∧ get_logprior (theta_prop p1) i = Ok (logprior_prop p1)
    ∧ get_adjustment s i p1 = Ok adj
    ∧ ((log u <? MH)%D = true →
       theta p' = <[i := tp]> (theta p) ∧ phi p' = <[i := pp]> (phi p)
       ∧ loglike p' = loglike_prop p1 ∧ logprior p' = logprior_prop p1
       ∧ accept_count p' = (accept_count p + 1)%Z)
    ∧ ((log u <? MH)%D = false →
       theta p' = theta p ∧ phi p' = phi p
       ∧ loglike p' = loglike p ∧ logprior p' = logprior p
       ∧ accept_count p' = accept_count p)
    ∧ (accept_count p' = (accept_count p + 1)%Z ↔ (log u <? MH)%D = true).
Proof.
  intros Hskip Hprop Hth Hn MH u.
  destruct (propose_reads _ _ _ _ _ _ _ _ Hprop Hth Hn)
    as (tp & pp & ph & b & Htp & Hpp & Hth1 & Hph1 & Hb1 & Hn1
        & E1 & E2 & E3 & E4 & E5 & E6 & E7 & E8).
  destruct (propose_frame _ _ _ _ _ _ Hprop)
    as (_ & _ & _ & _ & _ & _ & _ & _ & _ & _ & Hadj & Hll & Hlp).
  assert (HMH : MH_ratio beta p1 adj = MH)
    by (unfold MH_ratio, MH; by rewrite E6, E7).
  rewrite (update_param_unfold _ _ _ _ _ _ _ Hskip Hprop), HMH. fold u.
  rewrite (accept_move_closed _ _ _ _ _ _ _ _ Htp Hpp Hth1 Hph1 Hb1 Hn1).
  rewrite (reject_move_closed _ _ _ _ _ _ _ _ Htp Hpp Hth1 Hph1 Hb1 Hn1).
  destruct (log u <? MH)%D eqn:Hacc; simpl;
    eexists _, tp, pp; (split; [reflexivity|]); simpl;
    rewrite ?E1, ?E2, ?E6, ?E7, ?E8; repeat split; try done; lia.
Qed.

(** C4.  In the same step, for a parameter that is not skipped: on
    acceptance [bw[i]] becomes
    [exp(log(bw[i]) + bw_stepsize*(1 - 0.234)/sqrt(bw_index[i]))], on
    rejection [exp(log(bw[i]) - bw_stepsize*0.234/sqrt(bw_index[i]))], and
    in both branches [bw_index[i]] grows by one; the other entries of the
    two vectors and [bw_stepsize] are as before. *)
Theorem update_param_bandwidth beta i p g p1 adj g1 th b n :
  skip_param s !! i = Some false →
  propose i (p, g) = Ok (p1, adj, g1) →
  theta p !! i = Some th →
  bw p !! i = Some b → bw_index p !! i = Some n →
  let MH := (beta * (loglike_prop p1 - loglike p)
             + (logprior_prop p1 - logprior p) + adj)%D in
  let u := (runif_0_1 g1).1 in
  ∃ p',
    update_param beta i (p, g) = Ok (p', (runif_0_1 g1).2)
    ∧ bw_index p' = <[i := (n + 1)%Z]> (bw_index p)
    ∧ bw_stepsize p' = bw_stepsize p
    ∧ ((log u <? MH)%D = true →
       bw p' = <[i := exp (log b + bw_stepsize p * (Fin 1 - Fin 0.234)
                                   / sqrt (of_int n))%D]> (bw p))
    ∧ ((log u <? MH)%D = false →
       bw p' = <[i := exp (log b - bw_stepsize p * Fin 0.234
                                   / sqrt (of_int n))%D]> (bw p)).
Proof.
  intros Hskip Hprop Hth Hb Hn MH u.
  destruct (propose_reads _ _ _ _ _ _ _ _ Hprop Hth Hn)
    as (tp & pp & ph & b' & Htp & Hpp & Hth1 & Hph1 & Hb1 & Hn1
        & E1 & E2 & E3 & E4 & E5 & E6 & E7 & E8).
  assert (b' = b) as -> by (rewrite E3 in Hb1; congruence).
  assert (HMH : MH_ratio beta p1 adj = MH)
    by (unfold MH_ratio, MH; by rewrite E6, E7).
  rewrite (update_param_unfold _ _ _ _ _ _ _ Hskip Hprop), HMH. fold u.
  rewrite (accept_move_closed _ _ _ _ _ _ _ _ Htp Hpp Hth1 Hph1 Hb1 Hn1).
  rewrite (reject_move_closed _ _ _ _ _ _ _ _ Htp Hpp Hth1 Hph1 Hb1 Hn1).
  destruct (log u <? MH)%D eqn:Hacc; simpl;
    eexists; (split; [reflexivity|]); simpl;
    rewrite ?E3, ?E4, ?E5; repeat split; done.
Qed.

End Sweep.

(** [update_param_metropolis] on the first of six parameters of kind 0 of a
    system without ages, with a proposal at the mean and the uniform draw
    [1]: [log(1) < 0] is false and the proposal is rejected. *)
Lemma update_param_metropolis_witness :
  ∃ p',
    update_param (Examples.sys 6 0 (Fin 0) (Fin 1) [])
      Examples.spline_const (Examples.density_const (Fin 0))
      (Examples.density_const (Fin 0)) unit Examples.rnorm1_mean
      (Examples.runif_const (Fin 1)) (Fin 1) 0
      (Examples.chain 6 (Fin 0) (Fin 0) (Fin 1), tt)
    = Ok (p', tt)
    ∧ accept_count p' ≠ 1%Z.
Proof.
  edestruct (update_param_metropolis (Examples.sys 6 0 (Fin 0) (Fin 1) [])
      Examples.spline_const (Examples.density_const (Fin 0))
      (Examples.density_const (Fin 0)) unit Examples.rnorm1_mean
      (Examples.runif_const (Fin 1)) (Fin 1) 0
      (Examples.chain 6 (Fin 0) (Fin 0) (Fin 1)) tt)
    as (p' & tp & pp & Hrun & _ & _ & _ & _ & _ & _ & _ & Hiff).
  - reflexivity.
  - reflexivity.
  - reflexivity.
  - reflexivity.
  - exists p'. split; [exact Hrun|].
    intros Hacc. apply Hiff in Hacc. revert Hacc. simpl.
    rewrite sgn_pos by lra. rewrite ln_1. simpl.
    destruct (Rlt_dec _ _) as [Hlt|_]; [lra|done].
Defined.

(** [update_param_bandwidth] on the same step. *)
Lemma update_param_bandwidth_witness :
  ∃ p',
    update_param (Examples.sys 6 0 (Fin 0) (Fin 1) [])
      Examples.spline_const (Examples.density_const (Fin 0))
      (Examples.density_const (Fin 0)) unit Examples.rnorm1_mean
      (Examples.runif_const (Fin 1)) (Fin 1) 0
      (Examples.chain 6 (Fin 0) (Fin 0) (Fin 1), tt)
    = Ok (p', tt)
    ∧ bw_index p' = [2; 1; 1; 1; 1; 1]%Z.
Proof.
  edestruct (update_param_bandwidth (Examples.sys 6 0 (Fin 0) (Fin 1) [])
      Examples.spline_const (Examples.density_const (Fin 0))
      (Examples.density_const (Fin 0)) unit Examples.rnorm1_mean
      (Examples.runif_const (Fin 1)) (Fin 1) 0
      (Examples.chain 6 (Fin 0) (Fin 0) (Fin 1)) tt)
    as (p' & Hrun & Hidx & _).
  - reflexivity.
  - reflexivity.
  - reflexivity.
  - reflexivity.
  - reflexivity.
  - exists p'. split; [exact Hrun|exact Hidx].
Defined.

(* ===================================================================== *)
(** * Coupling of rungs *)
(* ===================================================================== *)

Section TwoCells.

Context {A : Type}.
Variable v : list A.
Variables i j : nat.
Hypothesis Hij : i ≠ j.
Hypothesis Hi : (i < length v)%nat.
Hypothesis Hj : (j < length v)%nat.

(** The vector [v] with the cells [i] and [j] overwritten. *)
Local Abbreviation two a b := (<[j := b]> (<[i := a]> v)).

Lemma two_get1 a b : vget (two a b) i = Ok a.
Proof.
  apply vget_Some.
  rewrite list_lookup_insert_ne by done. by apply list_lookup_insert_eq.
Qed.

Lemma two_get2 a b : vget (two a b) j = Ok b.
Proof.
  apply vget_Some.
  apply list_lookup_insert_eq. by rewrite length_insert.
Qed.

Lemma two_modify1 a b f : vmodify (two a b) i f = Ok (two (f a) b).
Proof.
  unfold vmodify. rewrite two_get1. simpl.
  rewrite vset_Ok by (by rewrite !length_insert).
  f_equal.
  rewrite list_insert_insert_ne by done.
  by rewrite list_insert_insert_eq.
Qed.

Lemma two_modify2 a b f : vmodify (two a b) j f = Ok (two a (f b)).
Proof.
  unfold vmodify. rewrite two_get2. simpl.
  rewrite vset_Ok by (by rewrite !length_insert).
  f_equal. by rewrite list_insert_insert_eq.
Qed.

Lemma two_id a b : v !! i = Some a → v !! j = Some b → two a b = v.
Proof.
  intros Ha Hb.
  rewrite (list_insert_id v i a Ha). by apply list_insert_id.
Qed.

End TwoCells.

Section CouplingFacts.

Variable rng : Type.
Variable runif_0_1 : rng → double * rng.

#[local] Arguments Double.add : simpl never.
#[local] Arguments Double.sub : simpl never.
#[local] Arguments Double.mul : simpl never.
#[local] Arguments Double.log : simpl never.
#[local] Arguments Double.lt : simpl never.

(** The eight assignments of the swap exchange the states of the two
    rungs. *)
Lemma swap_rungs_closed (particle_vec : list Particle) i j p1 p2 :
  i ≠ j →
  particle_vec !! i = Some p1 → particle_vec !! j = Some p2 →
  swap_rungs i j particle_vec
  = Ok (<[j := with_state_of p2 p1]>
          (<[i := with_state_of p1 p2]> particle_vec)).
Proof.
  intros Hij H1 H2.
  pose proof (lookup_lt_Some _ _ _ H1) as Hi.
  pose proof (lookup_lt_Some _ _ _ H2) as Hj.
  unfold swap_rungs.
  rewrite (vget_Some _ _ _ H1), (vget_Some _ _ _ H2).
  cbn [mbind result_bind].
  rewrite <- (two_id particle_vec i j p1 p2 H1 H2) at 1.
  repeat (rewrite ?(two_get1 _ _ _ Hij Hi), ?(two_get2 _ _ _ Hj),
                  ?(two_modify1 _ _ _ Hij Hi), ?(two_modify2 _ _ _ Hj);
          cbn [mbind result_bind]).
  destruct p1, p2. reflexivity.
Qed.

(** C3.  [coupling] makes one pass over the adjacent pairs [(i, i+1)] for
    [i] from 0 to [rungs-2] in increasing order.  At each pair the
    acceptance log-ratio is
    [(L2*beta1 + L1*beta2) - (L1*beta1 + L2*beta2)] of the current
    log-likelihoods and inverse-temperature powers of the two rungs; on
    acceptance [theta], [phi], [loglike] and [logprior] are exchanged
    between the two rungs, every other member stays with its rung, and
    [mc_accept[i]] grows by one; otherwise nothing changes. *)
Theorem coupling_adjacent_swaps :
  (∀ st,
     coupling rng runif_0_1 st
     = foldl (fun r i => r ≫= coupling_step rng runif_0_1 i) (Ok st)
         (seq 0 (length (st.1.1) - 1)))
  ∧ (∀ i particle_vec mc_accept g p1 p2 c,
       particle_vec !! i = Some p1 →
       particle_vec !! (i + 1)%nat = Some p2 →
       mc_accept !! i = Some c →
       let L1 := loglike p1 in
       let L2 := loglike p2 in
       let beta1 := beta_raised p1 in
       let beta2 := beta_raised p2 in
       let ratio :=
         ((L2 * beta1 + L1 * beta2) - (L1 * beta1 + L2 * beta2))%D in
       let u := (runif_0_1 g).1 in
       coupling_step rng runif_0_1 i (particle_vec, mc_accept, g)
       = Ok (if (log u <? ratio)%D
             then (<[(i + 1)%nat := with_state_of p2 p1]>
                     (<[i := with_state_of p1 p2]> particle_vec),
                   <[i := (c + 1)%Z]> mc_accept,
                   (runif_0_1 g).2)
             else (particle_vec, mc_accept, (runif_0_1 g).2))).
Proof.
  split.
  - intros st. unfold coupling, for_loop. apply for_from_seq.
  - intros i particle_vec mc_accept g p1 p2 c H1 H2 Hc L1 L2 beta1 beta2
      ratio u.
    unfold coupling_step.
    rewrite (vget_Some _ _ _ H1), (vget_Some _ _ _ H2).
    cbn [mbind result_bind].
    change (acceptance p1 p2) with ratio.
    subst u. destruct (runif_0_1 g) as [u g']. cbn [fst snd].
    destruct (log u <? ratio)%D; [|done].
    rewrite (swap_rungs_closed _ i (i + 1) p1 p2) by (done || lia).
    cbn [mbind result_bind]. unfold vmodify.
    rewrite (vget_Some _ _ _ Hc). cbn [mbind result_bind].
    rewrite vset_Ok by (by eapply lookup_lt_Some). done.
Qed.

End CouplingFacts.

(** [coupling_adjacent_swaps] on two rungs. *)
Lemma coupling_adjacent_swaps_witness :
  let hot := Examples.chain 1 (Fin 0) (Fin 0) (Fin 0) in
  let cold := Examples.chain 1 (Fin 1) (Fin 1) (Fin 1) in
  let ratio :=
    ((loglike cold * beta_raised hot + loglike hot * beta_raised cold)
     - (loglike hot * beta_raised hot + loglike cold * beta_raised cold))%D in
  coupling_step unit (Examples.runif_const (Fin 1)) 0 ([hot; cold], [0%Z], tt)
  = Ok (if (log (Fin 1) <? ratio)%D
        then ([with_state_of hot cold; with_state_of cold hot], [1%Z], tt)
        else ([hot; cold], [0%Z], tt)).
Proof.
  intros hot cold ratio.
  apply (proj2 (coupling_adjacent_swaps unit (Examples.runif_const (Fin 1)))
           0%nat [hot; cold] [0%Z] tt hot cold 0%Z).
  - reflexivity.
  - reflexivity.
  - reflexivity.
Defined.

(* ===================================================================== *)
(** * Rung schedule *)
(* ===================================================================== *)

Section Schedule.

Local Open Scope R_scope.

(** With at least two rungs and a positive finite power, rung [r] gets
    [pow(1 - r/(rungs-1), GTI_pow)]. *)
Lemma beta_raised_at_pow rungs g r :
  (2 ≤ rungs)%Z →
  beta_raised_at rungs (Fin g) r
  = pow_fin (1 - IZR r / IZR (rungs - 1)) g.
Proof.
  intros H. unfold beta_raised_at.
  destruct (rungs =? 1)%Z eqn:E; [apply Z.eqb_eq in E; lia|].
  unfold of_int. rewrite div_Fin.
  - by rewrite sub_Fin.
  - apply not_0_IZR. lia.
Qed.

Lemma pow_fin_pos a g : 0 < a → 0 < g → pow_fin a g = Fin (Rpower a g).
Proof. intros Ha Hg. unfold pow_fin. by rewrite (sgn_pos g), (sgn_pos a). Qed.

Lemma pow_fin_zero a g : a = 0 → 0 < g → pow_fin a g = Fin 0.
Proof. intros Ha Hg. unfold pow_fin. by rewrite (sgn_pos g), (sgn_zero a). Qed.

(** The first rung has power 1 and the last rung has power 0. *)
Lemma beta_raised_first rungs g :
  (2 ≤ rungs)%Z → 0 < g → beta_raised_at rungs (Fin g) 0 = Fin 1.
Proof.
  intros H Hg. rewrite beta_raised_at_pow by done.
  replace (1 - 0 / IZR (rungs - 1)) with 1 by (unfold Rdiv; lra).
  rewrite pow_fin_pos by lra. f_equal.
  unfold Rpower. rewrite ln_1, Rmult_0_r. apply exp_0.
Qed.

Lemma beta_raised_last rungs g :
  (2 ≤ rungs)%Z → 0 < g → beta_raised_at rungs (Fin g) (rungs - 1) = Fin 0.
Proof.
  intros H Hg. rewrite beta_raised_at_pow by done.
  apply pow_fin_zero; [|done].
  assert (IZR (rungs - 1) ≠ 0) by (apply not_0_IZR; lia).
  field. done.
Qed.

(** The schedule decreases from the first rung to the last. *)
Lemma beta_raised_decreasing rungs g r r' :
  (2 ≤ rungs)%Z → 0 < g → (0 ≤ r ≤ r')%Z → (r' ≤ rungs - 1)%Z →
  ∃ x y, beta_raised_at rungs (Fin g) r = Fin x
         ∧ beta_raised_at rungs (Fin g) r' = Fin y ∧ 0 <= y <= x.
Proof.
  intros H Hg [H0 Hr] Hr'. rewrite !beta_raised_at_pow by done.
  assert (Hn : 0 < IZR (rungs - 1)) by (apply IZR_lt; lia).
  assert (Hbase : ∀ q, (0 ≤ q ≤ rungs - 1)%Z →
            0 <= 1 - IZR q / IZR (rungs - 1)).
  { intros q [Hq1 Hq2]. apply IZR_le in Hq2.
    assert (Hinv : 0 < / IZR (rungs - 1)) by (by apply Rinv_0_lt_compat).
    assert (Hone : IZR (rungs - 1) * / IZR (rungs - 1) = 1)
      by (field; lra).
    unfold Rdiv. nra. }
  assert (Hmono : 1 - IZR r' / IZR (rungs - 1) <= 1 - IZR r / IZR (rungs - 1)).
  { apply IZR_le in Hr. unfold Rdiv.
    assert (IZR r * / IZR (rungs - 1) <= IZR r' * / IZR (rungs - 1)); [|lra].
    apply Rmult_le_compat_r; [|done]. left. by apply Rinv_0_lt_compat. }
  destruct (Hbase r' ltac:(lia)) as [Hpos'|Hz'].
  - rewrite (pow_fin_pos _ g), (pow_fin_pos (1 - IZR r' / _) g) by lra.
    eexists _, _. split; [done|split; [done|]]. split.
    + left. apply exp_pos.
    + apply Rle_Rpower_l; lra.
  - rewrite (pow_fin_zero (1 - IZR r' / _) g) by done.
    destruct (Hbase r ltac:(lia)) as [Hpos|Hz].
    + rewrite pow_fin_pos by lra. eexists _, _.
      split; [done|split; [done|]]. split; [lra|]. left. apply exp_pos.
    + rewrite pow_fin_zero by done. eexists _, _.
      split; [done|split; [done|]]. lra.
Qed.

End Schedule.

(** C5, with two rungs and [GTI_pow = 1]: [run_mcmc] gives the rungs the
    powers [1; 0], so the rung at index [rungs - 1] has power 0, not 1; the
    rung with power 1 is the one at index 0. *)
Theorem beta_raised_vec_two_rungs :
  beta_raised_vec 2 (Fin 1) = [Fin 1; Fin 0]
  ∧ beta_raised_vec 2 (Fin 1) !! (2 - 1)%nat = Some (Fin 0)
  ∧ beta_raised_vec 2 (Fin 1) !! (2 - 1)%nat ≠ Some (Fin 1).
Proof.
  assert (E : beta_raised_vec 2 (Fin 1) = [Fin 1; Fin 0]).
  { change (beta_raised_vec 2 (Fin 1))
      with [beta_raised_at 2 (Fin 1) 0; beta_raised_at 2 (Fin 1) (2 - 1)].
    rewrite (beta_raised_first 2 1), (beta_raised_last 2 1) by (lia || lra).
    done. }
  rewrite E. split; [done|]. split; [done|].
  simpl. intros [= H]. lra.
Qed.

(* ===================================================================== *)
(** * The sweep as a whole *)
(* ===================================================================== *)

Section SweepInvariants.

Variable s : System.
Variable cubic_spline : list double → list double → list double → list double.
Variable dbinom : double → double → double → bool → double.
Variable dnorm : double → double → double → bool → double.
Variable rng : Type.
Variable rnorm1 : double → double → rng → double * rng.
Variable runif_0_1 : rng → double * rng.

#[local] Arguments Double.add : simpl never.
#[local] Arguments Double.sub : simpl never.
#[local] Arguments Double.mul : simpl never.
#[local] Arguments Double.div : simpl never.
#[local] Arguments Double.exp : simpl never.
#[local] Arguments Double.log : simpl never.
#[local] Arguments Double.sqrt : simpl never.
#[local] Arguments Double.lt : simpl never.

Local Abbreviation get_loglike := (get_loglike s cubic_spline dbinom).
Local Abbreviation get_logprior := (get_logprior s dnorm).
Local Abbreviation propose := (propose s cubic_spline dbinom dnorm rng rnorm1).
Local Abbreviation update_param :=
  (update_param s cubic_spline dbinom dnorm rng rnorm1 runif_0_1).
Local Abbreviation update :=
  (update s cubic_spline dbinom dnorm rng rnorm1 runif_0_1).

Lemma accept_move_reads i p p' :
  accept_move i p = Ok p' →
  (∃ th, theta p !! i = Some th) ∧ (∃ n, bw_index p !! i = Some n).
Proof.
  unfold accept_move. intros H.
  apply bind_Ok_inv in H as (tp & _ & H).
  apply bind_Ok_inv in H as (thv & Hth & H).
  apply vset_Ok_inv in Hth as [Hlen _].
  apply bind_Ok_inv in H as (pp & _ & H).
  apply bind_Ok_inv in H as (phv & _ & H).
  apply bind_Ok_inv in H as (b & _ & H).
  apply bind_Ok_inv in H as (n & Hn & H).
  apply vget_Ok_inv in Hn. simpl in Hn.
  split; [by apply lookup_lt_is_Some_2|eauto].
Qed.

Lemma reject_move_reads i p p' :
  reject_move i p = Ok p' →
  (∃ th, theta p !! i = Some th) ∧ (∃ n, bw_index p !! i = Some n).
Proof.
  unfold reject_move. intros H.
  apply bind_Ok_inv in H as (th & Hth & H). apply vget_Ok_inv in Hth.
  apply bind_Ok_inv in H as (tpv & _ & H).
  apply bind_Ok_inv in H as (ph & _ & H).
  apply bind_Ok_inv in H as (ppv & _ & H).
  apply bind_Ok_inv in H as (b & _ & H).
  apply bind_Ok_inv in H as (n & Hn & H).
  apply vget_Ok_inv in Hn. simpl in Hn. eauto.
Qed.

(** Every way the loop body can return: the parameter is skipped and
    nothing changes, or a proposal is drawn and the chain is the one after
    an accepted or after a rejected move. *)
Lemma update_param_inv beta i p g p' g' :
  update_param beta i (p, g) = Ok (p', g') →
  (skip_param s !! i = Some true ∧ p' = p ∧ g' = g)
  ∨ (skip_param s !! i = Some false
     ∧ ∃ tp pp th ph ll lp b n adj g1,
         theta p !! i = Some th ∧ phi p !! i = Some ph
         ∧ bw p !! i = Some b ∧ bw_index p !! i = Some n
         ∧ (i < length (theta_prop p))%nat ∧ (i < length (phi_prop p))%nat
         ∧ rnorm1 ph b g = (pp, g1) ∧ g' = (runif_0_1 g1).2
         ∧ phi_prop_to_theta_prop s i
             (set_phi_prop (<[i := pp]> (phi_prop p)) p)
           = Ok (set_theta_prop (<[i := tp]> (theta_prop p))
                   (set_phi_prop (<[i := pp]> (phi_prop p)) p))
         ∧ get_adjustment s i
             (set_theta_prop (<[i := tp]> (theta_prop p)) p) = Ok adj
         ∧ get_loglike (<[i := tp]> (theta_prop p)) i = Ok ll
         ∧ get_logprior (<[i := tp]> (theta_prop p)) i = Ok lp
         ∧ ((log (runif_0_1 g1).1
             <? beta * (ll - loglike p) + (lp - logprior p) + adj)%D = true
            ∧ p' = after_accept i p tp pp ll lp b n
            ∨ (log (runif_0_1 g1).1
               <? beta * (ll - loglike p) + (lp - logprior p) + adj)%D = false
              ∧ p' = after_reject i p tp pp th ph ll lp b n)).
Proof.
  intros H. pose proof H as H0. unfold Model.update_param in H.
  apply bind_Ok_inv in H as (skip & Hskip & H).
  apply vget_Ok_inv in Hskip. destruct skip.
  { left. by inversion H; subst. }
  right. split; [done|].
  apply bind_Ok_inv in H as ([[p1 adj] g1] & Hprop & H).
  rewrite (update_param_unfold _ _ _ _ _ _ _ _ _ _ _ _ _ _ Hskip Hprop) in H0.
  assert (Hreads : (∃ th, theta p1 !! i = Some th)
                   ∧ (∃ n, bw_index p1 !! i = Some n)).
  { destruct (_ <? _)%D;
      apply bind_Ok_inv in H0 as (q & Hq & _);
      [by eapply accept_move_reads|by eapply reject_move_reads]. }
  clear H.
  unfold Model.propose in Hprop.
  apply bind_Ok_inv in Hprop as (ph & Hph & Hprop).
  apply bind_Ok_inv in Hprop as (b & Hb & Hprop).
  destruct (rnorm1 ph b g) as [pp g1'] eqn:Hdraw.
  apply bind_Ok_inv in Hprop as (ppv & Hset & Hprop).
  apply vset_Ok_inv in Hset as [Hlpp ->].
  apply bind_Ok_inv in Hprop as (q & Hq & Hprop).
  pose proof Hq as Hq0.
  apply phi_prop_to_theta_prop_frame in Hq as (tp & Hltp & ->).
  apply bind_Ok_inv in Hprop as (adj' & Hadj & Hprop).
  apply bind_Ok_inv in Hprop as (ll & Hll & Hprop).
  apply bind_Ok_inv in Hprop as (lp & Hlp & Hprop).
  inversion Hprop; subst p1 adj' g1'; clear Hprop.
  apply vget_Ok_inv in Hph, Hb. simpl in *.
  destruct Hreads as [[th Hth] [n Hn]].
  assert (Hg : g' = (runif_0_1 g1).2).
  { destruct (_ <? _)%D; apply bind_Ok_inv in H0 as (q & _ & H0);
      by inversion H0. }
  exists tp, pp, th, ph, ll, lp, b, n, adj, g1.
  repeat (split; [done|]).
  unfold MH_ratio in H0. cbn [loglike_prop loglike logprior_prop logprior
    set_logprior_prop set_loglike_prop set_theta_prop set_phi_prop] in H0.
  destruct (_ <? _)%D eqn:Hacc; [left|right]; (split; [done|]);
    apply bind_Ok_inv in H0 as (q & Hq & H0); inversion H0; subst q.
  - erewrite accept_move_closed in Hq; try (simpl; done);
      try (simpl; by apply list_lookup_insert_eq).
    by inversion Hq.
  - erewrite reject_move_closed in Hq; try (simpl; done);
      try (simpl; by apply list_lookup_insert_eq).
    by inversion Hq.
Qed.

(** [get_adjustment] returns for every valid kind once its reads are in
    range. *)
Lemma get_adjustment_returns i p k :
  trans_type s !! i = Some k → (0 ≤ k ≤ 3)%Z →
  (i < length (theta_min s))%nat → (i < length (theta_max s))%nat →
  (i < length (theta p))%nat → (i < length (theta_prop p))%nat →
  ∃ adj, get_adjustment s i p = Ok adj.
Proof.
  intros Hk Hr H1 H2 H3 H4.
  destruct (lookup_lt_is_Some_2 _ _ H1) as [mn Hmn].
  destruct (lookup_lt_is_Some_2 _ _ H2) as [mx Hmx].
  destruct (lookup_lt_is_Some_2 _ _ H3) as [th Hth].
  destruct (lookup_lt_is_Some_2 _ _ H4) as [tp Htp].
  unfold get_adjustment. rewrite (vget_Some _ _ _ Hk). simpl.
  assert (k = 0 ∨ k = 1 ∨ k = 2 ∨ k = 3)%Z as [->|[->|[->| ->]]] by lia;
    rewrite ?(vget_Some _ _ _ Hmn), ?(vget_Some _ _ _ Hmx),
            ?(vget_Some _ _ _ Hth), ?(vget_Some _ _ _ Htp); simpl; eauto.
Qed.

(** The loop body returns on sized vectors when the likelihood and the
    prior return on the proposed vector, and keeps the vectors sized. *)
Lemma update_param_returns beta i p g :
  system_sized s → vectors_sized s p → (i < d s)%nat →
  (∀ v, length v = d s → ∃ ll, get_loglike v 0 = Ok ll) →
  (∀ v, length v = d s → ∃ lp, get_logprior v 0 = Ok lp) →
  ∃ p' g', update_param beta i (p, g) = Ok (p', g') ∧ vectors_sized s p'.
Proof.
  intros (S1 & S2 & S3 & S4 & S5) (V1 & V2 & V3 & V4 & V5 & V6) Hi Hll Hlp.
  destruct (lookup_lt_is_Some_2 (skip_param s) i) as [skip Hskip]; [lia|].
  destruct skip.
  { exists p, g. unfold Model.update_param.
    rewrite (vget_Some _ _ _ Hskip). by repeat split. }
  destruct (lookup_lt_is_Some_2 (trans_type s) i) as [k Hk]; [lia|].
  pose proof (proj1 (Forall_lookup _ _) S3 _ _ Hk) as Hr. simpl in Hr.
  destruct (lookup_lt_is_Some_2 (theta_min s) i) as [mn Hmn]; [lia|].
  destruct (lookup_lt_is_Some_2 (theta_max s) i) as [mx Hmx]; [lia|].
  destruct (lookup_lt_is_Some_2 (theta p) i) as [th Hth]; [lia|].
  destruct (lookup_lt_is_Some_2 (phi p) i) as [ph Hph]; [lia|].
  destruct (lookup_lt_is_Some_2 (bw p) i) as [b Hb]; [lia|].
  destruct (lookup_lt_is_Some_2 (bw_index p) i) as [n Hn]; [lia|].
  destruct (rnorm1 ph b g) as [pp g1] eqn:Hdraw.
  remember (phi_to_theta_value k mn mx pp) as tp eqn:Etp.
  destruct (Hll (<[i := tp]> (theta_prop p))) as [ll Hl1];
    [by rewrite length_insert|].
  destruct (Hlp (<[i := tp]> (theta_prop p))) as [lp Hl2];
    [by rewrite length_insert|].
  destruct (get_adjustment_returns i
              (set_theta_prop (<[i := tp]> (theta_prop p))
                 (set_phi_prop (<[i := pp]> (phi_prop p)) p)) k)
    as [adj Hadj]; simpl; rewrite ?length_insert; try lia; try done.
  assert (Hprop : propose i (p, g)
    = Ok (set_logprior_prop lp (set_loglike_prop ll
            (set_theta_prop (<[i := tp]> (theta_prop p))
               (set_phi_prop (<[i := pp]> (phi_prop p)) p))), adj, g1)).
  { unfold Model.propose.
    rewrite (vget_Some _ _ _ Hph), (vget_Some _ _ _ Hb).
    cbn [mbind result_bind]. rewrite Hdraw.
    rewrite vset_Ok by lia. cbn [mbind result_bind].
    rewrite (phi_prop_to_theta_prop_value s i _ k mn mx pp); try done;
      [|simpl; apply list_lookup_insert_eq; lia|simpl; lia].
    cbn [mbind result_bind]. rewrite <- Etp.
    change (theta_prop (set_phi_prop ?v ?q)) with (theta_prop q).
    rewrite Hadj. cbn [mbind result_bind].
    change (theta_prop (set_theta_prop ?v ?q)) with v.
    change (Model.get_loglike s cubic_spline dbinom ?v i)
      with (get_loglike v 0).
    rewrite Hl1. cbn [mbind result_bind].
    change (theta_prop (set_loglike_prop ?l ?q)) with (theta_prop q).
    change (theta_prop (set_theta_prop ?v ?q)) with v.
    change (Model.get_logprior s dnorm ?v i) with (get_logprior v 0).
    rewrite Hl2. done. }
  rewrite (update_param_unfold _ _ _ _ _ _ _ _ _ _ _ _ _ _ Hskip Hprop).
  destruct (_ <? _)%D.
  - erewrite accept_move_closed; try (simpl; done);
      try (simpl; apply list_lookup_insert_eq; lia).
    eexists _, _. split; [done|].
    unfold vectors_sized. simpl. rewrite !length_insert. by repeat split.
  - erewrite reject_move_closed; try (simpl; done);
      try (simpl; apply list_lookup_insert_eq; lia).
    eexists _, _. split; [done|].
    unfold vectors_sized. simpl. rewrite !length_insert. by repeat split.
Qed.

(** A sweep returns under the same conditions. *)
Lemma update_runs beta p g :
  system_sized s → vectors_sized s p →
  (∀ v, length v = d s → ∃ ll, get_loglike v 0 = Ok ll) →
  (∀ v, length v = d s → ∃ lp, get_logprior v 0 = Ok lp) →
  ∃ p' g', update beta (p, g) = Ok (p', g') ∧ vectors_sized s p'.
Proof.
  intros Hs Hp Hll Hlp. unfold Model.update, for_loop.
  destruct (for_from_total (fun x => vectors_sized s x.1) 0 (d s)
              (update_param beta)
              (set_phi_prop (phi (set_theta_prop (theta p) p))
                 (set_theta_prop (theta p) p), g))
    as ([p' g'] & Hrun & Hp').
  - destruct Hp as (V1 & V2 & V3 & V4 & V5 & V6). by repeat split.
  - intros j [q h] Hj Hq.
    destruct (update_param_returns beta j q h Hs Hq ltac:(lia) Hll Hlp)
      as (q' & h' & Hq' & Hv).
    by exists (q', h').
  - by exists p', g'.
Qed.

(** With every parameter skipped the sweep is the refresh of the proposal
    buffers. *)
Lemma update_skipped_run beta p g :
  (∀ i, (i < d s)%nat → skip_param s !! i = Some true) →
  update beta (p, g)
  = Ok (set_phi_prop (phi p) (set_theta_prop (theta p) p), g).
Proof.
  intros Hall. unfold Model.update, for_loop.
  destruct (for_from_total
    (fun x => x = (set_phi_prop (phi p) (set_theta_prop (theta p) p), g))
    0 (d s) (update_param beta)
    (set_phi_prop (phi p) (set_theta_prop (theta p) p), g))
    as (x & Hx & ->); [done| |done].
  intros j x Hj ->. eexists. split; [|done].
  unfold Model.update_param.
  by rewrite (vget_Some _ _ _ (Hall j ltac:(lia))).
Qed.

(** Invariant rule for a sweep: [Q j] holds before the round of parameter
    [j], starting from the chain whose proposal buffers were refreshed. *)
Lemma update_invariant (Q : nat → Particle → Prop) beta p g p' g' :
  Q 0%nat (set_phi_prop (phi p) (set_theta_prop (theta p) p)) →
  (∀ i q h q' h', (i < d s)%nat → Q i q →
     update_param beta i (q, h) = Ok (q', h') → Q (S i) q') →
  update beta (p, g) = Ok (p', g') →
  Q (d s) p'.
Proof.
  intros H0 Hstep Hrun. unfold Model.update, for_loop in Hrun.
  apply (for_from_invariant (fun j x => Q j x.1) 0 (d s)) in Hrun;
    [done|done|].
  intros j [q h] [q' h'] Hj Hq Hbody. simpl in *.
  eapply Hstep; eauto. lia.
Qed.

(** X1.  A sweep that returns leaves the proposal buffers equal to the
    current position ([theta_prop = theta], [phi_prop = phi]), keeps the
    length of every vector of the chain, and never writes [bw_stepsize] or
    [beta_raised]. *)
Theorem update_keeps_shape beta p g p' g' :
  update beta (p, g) = Ok (p', g') →
  in_sync p'
  ∧ length (theta p') = length (theta p)
  ∧ length (phi p') = length (phi p)
  ∧ length (bw p') = length (bw p)
  ∧ length (bw_index p') = length (bw_index p)
  ∧ bw_stepsize p' = bw_stepsize p
  ∧ beta_raised p' = beta_raised p.
Proof.
  intros Hrun.
  apply (update_invariant (fun _ q =>
    in_sync q ∧ length (theta q) = length (theta p)
    ∧ length (phi q) = length (phi p) ∧ length (bw q) = length (bw p)
    ∧ length (bw_index q) = length (bw_index p)
    ∧ bw_stepsize q = bw_stepsize p ∧ beta_raised q = beta_raised p)
    beta p g p' g'); [by repeat split| |done].
  intros i q h q' h' _ ([Hs1 Hs2] & L1 & L2 & L3 & L4 & E1 & E2) Hstep.
  apply update_param_inv in Hstep
    as [(_ & -> & _)|(_ & tp & pp & th & ph & ll & lp & b & n & adj & g1
         & Hth & Hph & Hb & Hn & _ & _ & _ & _ & _ & _ & _ & _ & Hcase)];
    [by repeat split|].
  destruct Hcase as [[_ ->]|[_ ->]]; unfold after_accept, after_reject,
    in_sync; simpl; rewrite ?length_insert.
  - rewrite Hs1, Hs2. by repeat split.
  - rewrite !list_insert_insert_eq, Hs1, Hs2.
    rewrite (list_insert_id _ _ _ Hth), (list_insert_id _ _ _ Hph).
    by repeat split.
Qed.

(** X2.  A sweep leaves a skipped parameter untouched: [theta[i]],
    [phi[i]], [bw[i]] and [bw_index[i]] are as before. *)
Theorem update_skips beta p g p' g' i :
  skip_param s !! i = Some true →
  update beta (p, g) = Ok (p', g') →
  theta p' !! i = theta p !! i ∧ phi p' !! i = phi p !! i
  ∧ bw p' !! i = bw p !! i ∧ bw_index p' !! i = bw_index p !! i.
Proof.
  intros Hskip Hrun.
  apply (update_invariant (fun _ q =>
    theta q !! i = theta p !! i ∧ phi q !! i = phi p !! i
    ∧ bw q !! i = bw p !! i ∧ bw_index q !! i = bw_index p !! i)
    beta p g p' g'); [done| |done].
  intros j q h q' h' _ (E1 & E2 & E3 & E4) Hstep.
  apply update_param_inv in Hstep
    as [(_ & -> & _)|(Hns & tp & pp & th & ph & ll & lp & b & n & adj & g1
         & _ & _ & _ & _ & _ & _ & _ & _ & _ & _ & _ & _ & Hcase)]; [done|].
  assert (j ≠ i) by (intros ->; congruence).
  destruct Hcase as [[_ ->]|[_ ->]]; simpl;
    rewrite ?list_lookup_insert_ne by done; done.
Qed.

(** X3.  When every parameter is skipped a sweep returns, draws no random
    number and changes nothing but the proposal buffers, which receive the
    current position. *)
Theorem update_all_skipped beta p g :
  (∀ i, (i < d s)%nat → skip_param s !! i = Some true) →
  update beta (p, g)
  = Ok (set_phi_prop (phi p) (set_theta_prop (theta p) p), g).
Proof. apply update_skipped_run. Qed.

(** X4.  A sweep counts every parameter it does not skip exactly once in
    [bw_index], whether the move is accepted or rejected. *)
Theorem update_counts_rounds beta p g p' g' i n :
  (i < d s)%nat →
  skip_param s !! i = Some false →
  bw_index p !! i = Some n →
  update beta (p, g) = Ok (p', g') →
  bw_index p' !! i = Some (n + 1)%Z.
Proof.
  intros Hi Hskip Hn Hrun.
  assert (H : (i < d s)%nat → bw_index p' !! i = Some (n + 1)%Z);
    [|by apply H].
  apply (update_invariant (fun j q =>
    ((i < j)%nat → bw_index q !! i = Some (n + 1)%Z)
    ∧ ((j ≤ i)%nat → bw_index q !! i = Some n))
    beta p g p' g'); [split; [lia|done]| |done].
  intros j q h q' h' _ [B1 B2] Hstep.
  apply update_param_inv in Hstep
    as [(Hsk & -> & _)|(_ & tp & pp & th & ph & ll & lp & b & m & adj & g1
         & _ & _ & _ & Hm & _ & _ & _ & _ & _ & _ & _ & _ & Hcase)].
  - assert (j ≠ i) by (intros ->; congruence).
    split; intros; [apply B1|apply B2]; lia.
  - destruct (decide (j = i)) as [->|Hne].
    + rewrite (B2 ltac:(lia)) in Hm. inversion Hm; subst m.
      pose proof (lookup_lt_Some _ _ _ (B2 ltac:(lia))).
      split; [intros _|lia].
      destruct Hcase as [[_ ->]|[_ ->]]; simpl;
        by apply list_lookup_insert_eq.
    + destruct Hcase as [[_ ->]|[_ ->]]; simpl;
        rewrite list_lookup_insert_ne by done;
        (split; intros; [apply B1|apply B2]; lia).
Qed.

(** X5.  A sweep never lowers [accept_count] and raises it by at most the
    number of parameters. *)
Theorem update_accept_count_bounds beta p g p' g' :
  update beta (p, g) = Ok (p', g') →
  (accept_count p ≤ accept_count p' ≤ accept_count p + Z.of_nat (d s))%Z.
Proof.
  intros Hrun.
  apply (update_invariant (fun j q =>
    (accept_count p ≤ accept_count q ≤ accept_count p + Z.of_nat j)%Z)
    beta p g p' g'); [simpl; lia| |done].
  intros j q h q' h' _ Hq Hstep.
  apply update_param_inv in Hstep
    as [(_ & -> & _)|(_ & tp & pp & th & ph & ll & lp & b & m & adj & g1
         & _ & _ & _ & _ & _ & _ & _ & _ & _ & _ & _ & _ & Hcase)]; [lia|].
  destruct Hcase as [[_ ->]|[_ ->]]; simpl; lia.
Qed.

(** X6.  The cached values follow the position: when [loglike] and
    [logprior] are the likelihood and the prior of [theta] before a sweep,
    they are the likelihood and the prior of [theta] after it. *)
Theorem update_keeps_cache beta p g p' g' :
  get_loglike (theta p) 0 = Ok (loglike p) →
  get_logprior (theta p) 0 = Ok (logprior p) →
  update beta (p, g) = Ok (p', g') →
  get_loglike (theta p') 0 = Ok (loglike p')
  ∧ get_logprior (theta p') 0 = Ok (logprior p').
Proof.
  intros Hll Hlp Hrun.
  assert (H : in_sync p' ∧ get_loglike (theta p') 0 = Ok (loglike p')
              ∧ get_logprior (theta p') 0 = Ok (logprior p'));
    [|by destruct H as (_ & ? & ?)].
  apply (update_invariant (fun _ q =>
    in_sync q ∧ get_loglike (theta q) 0 = Ok (loglike q)
    ∧ get_logprior (theta q) 0 = Ok (logprior q))
    beta p g p' g'); [by repeat split| |done].
  intros j q h q' h' _ ([Hs1 Hs2] & C1 & C2) Hstep.
  apply update_param_inv in Hstep
    as [(_ & -> & _)|(_ & tp & pp & th & ph & ll & lp & b & m & adj & g1
         & Hth & Hph & _ & _ & _ & _ & _ & _ & _ & _ & Hl1 & Hl2 & Hcase)];
    [by repeat split|].
  destruct Hcase as [[_ ->]|[_ ->]]; unfold in_sync; simpl.
  - rewrite Hs1, Hs2 in *. by repeat split.
  - rewrite !list_insert_insert_eq, Hs1, Hs2.
    rewrite (list_insert_id _ _ _ Hth), (list_insert_id _ _ _ Hph).
    by repeat split.
Qed.

Lemma same_failure_bind {X Y Z} (r : result X) (m : result Y)
    (k : Y → result Z) :
  same_failure r m → same_failure r (m ≫= k).
Proof. by destruct r, m. Qed.

(** The way a step or a sweep can fail: as the likelihood or the prior
    fails on some vector of [d] entries. *)
Local Abbreviation fails_as_density r :=
  (∃ v, length v = d s
        ∧ (same_failure (get_loglike v 0) r
           ∨ same_failure (get_logprior v 0) r)).

(** On sized vectors the loop body returns and keeps the vectors sized,
    or fails as the likelihood or the prior fails on the proposed
    vector. *)
Lemma update_param_outcome beta i p g :
  system_sized s → vectors_sized s p → (i < d s)%nat →
  (∃ q, update_param beta i (p, g) = Ok q ∧ vectors_sized s q.1)
  ∨ fails_as_density (update_param beta i (p, g)).
Proof.
  intros (S1 & S2 & S3 & S4 & S5) (V1 & V2 & V3 & V4 & V5 & V6) Hi.
  destruct (lookup_lt_is_Some_2 (skip_param s) i) as [skip Hskip]; [lia|].
  destruct skip.
  { left. exists (p, g). unfold Model.update_param.
    rewrite (vget_Some _ _ _ Hskip). by repeat split. }
  destruct (lookup_lt_is_Some_2 (trans_type s) i) as [k Hk]; [lia|].
  pose proof (proj1 (Forall_lookup _ _) S3 _ _ Hk) as Hr. simpl in Hr.
  destruct (lookup_lt_is_Some_2 (theta_min s) i) as [mn Hmn]; [lia|].
  destruct (lookup_lt_is_Some_2 (theta_max s) i) as [mx Hmx]; [lia|].
  destruct (lookup_lt_is_Some_2 (theta p) i) as [th Hth]; [lia|].
  destruct (lookup_lt_is_Some_2 (phi p) i) as [ph Hph]; [lia|].
  destruct (lookup_lt_is_Some_2 (bw p) i) as [b Hb]; [lia|].
  destruct (lookup_lt_is_Some_2 (bw_index p) i) as [n Hn]; [lia|].
  destruct (rnorm1 ph b g) as [pp g1] eqn:Hdraw.
  remember (phi_to_theta_value k mn mx pp) as tp eqn:Etp.
  assert (HV : length (<[i := tp]> (theta_prop p)) = d s)
    by (by rewrite length_insert).
  destruct (get_adjustment_returns i
              (set_theta_prop (<[i := tp]> (theta_prop p))
                 (set_phi_prop (<[i := pp]> (phi_prop p)) p)) k)
    as [adj Hadj]; simpl; rewrite ?length_insert; try lia; try done.
  assert (Hprop : propose i (p, g)
    = (ll ← get_loglike (<[i := tp]> (theta_prop p)) 0;
       lp ← get_logprior (<[i := tp]> (theta_prop p)) 0;
       Ok (set_logprior_prop lp (set_loglike_prop ll
             (set_theta_prop (<[i := tp]> (theta_prop p))
                (set_phi_prop (<[i := pp]> (phi_prop p)) p))), adj, g1))).
  { unfold Model.propose.
    rewrite (vget_Some _ _ _ Hph), (vget_Some _ _ _ Hb).
    cbn [mbind result_bind]. rewrite Hdraw.
    rewrite vset_Ok by lia. cbn [mbind result_bind].
    rewrite (phi_prop_to_theta_prop_value s i _ k mn mx pp); try done;
      [|simpl; apply list_lookup_insert_eq; lia|simpl; lia].
    cbn [mbind result_bind]. rewrite <- Etp.
    change (theta_prop (set_phi_prop ?v ?q)) with (theta_prop q).
    rewrite Hadj. cbn [mbind result_bind]. done. }
  assert (Hfail : ∀ X (r : result X) msg,
            propose i (p, g) = msg →
            same_failure r msg →
            same_failure r (update_param beta i (p, g))).
  { intros X r msg Hm Hsame. unfold Model.update_param.
    rewrite (vget_Some _ _ _ Hskip). cbn [mbind result_bind].
    rewrite Hm. by apply same_failure_bind. }
  destruct (get_loglike (<[i := tp]> (theta_prop p)) 0) as [ll|msg|] eqn:Hl1;
    [|right; eexists; split; [exact HV|]; left; rewrite Hl1;
      by apply (Hfail _ _ _ Hprop)..].
  cbn [mbind result_bind] in Hprop.
  destruct (get_logprior (<[i := tp]> (theta_prop p)) 0) as [lp|msg|] eqn:Hl2;
    [|right; eexists; split; [exact HV|]; right; rewrite Hl2;
      by apply (Hfail _ _ _ Hprop)..].
  cbn [mbind result_bind] in Hprop. left.
  rewrite (update_param_unfold _ _ _ _ _ _ _ _ _ _ _ _ _ _ Hskip Hprop).
  destruct (_ <? _)%D.
  - erewrite accept_move_closed; try (simpl; done);
      try (simpl; apply list_lookup_insert_eq; lia).
    eexists. split; [done|].
    unfold vectors_sized. simpl. rewrite !length_insert. by repeat split.
  - erewrite reject_move_closed; try (simpl; done);
      try (simpl; apply list_lookup_insert_eq; lia).
    eexists. split; [done|].
    unfold vectors_sized. simpl. rewrite !length_insert. by repeat split.
Qed.

(** X7.  On a system whose per-parameter vectors have [d] entries and
    whose transformation kinds are valid, a sweep of a chain whose
    vectors have [d] entries fails only through the likelihood or the
    prior: either it returns, with the vectors still at [d] entries, or
    its failure is the failure of [get_loglike] or of [get_logprior] on
    some vector of [d] entries, an abort with the same message or an
    undefined read. *)
Theorem update_returns beta p g :
  system_sized s → vectors_sized s p →
  (∃ p' g', update beta (p, g) = Ok (p', g') ∧ vectors_sized s p')
  ∨ (∃ v, length v = d s
          ∧ (same_failure (get_loglike v 0) (update beta (p, g))
             ∨ same_failure (get_logprior v 0) (update beta (p, g)))).
Proof.
  intros Hs Hp. unfold Model.update, for_loop.
  destruct (for_from_outcome (fun x => vectors_sized s x.1)
              (fun r => fails_as_density r) 0 (d s)
              (update_param beta)
              (set_phi_prop (phi (set_theta_prop (theta p) p))
                 (set_theta_prop (theta p) p), g))
    as [([p' g'] & Hrun & Hp')|Hfail].
  - intros m k (v & Hv & [H|H]); exists v; (split; [done|]);
      [left|right]; by apply same_failure_bind.
  - destruct Hp as (V1 & V2 & V3 & V4 & V5 & V6). by repeat split.
  - intros j [q h] Hj Hq. apply update_param_outcome; (done || lia).
  - left. by exists p', g'.
  - by right.
Qed.

End SweepInvariants.

Section SweepExamples.

Local Abbreviation ex_sys := (Examples.sys 6 0 (Fin 0) (Fin 1) []).
Local Abbreviation ex_chain := (Examples.chain 6 (Fin 0) (Fin 0) (Fin 1)).
Local Abbreviation ex_update :=
  (update ex_sys Examples.spline_const (Examples.density_const (Fin 0))
     (Examples.density_const (Fin 0)) unit Examples.rnorm1_mean
     (Examples.runif_const (Fin 1))).
Local Abbreviation skip_update :=
  (update (Examples.sys_skip 6) Examples.spline_const
     (Examples.density_const (Fin 0)) (Examples.density_const (Fin 0))
     unit Examples.rnorm1_mean (Examples.runif_const (Fin 1))).

Lemma example_system_sized : system_sized ex_sys.
Proof. repeat split; try reflexivity. repeat constructor; lia. Qed.

Lemma example_chain_sized : vectors_sized ex_sys ex_chain.
Proof. by repeat split. Qed.

Lemma example_loglike v :
  length v = 6%nat →
  get_loglike ex_sys Examples.spline_const (Examples.density_const (Fin 0))
    v 0 = Ok (Fin 0).
Proof.
  destruct v as [|a [|b [|c [|e [|f [|h [|]]]]]]]; try done.
Qed.

Lemma example_logprior v :
  get_logprior ex_sys (Examples.density_const (Fin 0)) v 0 = Ok (Fin 0).
Proof. done. Qed.

Lemma example_sweep :
  ∃ p' g', ex_update (Fin 1) (ex_chain, tt) = Ok (p', g').
Proof.
  destruct (update_runs ex_sys Examples.spline_const
              (Examples.density_const (Fin 0))
              (Examples.density_const (Fin 0)) unit Examples.rnorm1_mean
              (Examples.runif_const (Fin 1)) (Fin 1) ex_chain tt)
    as (p' & g' & Hrun & _).
  - apply example_system_sized.
  - apply example_chain_sized.
  - intros v Hv. exists (Fin 0). by apply example_loglike.
  - intros v _. exists (Fin 0). apply example_logprior.
  - by exists p', g'.
Qed.

Lemma update_keeps_shape_witness :
  ∃ p', ex_update (Fin 1) (ex_chain, tt) = Ok (p', tt) ∧ in_sync p'.
Proof.
  destruct example_sweep as (p' & [] & Hrun). exists p'.
  split; [exact Hrun|].
  eapply update_keeps_shape. exact Hrun.
Defined.

Lemma update_skips_witness :
  ∃ p', skip_update (Fin 1) (ex_chain, tt) = Ok (p', tt)
        ∧ bw_index p' !! 0%nat = Some 1%Z.
Proof.
  eexists. split.
  - apply update_skipped_run. intros i Hi. simpl in Hi.
    apply lookup_replicate_2. lia.
  - refine (proj2 (proj2 (proj2 (update_skips (Examples.sys_skip 6)
      Examples.spline_const (Examples.density_const (Fin 0))
      (Examples.density_const (Fin 0)) unit Examples.rnorm1_mean
      (Examples.runif_const (Fin 1)) (Fin 1) ex_chain tt _ tt 0%nat _ _)))).
    + reflexivity.
    + apply update_skipped_run. intros i Hi. simpl in Hi.
      apply lookup_replicate_2. lia.
Defined.

Lemma update_all_skipped_witness :
  skip_update (Fin 1) (ex_chain, tt)
  = Ok (set_phi_prop (phi ex_chain)
          (set_theta_prop (theta ex_chain) ex_chain), tt).
Proof.
  apply update_all_skipped. intros i Hi. simpl in Hi.
  apply lookup_replicate_2. lia.
Defined.

Lemma update_counts_rounds_witness :
  ∃ p', ex_update (Fin 1) (ex_chain, tt) = Ok (p', tt)
        ∧ bw_index p' !! 0%nat = Some 2%Z.
Proof.
  destruct example_sweep as (p' & [] & Hrun). exists p'.
  split; [exact Hrun|].
  refine (update_counts_rounds ex_sys _ _ _ _ _ _ _ _ _ _ tt 0%nat 1%Z
            _ _ _ Hrun); [simpl; lia|reflexivity|reflexivity].
Defined.

Lemma update_accept_count_bounds_witness :
  ∃ p', ex_update (Fin 1) (ex_chain, tt) = Ok (p', tt)
        ∧ (0 ≤ accept_count p' ≤ 6)%Z.
Proof.
  destruct example_sweep as (p' & [] & Hrun). exists p'.
  split; [exact Hrun|].
  exact (update_accept_count_bounds ex_sys _ _ _ _ _ _ _ ex_chain _ _ tt
           Hrun).
Defined.

Lemma update_keeps_cache_witness :
  ∃ p', ex_update (Fin 1) (ex_chain, tt) = Ok (p', tt)
        ∧ get_loglike ex_sys Examples.spline_const
            (Examples.density_const (Fin 0)) (theta p') 0
          = Ok (loglike p').
Proof.
  destruct example_sweep as (p' & [] & Hrun). exists p'.
  split; [exact Hrun|].
  eapply update_keeps_cache; [| |exact Hrun]; reflexivity.
Defined.

(** [update_returns] on a system with one age whose binomial terms are
    NaN: the sweep is stopped as the likelihood is. *)
Lemma update_returns_witness :
  let upd := update (Examples.sys_one_age 6) Examples.spline_const
               (Examples.density_const NaN) (Examples.density_const (Fin 0))
               unit Examples.rnorm1_mean (Examples.runif_const (Fin 1))
               (Fin 1) (ex_chain, tt) in
  (∃ p' g', upd = Ok (p', g') ∧ vectors_sized (Examples.sys_one_age 6) p')
  ∨ (∃ v, length v = 6%nat
          ∧ (same_failure
               (get_loglike (Examples.sys_one_age 6) Examples.spline_const
                  (Examples.density_const NaN) v 0) upd
             ∨ same_failure
                 (get_logprior (Examples.sys_one_age 6)
                    (Examples.density_const (Fin 0)) v 0) upd)).
Proof.
  apply (update_returns (Examples.sys_one_age 6)).
  - repeat split; try reflexivity.
    change (trans_type (Examples.sys_one_age 6)) with (replicate 6 0%Z).
    apply Forall_replicate. lia.
  - by repeat split.
Defined.

End SweepExamples.

(* ===================================================================== *)
(** * What a step does to a parameter *)
(* ===================================================================== *)

Section NaNFacts.

Lemma add_NaN_r x : (x + NaN)%D = NaN.
Proof. by destruct x. Qed.

Lemma sub_NaN_r x : (x - NaN)%D = NaN.
Proof. by destruct x. Qed.

Lemma lt_NaN_r x : (x <? NaN)%D = false.
Proof. by destruct x. Qed.

End NaNFacts.

Section InvalidKind.

Variable s : System.

Lemma phi_prop_to_theta_prop_invalid i p k :
  trans_type s !! i = Some k → ¬ (0 ≤ k ≤ 3)%Z →
  phi_prop_to_theta_prop s i p = Stop "trans_type invalid".
Proof.
  intros Hk Hr. unfold phi_prop_to_theta_prop.
  rewrite (vget_Some _ _ _ Hk). simpl.
  destruct k as [|[[|[]|]|[]|]|]; (done || lia).
Qed.

Lemma theta_to_phi_body_invalid i p k :
  trans_type s !! i = Some k → ¬ (0 ≤ k ≤ 3)%Z →
  theta_to_phi_body s i p = Stop "trans_type invalid".
Proof.
  intros Hk Hr. unfold theta_to_phi_body.
  rewrite (vget_Some _ _ _ Hk). simpl.
  destruct k as [|[[|[]|]|[]|]|]; (done || lia).
Qed.

Lemma get_adjustment_invalid i p k :
  trans_type s !! i = Some k → ¬ (0 ≤ k ≤ 3)%Z →
  get_adjustment s i p = Stop "trans_type invalid".
Proof.
  intros Hk Hr. unfold get_adjustment.
  rewrite (vget_Some _ _ _ Hk). simpl.
  destruct k as [|[[|[]|]|[]|]|]; (done || lia).
Qed.

(** The transform of a returned proposal is the image of the proposal. *)
Lemma phi_prop_to_theta_prop_image i p k mn mx pp tp :
  trans_type s !! i = Some k →
  theta_min s !! i = Some mn → theta_max s !! i = Some mx →
  (i < length (theta_prop p))%nat → (i < length (phi_prop p))%nat →
  phi_prop_to_theta_prop s i (set_phi_prop (<[i := pp]> (phi_prop p)) p)
  = Ok (set_theta_prop (<[i := tp]> (theta_prop p))
          (set_phi_prop (<[i := pp]> (phi_prop p)) p)) →
  tp = phi_to_theta_value k mn mx pp.
Proof.
  intros Hk Hmn Hmx H1 H2 Hrun.
  destruct (decide (0 ≤ k ≤ 3)%Z) as [Hr|Hr];
    [|by rewrite (phi_prop_to_theta_prop_invalid _ _ _ Hk Hr) in Hrun].
  rewrite (phi_prop_to_theta_prop_value s i _ k mn mx pp) in Hrun;
    try done; [|simpl; by apply list_lookup_insert_eq].
  inversion Hrun as [Heq]. simpl in Heq.
  assert (Hl : <[i := phi_to_theta_value k mn mx pp]> (theta_prop p) !! i
               = <[i := tp]> (theta_prop p) !! i) by (by rewrite Heq).
  rewrite !list_lookup_insert_eq in Hl by done. by inversion Hl.
Qed.

End InvalidKind.

Section StepFacts.

Local Open Scope R_scope.

Variable s : System.
Variable cubic_spline : list double → list double → list double → list double.
Variable dbinom : double → double → double → bool → double.
Variable dnorm : double → double → double → bool → double.
Variable rng : Type.
Variable rnorm1 : double → double → rng → double * rng.
Variable runif_0_1 : rng → double * rng.

#[local] Arguments Double.add : simpl never.
#[local] Arguments Double.sub : simpl never.
#[local] Arguments Double.mul : simpl never.
#[local] Arguments Double.div : simpl never.
#[local] Arguments Double.exp : simpl never.
#[local] Arguments Double.log : simpl never.
#[local] Arguments Double.sqrt : simpl never.
#[local] Arguments Double.lt : simpl never.

Local Abbreviation update_param :=
  (update_param s cubic_spline dbinom dnorm rng rnorm1 runif_0_1).
Local Abbreviation update :=
  (update s cubic_spline dbinom dnorm rng rnorm1 runif_0_1).

(** A step on an upper-bounded parameter below its bound is a rejection:
    the adjustment factor is NaN, and [log(u) < NaN] is false. *)
Lemma update_param_kind1 beta i p g p' g' b th :
  trans_type s !! i = Some 1%Z →
  theta_max s !! i = Some (Fin b) →
  theta p !! i = Some (Fin th) → th < b →
  update_param beta i (p, g) = Ok (p', g') →
  theta p' = theta p ∧ phi p' = phi p
  ∧ loglike p' = loglike p ∧ logprior p' = logprior p
  ∧ accept_count p' = accept_count p.
Proof.
  intros Hk Hmx Hth Hlt Hstep.
  apply update_param_inv in Hstep
    as [(_ & -> & _)|(_ & tp & pp & th' & ph & ll & lp & b' & n & adj & g1
         & Hth' & _ & _ & _ & Hl & _ & _ & _ & _ & Hadj & _ & _ & Hcase)];
    [done|].
  destruct Hcase as [[Hacc _]|[_ ->]]; [|done].
  exfalso. unfold get_adjustment in Hadj.
  rewrite (vget_Some _ _ _ Hk) in Hadj. simpl in Hadj.
  rewrite (vget_Some _ _ _ Hmx), (vget_Some _ _ _ Hth) in Hadj.
  rewrite (vget_Some _ i tp) in Hadj by (by apply list_lookup_insert_eq).
  simpl in Hadj.
  rewrite sub_Fin, (log_Fin_neg (th - b)), sub_NaN_r in Hadj by lra.
  inversion Hadj; subst adj.
  by rewrite add_NaN_r, lt_NaN_r in Hacc.
Qed.

(** X8.  A parameter of transformation kind 1 that lies below its upper
    bound never moves: after a sweep [theta[i]] and [phi[i]] are as
    before, whatever the draws and the likelihood. *)
Theorem update_kind1_frozen beta p g p' g' i b th :
  trans_type s !! i = Some 1%Z →
  theta_max s !! i = Some (Fin b) →
  theta p !! i = Some (Fin th) → th < b →
  update beta (p, g) = Ok (p', g') →
  theta p' !! i = Some (Fin th) ∧ phi p' !! i = phi p !! i.
Proof.
  intros Hk Hmx Hth Hlt Hrun.
  apply (update_invariant s cubic_spline dbinom dnorm rng rnorm1 runif_0_1
    (fun _ q => theta q !! i = Some (Fin th) ∧ phi q !! i = phi p !! i)
    beta p g p' g'); [done| |done].
  intros j q h q' h' _ [E1 E2] Hstep.
  destruct (decide (j = i)) as [->|Hne].
  - destruct (update_param_kind1 _ _ _ _ _ _ _ _ Hk Hmx E1 Hlt Hstep)
      as (-> & -> & _). done.
  - apply update_param_inv in Hstep
      as [(_ & -> & _)|(_ & tp & pp & th' & ph & ll & lp & b' & n & adj & g1
           & _ & _ & _ & _ & _ & _ & _ & _ & _ & _ & _ & _ & Hcase)];
      [done|].
    destruct Hcase as [[_ ->]|[_ ->]]; simpl;
      rewrite ?list_lookup_insert_ne by done; done.
Qed.

(** X9.  A sweep keeps [theta] the image of [phi]: when every [theta[i]]
    is the transform of [phi[i]] under the kind of [i] before a sweep, the
    same holds after it. *)
Theorem update_keeps_consistent beta p g p' g' :
  consistent s p →
  update beta (p, g) = Ok (p', g') →
  consistent s p'.
Proof.
  intros Hc Hrun.
  apply (update_invariant s cubic_spline dbinom dnorm rng rnorm1 runif_0_1
    (fun _ q => consistent s q) beta p g p' g'); [done| |done].
  intros j q h q' h' _ Hq Hstep.
  apply update_param_inv in Hstep
    as [(_ & -> & _)|(_ & tp & pp & th' & ph & ll & lp & b' & n & adj & g1
         & Hth & Hph & _ & _ & L1 & L2 & _ & _ & Himg & _ & _ & _ & Hcase)];
    [done|].
  destruct Hcase as [[_ ->]|[_ ->]]; [|exact Hq].
  intros i k mn mx th ph' Hk Hmn Hmx. simpl.
  destruct (decide (i = j)) as [->|Hne].
  - rewrite !list_lookup_insert_eq
      by (by eapply lookup_lt_Some).
    intros [= <-] [= <-].
    by apply (phi_prop_to_theta_prop_image s j q k mn mx pp tp).
  - rewrite !list_lookup_insert_ne by done. by apply Hq.
Qed.

End StepFacts.

Section StepExamples.

Local Open Scope R_scope.

Local Abbreviation ex_sys := (Examples.sys 6 0 (Fin 0) (Fin 1) []).
Local Abbreviation ex_sys1 := (Examples.sys 6 1 (Fin 0) (Fin 1) []).
Local Abbreviation ex_chain := (Examples.chain 6 (Fin 0) (Fin 0) (Fin 1)).
Local Abbreviation ex_update s :=
  (update s Examples.spline_const (Examples.density_const (Fin 0))
     (Examples.density_const (Fin 0)) unit Examples.rnorm1_mean
     (Examples.runif_const (Fin 1))).
Local Abbreviation ex_update_param s :=
  (update_param s Examples.spline_const (Examples.density_const (Fin 0))
     (Examples.density_const (Fin 0)) unit Examples.rnorm1_mean
     (Examples.runif_const (Fin 1))).

Lemma example_kind_sized k mn mx :
  (0 ≤ k ≤ 3)%Z → system_sized (Examples.sys 6 k mn mx []).
Proof.
  intros Hk. repeat split; try reflexivity.
  change (trans_type (Examples.sys 6 k mn mx [])) with (replicate 6 k).
  by apply Forall_replicate.
Qed.

Lemma example_kind_loglike k mn mx v :
  length v = 6%nat →
  get_loglike (Examples.sys 6 k mn mx []) Examples.spline_const
    (Examples.density_const (Fin 0)) v 0 = Ok (Fin 0).
Proof.
  destruct v as [|a [|b [|c [|e [|f [|h [|]]]]]]]; try done.
Qed.

Lemma example_kind_sweep k mn mx :
  (0 ≤ k ≤ 3)%Z →
  ∃ p' g', ex_update (Examples.sys 6 k mn mx []) (Fin 1) (ex_chain, tt)
           = Ok (p', g').
Proof.
  intros Hk.
  destruct (update_runs (Examples.sys 6 k mn mx []) Examples.spline_const
              (Examples.density_const (Fin 0))
              (Examples.density_const (Fin 0)) unit Examples.rnorm1_mean
              (Examples.runif_const (Fin 1)) (Fin 1) ex_chain tt)
    as (p' & g' & Hrun & _).
  - by apply example_kind_sized.
  - by repeat split.
  - intros v Hv. exists (Fin 0). by apply example_kind_loglike.
  - intros v _. by exists (Fin 0).
  - by exists p', g'.
Qed.

Lemma update_kind1_frozen_witness :
  ∃ p', ex_update ex_sys1 (Fin 1) (ex_chain, tt) = Ok (p', tt)
        ∧ theta p' !! 0%nat = Some (Fin 0).
Proof.
  destruct (example_kind_sweep 1 (Fin 0) (Fin 1)) as (p' & [] & Hrun);
    [lia|].
  exists p'. split; [exact Hrun|].
  refine (proj1 (update_kind1_frozen ex_sys1 _ _ _ _ _ _ _ ex_chain tt p' tt
                   0%nat 1 0 _ _ _ _ Hrun));
    [reflexivity|reflexivity|reflexivity|lra].
Defined.

Lemma update_keeps_consistent_witness :
  ∃ p', ex_update ex_sys (Fin 1) (ex_chain, tt) = Ok (p', tt)
        ∧ consistent ex_sys p'.
Proof.
  destruct (example_kind_sweep 0 (Fin 0) (Fin 1)) as (p' & [] & Hrun);
    [lia|].
  exists p'. split; [exact Hrun|].
  refine (update_keeps_consistent ex_sys _ _ _ _ _ _ _ ex_chain tt p' tt
            _ Hrun).
  intros i k mn mx th ph Hk _ _ Hth Hph.
  cbn [trans_type theta phi Examples.sys Examples.chain] in Hk, Hth, Hph.
  apply lookup_replicate_1 in Hk as [-> _].
  apply lookup_replicate_1 in Hth as [-> _].
  apply lookup_replicate_1 in Hph as [-> _]. reflexivity.
Defined.

End StepExamples.

(* ===================================================================== *)
(** * Transformations, adjustment and initialisation *)
(* ===================================================================== *)

Section LoopStop.

Context {A : Type}.

(** A loop aborts with [msg] when the round of some index [k] aborts with
    it and the rounds before either return or abort with it. *)
Lemma for_from_stop (P : A → Prop) msg i n (body : nat → A → result A) a k :
  P a → (i ≤ k < i + n)%nat →
  (∀ j x, (i ≤ j < k)%nat → P x →
     (∃ y, body j x = Ok y ∧ P y) ∨ body j x = Stop msg) →
  (∀ x, P x → body k x = Stop msg) →
  for_from i n body a = Stop msg.
Proof.
  revert i a. induction n as [|n IH]; intros i a Ha Hk Hbefore Hat; [lia|].
  simpl. destruct (decide (i = k)) as [->|Hne].
  - by rewrite Hat.
  - destruct (Hbefore i a ltac:(lia) Ha) as [(y & -> & Hy)| ->]; [|done].
    simpl. apply IH; [done|lia| |done].
    intros j x Hj. apply Hbefore. lia.
Qed.

End LoopStop.

Section TransformFacts.

Local Open Scope R_scope.

Variable s : System.

(** [theta_to_phi] writes [phi] alone, and keeps its length. *)
Lemma theta_to_phi_frame p p' :
  theta_to_phi s p = Ok p' →
  p' = set_phi (phi p') p ∧ length (phi p') = length (phi p).
Proof.
  intros Hrun. unfold theta_to_phi, for_loop in Hrun.
  apply (for_from_invariant
    (fun _ q => q = set_phi (phi q) p ∧ length (phi q) = length (phi p))
    0 (d s)) in Hrun; [done|by destruct p|].
  intros j q q' _ [Hq Hl] Hbody.
  destruct (theta_to_phi_body_frame s _ _ _ Hbody) as (v & _ & ->).
  simpl. rewrite length_insert. split; [|done].
  rewrite Hq. by destruct p.
Qed.

(** X13.  A transformation kind outside [{0, 1, 2, 3}] aborts with
    ["trans_type invalid"]: in [phi_prop_to_theta_prop] and
    [get_adjustment] at that index, and in [theta_to_phi] as a whole when
    the vectors it reads have [d] entries. *)
Theorem invalid_kind_aborts i p k :
  trans_type s !! i = Some k → ¬ (0 ≤ k ≤ 3)%Z →
  phi_prop_to_theta_prop s i p = Stop "trans_type invalid"
  ∧ get_adjustment s i p = Stop "trans_type invalid"
  ∧ ((i < d s)%nat →
     length (trans_type s) = d s →
     length (theta_min s) = d s → length (theta_max s) = d s →
     length (theta p) = d s → length (phi p) = d s →
     theta_to_phi s p = Stop "trans_type invalid").
Proof.
  intros Hk Hr.
  split; [by eapply phi_prop_to_theta_prop_invalid|].
  split; [by eapply get_adjustment_invalid|].
  intros Hi L1 L2 L3 L4 L5. unfold theta_to_phi, for_loop.
  apply (for_from_stop
    (fun q => theta q = theta p ∧ length (phi q) = length (phi p))
    _ 0 (d s) _ p i); [done|lia| |].
  - intros j q Hj [Hq1 Hq2].
    destruct (lookup_lt_is_Some_2 (trans_type s) j) as [kj Hkj]; [lia|].
    destruct (decide (0 ≤ kj ≤ 3)%Z) as [Hv|Hv];
      [left|right; by eapply theta_to_phi_body_invalid].
    destruct (lookup_lt_is_Some_2 (theta_min s) j) as [mn Hmn]; [lia|].
    destruct (lookup_lt_is_Some_2 (theta_max s) j) as [mx Hmx]; [lia|].
    destruct (lookup_lt_is_Some_2 (theta q) j) as [th Hth];
      [rewrite Hq1; lia|].
    rewrite (theta_to_phi_body_value s _ _ _ _ _ _ Hkj Hmn Hmx Hth Hv)
      by (rewrite Hq2; lia).
    eexists. split; [done|]. simpl. by rewrite length_insert.
  - intros q _. by eapply theta_to_phi_body_invalid.
Qed.

End TransformFacts.

Section InitFacts.

Variable s : System.
Variable cubic_spline : list double → list double → list double → list double.
Variable dbinom : double → double → double → bool → double.
Variable dnorm : double → double → double → bool → double.

Local Abbreviation get_loglike := (get_loglike s cubic_spline dbinom).
Local Abbreviation get_logprior := (get_logprior s dnorm).
Local Abbreviation init := (init s cubic_spline dbinom dnorm).

(** The allocations succeed when [max_indlevel_age + 1] is not negative
    and throw otherwise. *)
Lemma init_scratch_returns :
  (-1 ≤ max_indlevel_age s)%Z → init_scratch s = Ok tt.
Proof.
  intros H. unfold init_scratch, new_vector.
  destruct (max_indlevel_age s + 1 <? 0)%Z eqn:E;
    [apply Z.ltb_lt in E; lia|done].
Qed.

Lemma init_scratch_throws :
  (max_indlevel_age s < -1)%Z → init_scratch s = Stop length_error.
Proof.
  intros H. unfold init_scratch, new_vector.
  destruct (max_indlevel_age s + 1 <? 0)%Z eqn:E;
    [done|apply Z.ltb_ge in E; lia].
Qed.

(** X15.  With [max_indlevel_age < -1] the first allocation of [init]
    throws [std::length_error] and nothing is initialised.  With
    [max_indlevel_age >= -1], on a sized system whose initial vector has
    [d] entries, and when the likelihood and the prior return there,
    [init] returns the chain at [theta_init]: [phi] holds the transforms
    of [theta_init], [loglike] and [logprior] its likelihood and prior,
    every bandwidth and every counter is 1, [accept_count] is 0 and every
    vector has [d] entries; [beta_raised] is the one of the object before
    the call. *)
Theorem init_establishes self :
  ((max_indlevel_age s < -1)%Z → init self = Stop length_error)
  ∧ (∀ ll lp,
       (-1 ≤ max_indlevel_age s)%Z →
       system_sized s → length (theta_init s) = d s →
       get_loglike (theta_init s) 0 = Ok ll →
       get_logprior (theta_init s) 0 = Ok lp →
       ∃ p, init self = Ok p
            ∧ theta p = theta_init s ∧ loglike p = ll ∧ logprior p = lp
            ∧ bw p = replicate (d s) (Fin 1)
            ∧ bw_index p = replicate (d s) 1%Z
            ∧ bw_stepsize p = Fin 1 ∧ accept_count p = 0%Z
            ∧ beta_raised p = beta_raised self
            ∧ vectors_sized s p
            ∧ (∀ i k mn mx th,
                 trans_type s !! i = Some k →
                 theta_min s !! i = Some mn → theta_max s !! i = Some mx →
                 theta_init s !! i = Some th →
                 phi p !! i = Some (theta_to_phi_value k mn mx th))).
Proof.
  split.
  { intros H. unfold Model.init. by rewrite init_scratch_throws. }
  intros ll lp Hage (S1 & S2 & S3 & S4 & S5) Hlen Hll Hlp. unfold Model.init.
  rewrite init_scratch_returns by done. cbn [mbind result_bind].
  match goal with |- context [theta_to_phi s ?q] => set (p0 := q) end.
  destruct (theta_to_phi_total s p0) as [p1 Hrun].
  { repeat split; simpl; rewrite ?length_replicate; done. }
  destruct (theta_to_phi_frame s _ _ Hrun) as [Hp1 Hl1].
  rewrite Hrun. cbn [mbind result_bind].
  assert (Hth : theta p1 = theta_init s) by (by rewrite Hp1).
  rewrite Hth, Hll. cbn [mbind result_bind theta set_loglike].
  rewrite Hth, Hlp. cbn [mbind result_bind].
  eexists. split; [done|]. rewrite Hp1. simpl.
  repeat (split; [done|]).
  split.
  - repeat split; simpl; rewrite ?length_replicate; try done.
    rewrite Hl1. simpl. by rewrite length_replicate.
  - intros i k mn mx th Hk Hmn Hmx Hi.
    assert (Hid : (i < d s)%nat)
      by (rewrite <- Hlen; by eapply lookup_lt_Some).
    pose proof (proj1 (Forall_lookup _ _) S3 _ _ Hk) as Hr. simpl in Hr.
    by destruct (theta_to_phi_at s i p0 p1 k mn mx th Hid Hk Hmn Hmx Hi Hr
                   Hrun) as [-> _].
Qed.

End InitFacts.

Section TransformExamples.

Local Open Scope R_scope.

Lemma invalid_kind_aborts_witness :
  theta_to_phi (Examples.sys 1 7 (Fin 0) (Fin 1) [])
    (Examples.chain 1 (Fin 0) (Fin 0) (Fin 1))
  = Stop "trans_type invalid".
Proof.
  apply (proj2 (proj2 (invalid_kind_aborts
           (Examples.sys 1 7 (Fin 0) (Fin 1) []) 0
           (Examples.chain 1 (Fin 0) (Fin 0) (Fin 1)) 7 eq_refl
           ltac:(lia))));
    (reflexivity || (simpl; lia)).
Defined.

Lemma init_establishes_witness :
  ∃ p, init (Examples.sys 6 0 (Fin 0) (Fin 1) []) Examples.spline_const
         (Examples.density_const (Fin 0)) (Examples.density_const (Fin 0))
         (Examples.chain 6 (Fin 5) (Fin 5) (Fin 1)) = Ok p
       ∧ theta p = replicate 6 (Fin 0) ∧ loglike p = Fin 0.
Proof.
  destruct (proj2 (init_establishes (Examples.sys 6 0 (Fin 0) (Fin 1) [])
              Examples.spline_const (Examples.density_const (Fin 0))
              (Examples.density_const (Fin 0))
              (Examples.chain 6 (Fin 5) (Fin 5) (Fin 1))) (Fin 0) (Fin 0))
    as (p & Hrun & Hth & Hll & _).
  - simpl. lia.
  - apply example_kind_sized. lia.
  - reflexivity.
  - reflexivity.
  - reflexivity.
  - exists p. split; [exact Hrun|]. split; [exact Hth|exact Hll].
Defined.

End TransformExamples.

(* ===================================================================== *)
(** * Layout of the parameter vector *)
(* ===================================================================== *)

Section Layout.

Variable s : System.
Variable cubic_spline : list double → list double → list double → list double.
Variable dbinom : double → double → double → bool → double.
Variable dnorm : double → double → double → bool → double.

Local Abbreviation N := (n_node s).

Lemma vget_total (v : list double) i :
  (i < length v)%nat → vget v i = Ok (v !!! i).
Proof.
  intros H. apply vget_Some. by apply list_lookup_lookup_total_lt.
Qed.

Lemma vget_short {A} (v : list A) i :
  (length v ≤ i)%nat → vget v i = Undef.
Proof. intros H. unfold vget. by rewrite lookup_ge_None_2. Qed.

(** The unpacking loop from its round [j] on. *)
Lemma unpack_from theta pi j m :
  (j + m = N)%nat → (pi + N ≤ length theta)%nat →
  for_from j m
    (fun (i : nat) '((node, pi) : list double * nat) =>
       x ← vget theta pi; node' ← vset node i x; Ok (node', S pi))
    (take j (drop pi theta) ++ replicate m (Fin 0), (pi + j)%nat)
  = Ok (take N (drop pi theta), (pi + N)%nat).
Proof.
  revert j. induction m as [|m IH]; intros j Hjm Hfit.
  - simpl. rewrite Nat.add_0_r in Hjm. subst j. by rewrite app_nil_r.
  - rewrite for_from_S.
    destruct (lookup_lt_is_Some_2 theta (pi + j)) as [x Hx]; [lia|].
    rewrite (vget_Some _ _ _ Hx). cbn [mbind result_bind].
    assert (Hlen : length (take j (drop pi theta)) = j)
      by (rewrite length_take_le; [done|rewrite length_drop; lia]).
    rewrite vset_Ok by (rewrite length_app, Hlen; simpl; lia).
    cbn [mbind result_bind].
    rewrite insert_app_r_alt by lia. rewrite Hlen, Nat.sub_diag. simpl.
    rewrite (cons_middle x), app_assoc.
    rewrite <- (take_S_r (drop pi theta) j x) by (by rewrite lookup_drop).
    replace (S (pi + j)) with (pi + S j)%nat by lia.
    apply IH; [lia|done].
Qed.

Lemma unpack_nodes_slice theta pi :
  (pi + N ≤ length theta)%nat →
  unpack_nodes s theta pi = Ok (take N (drop pi theta), (pi + N)%nat).
Proof.
  intros Hfit. unfold unpack_nodes, for_loop.
  rewrite <- (unpack_from theta pi 0 N) by (done || lia).
  by rewrite Nat.add_0_r.
Qed.

(** One block: from the start of block [k] the loop returns the block and
    the start of the next. *)
Lemma unpack_group theta k :
  (S k * N ≤ length theta)%nat →
  unpack_nodes s theta (k * N)
  = Ok (node_group s theta k, (S k * N)%nat).
Proof.
  intros Hfit. rewrite unpack_nodes_slice by lia.
  unfold node_group. do 2 f_equal. lia.
Qed.

(** The loop reads past the end of a vector that is too short. *)
Lemma unpack_short_from theta pi j m node :
  length node = N → (j + m = N)%nat →
  (length theta < pi + j + m)%nat → (0 < m)%nat →
  for_from j m
    (fun (i : nat) '((node, pi) : list double * nat) =>
       x ← vget theta pi; node' ← vset node i x; Ok (node', S pi))
    (node, (pi + j)%nat)
  = Undef.
Proof.
  revert j node. induction m as [|m IH]; intros j node Hn Hjm Hlen Hm;
    [lia|].
  rewrite for_from_S.
  destruct (decide (length theta ≤ pi + j)%nat) as [Hge|Hlt].
  - by rewrite vget_short.
  - destruct (lookup_lt_is_Some_2 theta (pi + j)) as [x Hx]; [lia|].
    rewrite (vget_Some _ _ _ Hx). cbn [mbind result_bind].
    rewrite vset_Ok by lia. cbn [mbind result_bind].
    replace (S (pi + j)) with (pi + S j)%nat by lia.
    apply IH; [by rewrite length_insert|lia|lia|lia].
Qed.

Lemma unpack_group_short theta k :
  (length theta < S k * N)%nat →
  unpack_nodes s theta (k * N) = Undef.
Proof.
  intros Hlen. unfold unpack_nodes, for_loop.
  rewrite <- (Nat.add_0_r (k * N)).
  apply unpack_short_from; [by rewrite length_replicate|done|lia|lia].
Qed.

(** X16.  On a vector of at least [9*n_node + 6] entries the unpacking of
    [get_loglike] returns: the nine node vectors are the nine consecutive
    blocks of [n_node] entries, each curve is the spline through its block
    mapped into [(0, 1)] or [(0, 20)], and the six coefficients of
    variation are the six entries that follow the blocks. *)
Theorem get_curves_layout theta :
  (9 * N + 6 ≤ length theta)%nat →
  get_curves s cubic_spline theta = Ok (curves_of s cubic_spline theta).
Proof.
  intros Hlen. unfold get_curves.
  change (unpack_nodes s theta 0) with (unpack_nodes s theta (0 * N)).
  rewrite (unpack_group theta 0) by lia. cbn [mbind result_bind].
  rewrite (unpack_group theta 1) by lia. cbn [mbind result_bind].
  rewrite (unpack_group theta 2) by lia. cbn [mbind result_bind].
  rewrite (unpack_group theta 3) by lia. cbn [mbind result_bind].
  rewrite (unpack_group theta 4) by lia. cbn [mbind result_bind].
  rewrite (unpack_group theta 5) by lia. cbn [mbind result_bind].
  rewrite (unpack_group theta 6) by lia. cbn [mbind result_bind].
  rewrite (unpack_group theta 7) by lia. cbn [mbind result_bind].
  rewrite (unpack_group theta 8) by lia. cbn [mbind result_bind].
  rewrite !vget_total by lia. done.
Qed.

(** X17.  A vector of fewer than [9*n_node + 6] entries makes
    [get_loglike] read past its end, and one of fewer than [9*n_node]
    entries does the same to [get_logprior]: the result is undefined, not
    an abort. *)
Theorem short_vector_undefined theta i :
  ((length theta < 9 * N + 6)%nat →
     get_loglike s cubic_spline dbinom theta i = Undef)
  ∧ ((length theta < 9 * N)%nat →
     get_logprior s dnorm theta i = Undef).
Proof.
  assert (Hstage : ∀ k, (S k * N ≤ length theta)%nat
                        ∨ (length theta < S k * N)%nat) by (intros; lia).
  split; intros Hlen.
  - unfold get_loglike, get_curves.
    change (unpack_nodes s theta 0) with (unpack_nodes s theta (0 * N)).
    do 9 (match goal with
          | |- context [unpack_nodes s theta (?k * N)] =>
              let Hk := fresh "Hk" in
              destruct (Hstage k) as [Hk|Hk];
              [rewrite (unpack_group theta k Hk); cbn [mbind result_bind]
              |by rewrite (unpack_group_short theta k Hk)]
          end).
    repeat (match goal with
            | |- context [vget theta ?j] =>
                let Hj := fresh "Hj" in
                destruct (decide (j < length theta)%nat) as [Hj|Hj];
                [rewrite (vget_total theta j Hj); cbn [mbind result_bind]
                |rewrite (vget_short theta j) by lia; done]
            end).
    lia.
  - unfold get_logprior.
    change (unpack_nodes s theta 0) with (unpack_nodes s theta (0 * N)).
    do 9 (try match goal with
          | |- context [unpack_nodes s theta (?k * N)] =>
              let Hk := fresh "Hk" in
              destruct (Hstage k) as [Hk|Hk];
              [rewrite (unpack_group theta k Hk); cbn [mbind result_bind]
              |by rewrite (unpack_group_short theta k Hk)]
          end).
    lia.
Qed.

End Layout.

(* ===================================================================== *)
(** * Prior and likelihood on their inputs *)
(* ===================================================================== *)

Section PriorFacts.

Variable s : System.
Variable cubic_spline : list double → list double → list double → list double.
Variable dbinom : double → double → double → bool → double.
Variable dnorm : double → double → double → bool → double.

Local Abbreviation N := (n_node s).
Local Abbreviation group_prior := (group_prior s dnorm (Fin 0.5)).

(** [get_logprior] as the nine loops over the nine blocks. *)
Lemma get_logprior_groups theta i :
  (9 * N ≤ length theta)%nat →
  get_logprior s dnorm theta i
  = (ret ← group_prior (node_group s theta 0) (Fin 0);
     ret ← group_prior (node_group s theta 1) ret;
     ret ← group_prior (node_group s theta 2) ret;
     ret ← group_prior (node_group s theta 3) ret;
     ret ← group_prior (node_group s theta 4) ret;
     ret ← group_prior (node_group s theta 5) ret;
     ret ← group_prior (node_group s theta 6) ret;
     ret ← group_prior (node_group s theta 7) ret;
     ret ← group_prior (node_group s theta 8) ret;
     Ok ret).
Proof.
  intros Hlen. unfold get_logprior.
  change (unpack_nodes s theta 0) with (unpack_nodes s theta (0 * N)).
  rewrite (unpack_group s theta 0) by lia. cbn [mbind result_bind].
  rewrite (unpack_group s theta 1) by lia. cbn [mbind result_bind].
  rewrite (unpack_group s theta 2) by lia. cbn [mbind result_bind].
  rewrite (unpack_group s theta 3) by lia. cbn [mbind result_bind].
  rewrite (unpack_group s theta 4) by lia. cbn [mbind result_bind].
  rewrite (unpack_group s theta 5) by lia. cbn [mbind result_bind].
  rewrite (unpack_group s theta 6) by lia. cbn [mbind result_bind].
  rewrite (unpack_group s theta 7) by lia. cbn [mbind result_bind].
  rewrite (unpack_group s theta 8) by lia. cbn [mbind result_bind].
  done.
Qed.

(** A block lies within the first [9*n_node] entries. *)
Lemma node_group_take theta k :
  (k < 9)%nat →
  node_group s (take (9 * N) theta) k = node_group s theta k.
Proof.
  intros Hk. unfold node_group.
  rewrite !take_drop_commute, take_take. do 2 f_equal.
  do 9 (destruct k as [|k]; [simpl; lia|]). lia.
Qed.

(** X18.  The prior does not read the coefficients of variation: two
    vectors that agree on their first [9*n_node] entries have the same
    [get_logprior]. *)
Theorem get_logprior_ignores_cv theta theta' i j :
  (9 * N ≤ length theta)%nat → (9 * N ≤ length theta')%nat →
  take (9 * N) theta = take (9 * N) theta' →
  get_logprior s dnorm theta i = get_logprior s dnorm theta' j.
Proof.
  intros H1 H2 Heq. rewrite !get_logprior_groups by done.
  assert (Hg : ∀ k, (k < 9)%nat → node_group s theta k = node_group s theta' k).
  { intros k Hk. by rewrite <- (node_group_take theta k Hk), Heq,
      node_group_take. }
  by rewrite !Hg by lia.
Qed.

(** One node: the loop adds the logistic log-density of the node. *)
Lemma group_prior_one x ret :
  N = 1%nat → group_prior [x] ret = Ok (ret + logistic_logdensity x)%D.
Proof. intros HN. unfold Model.group_prior. by rewrite HN. Qed.

(** No node: the loop adds nothing. *)
Lemma group_prior_none node ret :
  N = 0%nat → group_prior node ret = Ok ret.
Proof. intros HN. unfold Model.group_prior. by rewrite HN. Qed.

(** X19.  With one node per spline the prior is the sum of the logistic
    log-densities of the first nine entries, and [R::dnorm] is never
    called; with no node it is [0]. *)
Theorem get_logprior_single_node theta i :
  (N = 1%nat → (9 ≤ length theta)%nat →
     get_logprior s dnorm theta i
     = Ok (Fin 0 + logistic_logdensity (theta !!! 0%nat)
           + logistic_logdensity (theta !!! 1%nat)
           + logistic_logdensity (theta !!! 2%nat)
           + logistic_logdensity (theta !!! 3%nat)
           + logistic_logdensity (theta !!! 4%nat)
           + logistic_logdensity (theta !!! 5%nat)
           + logistic_logdensity (theta !!! 6%nat)
           + logistic_logdensity (theta !!! 7%nat)
           + logistic_logdensity (theta !!! 8%nat))%D)
  ∧ (N = 0%nat → get_logprior s dnorm theta i = Ok (Fin 0)).
Proof.
  split; intros HN.
  - intros Hlen. rewrite get_logprior_groups by lia.
    assert (Hg : ∀ k, (k < 9)%nat → node_group s theta k = [theta !!! k]).
    { intros k Hk. unfold node_group. rewrite HN, Nat.mul_1_r.
      rewrite (take_S_r _ 0 (theta !!! k)); [done|].
      rewrite lookup_drop, Nat.add_0_r.
      apply list_lookup_lookup_total_lt. lia. }
    rewrite !Hg by lia.
    repeat (rewrite group_prior_one by done; cbn [mbind result_bind]).
    done.
  - rewrite get_logprior_groups by lia.
    repeat (rewrite group_prior_none by done; cbn [mbind result_bind]).
    done.
Qed.

End PriorFacts.

Section LikelihoodFacts.

Local Open Scope R_scope.

Variable s : System.
Variable cubic_spline : list double → list double → list double → list double.
Variable dbinom : double → double → double → bool → double.

(** X20.  Without ages ([max_indlevel_age < 0]) the likelihood of every
    vector of at least [9*n_node + 6] entries is [0]. *)
Theorem get_loglike_no_age theta i :
  (max_indlevel_age s < 0)%Z →
  (9 * n_node s + 6 ≤ length theta)%nat →
  get_loglike s cubic_spline dbinom theta i = Ok (Fin 0).
Proof.
  intros Hage Hlen. unfold get_loglike.
  rewrite get_curves_layout by done. cbn [mbind result_bind].
  unfold n_age. by replace (Z.to_nat (max_indlevel_age s + 1)) with 0%nat
    by lia.
Qed.

(** The loop over the days of one delay type, on a row without positive
    count. *)
Lemma delay_loop_no_counts cnt m sd i ret j n :
  Forall (fun t => (t ≤ 0)%Z) cnt → (j + n ≤ length cnt)%nat →
  for_from j n
    (fun (j : nat) (ret : double) =>
       tmp ← vget cnt j;
       if (0 <? tmp)%Z then
         mi ← vget m i;
         dens ← get_delay_density s (Z.of_nat j) mi sd;
         Ok (ret + of_int tmp * log dens)%D
       else Ok ret)
    ret
  = Ok ret.
Proof.
  intros Hall. revert j. induction n as [|n IH]; intros j Hj; [done|].
  rewrite for_from_S.
  destruct (lookup_lt_is_Some_2 cnt j) as [tmp Htmp]; [lia|].
  rewrite (vget_Some _ _ _ Htmp). cbn [mbind result_bind].
  pose proof (proj1 (Forall_lookup _ _) Hall _ _ Htmp) as Hle. simpl in Hle.
  destruct (0 <? tmp)%Z eqn:E; [apply Z.ltb_lt in E; lia|].
  cbn [mbind result_bind]. apply IH. lia.
Qed.

(** X21.  The lookup range is enforced only for days with a positive
    count: on a row without positive count the loop over the days of a
    delay type leaves the running sum as it is, whatever the mean and the
    coefficient of variation; and a row whose first positive count meets
    an aborting lookup aborts the loop with the message of the lookup. *)
Theorem delay_term_counts count m sd i ret cnt :
  count !! i = Some cnt →
  (Forall (fun t => (t ≤ 0)%Z) cnt →
     delay_term s count m sd i ret = Ok ret)
  ∧ (∀ j tmp mi,
       Forall (fun t => (t ≤ 0)%Z) (take j cnt) →
       cnt !! j = Some tmp → (0 < tmp)%Z →
       m !! i = Some mi →
       get_delay_density s (Z.of_nat j) mi sd = Stop "" →
       delay_term s count m sd i ret = Stop "").
Proof.
  intros Hcnt. unfold delay_term. rewrite (vget_Some _ _ _ Hcnt).
  cbn [mbind result_bind]. split.
  - intros Hall. unfold for_loop. by apply delay_loop_no_counts.
  - intros j tmp mi Hbefore Htmp Hpos Hmi Hstop. unfold for_loop.
    pose proof (lookup_lt_Some _ _ _ Htmp) as Hj.
    apply (for_from_stop (fun x => x = ret) "" 0 (length cnt) _ ret j);
      [done|lia| |].
    + intros k x Hk ->. left. exists ret. split; [|done].
      destruct (lookup_lt_is_Some_2 cnt k) as [t Ht]; [lia|].
      rewrite (vget_Some _ _ _ Ht). cbn [mbind result_bind].
      assert (Hle : (t ≤ 0)%Z).
      { apply (proj1 (Forall_lookup _ _) Hbefore k t).
        rewrite lookup_take_lt by lia. done. }
      by destruct (0 <? t)%Z eqn:E; [apply Z.ltb_lt in E; lia|].
    + intros x ->. rewrite (vget_Some _ _ _ Htmp). cbn [mbind result_bind].
      apply Z.ltb_lt in Hpos. rewrite Hpos.
      rewrite (vget_Some _ _ _ Hmi). cbn [mbind result_bind].
      by rewrite Hstop.
Qed.

End LikelihoodFacts.

Section LayoutExamples.

Lemma get_curves_layout_witness :
  get_curves Examples.sys_one_node Examples.spline_const
    (replicate 15 (Fin 0))
  = Ok (curves_of Examples.sys_one_node Examples.spline_const
          (replicate 15 (Fin 0))).
Proof. apply get_curves_layout. simpl. lia. Defined.

Lemma short_vector_undefined_witness :
  get_loglike Examples.sys_one_node Examples.spline_const
    (Examples.density_const (Fin 0)) (replicate 14 (Fin 0)) 0 = Undef.
Proof.
  apply (proj1 (short_vector_undefined Examples.sys_one_node
                  Examples.spline_const (Examples.density_const (Fin 0))
                  (Examples.density_const (Fin 0)) (replicate 14 (Fin 0)) 0)).
  simpl. lia.
Defined.

Lemma get_logprior_ignores_cv_witness :
  get_logprior Examples.sys_one_node (Examples.density_const (Fin 0))
    (replicate 9 (Fin 0) ++ replicate 6 (Fin 1)) 0
  = get_logprior Examples.sys_one_node (Examples.density_const (Fin 0))
      (replicate 9 (Fin 0) ++ replicate 6 (Fin 2)) 3.
Proof.
  apply get_logprior_ignores_cv; [simpl; lia|simpl; lia|reflexivity].
Defined.

Lemma get_logprior_single_node_witness :
  get_logprior Examples.sys_one_node (Examples.density_const NaN)
    (replicate 15 (Fin 0)) 0
  = Ok (Fin 0 + logistic_logdensity (Fin 0) + logistic_logdensity (Fin 0)
        + logistic_logdensity (Fin 0) + logistic_logdensity (Fin 0)
        + logistic_logdensity (Fin 0) + logistic_logdensity (Fin 0)
        + logistic_logdensity (Fin 0) + logistic_logdensity (Fin 0)
        + logistic_logdensity (Fin 0))%D.
Proof.
  apply (proj1 (get_logprior_single_node Examples.sys_one_node
                  (Examples.density_const NaN) (replicate 15 (Fin 0)) 0));
    [reflexivity|simpl; lia].
Defined.

Lemma get_loglike_no_age_witness :
  get_loglike Examples.sys_one_node Examples.spline_const
    (Examples.density_const NaN) (replicate 15 (Fin 1)) 0 = Ok (Fin 0).
Proof. apply get_loglike_no_age; simpl; lia. Defined.

Lemma delay_term_counts_witness :
  delay_term (Examples.sys 0 0 (Fin 0) (Fin 1) []) [[0%Z; 3%Z]] [Fin 25]
    (Fin 0) 0 (Fin 0)
  = Stop "".
Proof.
  apply (proj2 (delay_term_counts (Examples.sys 0 0 (Fin 0) (Fin 1) [])
                  [[0%Z; 3%Z]] [Fin 25] (Fin 0) 0%nat (Fin 0) [0%Z; 3%Z]
                  eq_refl) 1%nat 3%Z (Fin 25)).
  - repeat constructor. lia.
  - reflexivity.
  - lia.
  - reflexivity.
  - apply delay_at_25.
Defined.

End LayoutExamples.

(* ===================================================================== *)
(** * A pass of the coupling *)
(* ===================================================================== *)

Section CouplingPass.

Local Open Scope R_scope.

Variable rng : Type.
Variable runif_0_1 : rng → double * rng.

#[local] Arguments Double.add : simpl never.
#[local] Arguments Double.sub : simpl never.
#[local] Arguments Double.mul : simpl never.
#[local] Arguments Double.log : simpl never.
#[local] Arguments Double.lt : simpl never.

Local Abbreviation coupling_step := (coupling_step rng runif_0_1).
Local Abbreviation coupling := (coupling rng runif_0_1).

(** Every way a step of the pass can return. *)
Lemma coupling_step_inv i pv acc g pv' acc' g' :
  coupling_step i (pv, acc, g) = Ok (pv', acc', g') →
  ∃ p1 p2,
    pv !! i = Some p1 ∧ pv !! (i + 1)%nat = Some p2
    ∧ g' = (runif_0_1 g).2
    ∧ ((log (runif_0_1 g).1 <? acceptance p1 p2)%D = true
       ∧ (∃ c, acc !! i = Some c ∧ acc' = <[i := (c + 1)%Z]> acc)
       ∧ pv' = <[(i + 1)%nat := with_state_of p2 p1]>
                 (<[i := with_state_of p1 p2]> pv)
       ∨ (log (runif_0_1 g).1 <? acceptance p1 p2)%D = false
         ∧ acc' = acc ∧ pv' = pv).
Proof.
  unfold Tempering.coupling_step. intros H.
  apply bind_Ok_inv in H as (p1 & H1 & H).
  apply bind_Ok_inv in H as (p2 & H2 & H).
  apply vget_Ok_inv in H1, H2.
  exists p1, p2. destruct (runif_0_1 g) as [u g1]. cbn [fst snd].
  destruct (log u <? acceptance p1 p2)%D.
  - rewrite (swap_rungs_closed _ i (i + 1) p1 p2) in H by (done || lia).
    cbn [mbind result_bind] in H.
    apply bind_Ok_inv in H as (a & Ha & H). unfold vmodify in Ha.
    apply bind_Ok_inv in Ha as (c & Hc & Ha). apply vget_Ok_inv in Hc.
    apply vset_Ok_inv in Ha as [_ ->]. inversion H; subst.
    repeat split; try done. left. repeat split; eauto.
  - inversion H; subst. repeat split; try done. by right.
Qed.

(** Invariant rule for a pass. *)
Lemma coupling_invariant (Q : nat → list Particle * list Z * rng → Prop)
    st st' :
  Q 0%nat st →
  (∀ i x y, (i < length st.1.1 - 1)%nat → Q i x →
     coupling_step i x = Ok y → Q (S i) y) →
  coupling st = Ok st' →
  Q (length st.1.1 - 1)%nat st'.
Proof.
  intros H0 Hstep Hrun. unfold Tempering.coupling, for_loop in Hrun.
  apply (for_from_invariant Q 0 (length st.1.1 - 1)) in Hrun; [done|done|].
  intros j x y Hj. apply Hstep. lia.
Qed.

(** X23.  Swapping the same two rungs twice gives the ensemble back. *)
Theorem swap_rungs_twice (particle_vec : list Particle) i j p1 p2 :
  i ≠ j →
  particle_vec !! i = Some p1 → particle_vec !! j = Some p2 →
  swap_rungs i j particle_vec ≫= swap_rungs i j = Ok particle_vec.
Proof.
  intros Hij H1 H2.
  pose proof (lookup_lt_Some _ _ _ H1) as Hi.
  pose proof (lookup_lt_Some _ _ _ H2) as Hj.
  rewrite (swap_rungs_closed _ i j p1 p2) by done. cbn [mbind result_bind].
  rewrite (swap_rungs_closed _ i j (with_state_of p1 p2)
             (with_state_of p2 p1)); [|done| |].
  - f_equal.
    rewrite (list_insert_insert_ne _ i j) by done.
    rewrite !list_insert_insert_eq.
    replace (with_state_of (with_state_of p1 p2) (with_state_of p2 p1))
      with p1 by (by destruct p1, p2).
    replace (with_state_of (with_state_of p2 p1) (with_state_of p1 p2))
      with p2 by (by destruct p1, p2).
    rewrite (list_insert_id _ _ _ H1). by apply list_insert_id.
  - rewrite list_lookup_insert_ne by done.
    by apply list_lookup_insert_eq.
  - apply list_lookup_insert_eq. by rewrite length_insert.
Qed.

(** X24.  A pass keeps the number of rungs and the length of [mc_accept],
    and leaves with every rung what belongs to the rung: its proposal
    buffers, bandwidths, counters, step size, acceptance count and
    inverse-temperature power. *)
Theorem coupling_keeps_rungs pv acc g pv' acc' g' :
  coupling (pv, acc, g) = Ok (pv', acc', g') →
  length pv' = length pv ∧ length acc' = length acc
  ∧ rung_of <$> pv' = rung_of <$> pv.
Proof.
  intros Hrun.
  apply (coupling_invariant (fun _ x =>
    length x.1.1 = length pv ∧ length x.1.2 = length acc
    ∧ rung_of <$> x.1.1 = rung_of <$> pv) (pv, acc, g) (pv', acc', g'));
    [done| |done].
  intros i [[v a] h] [[v' a'] h'] _ (L1 & L2 & Hr) Hstep. simpl in *.
  apply coupling_step_inv in Hstep
    as (p1 & p2 & H1 & H2 & _ & [(_ & (c & _ & ->) & ->)|(_ & -> & ->)]);
    [|done].
  rewrite !length_insert. split; [done|]. split; [done|].
  rewrite <- Hr.
  rewrite !list_fmap_insert.
  change (rung_of (with_state_of p2 p1)) with (rung_of p2).
  change (rung_of (with_state_of p1 p2)) with (rung_of p1).
  rewrite (list_insert_id (rung_of <$> v) i (rung_of p1))
    by (by rewrite list_lookup_fmap, H1).
  apply list_insert_id. by rewrite list_lookup_fmap, H2.
Qed.

(** Exchanging two neighbouring entries of a list permutes it. *)
Lemma insert_swap_Permutation {A} (l : list A) i a b :
  l !! i = Some a → l !! (i + 1)%nat = Some b →
  <[(i + 1)%nat := a]> (<[i := b]> l) ≡ₚ l.
Proof.
  revert i. induction l as [|x l IH]; intros i Ha Hb; [done|].
  destruct i as [|i]; simpl in *.
  - destruct l as [|y l]; [done|]. simpl in *.
    inversion Ha; inversion Hb; subst. apply perm_swap.
  - f_equiv. by apply IH.
Qed.

(** X25.  A pass permutes the positions of the ensemble: the states
    [(theta, phi, loglike, logprior)] of the rungs after the pass are those
    before it, in another order. *)
Theorem coupling_permutes_states pv acc g pv' acc' g' :
  coupling (pv, acc, g) = Ok (pv', acc', g') →
  state_of <$> pv' ≡ₚ state_of <$> pv.
Proof.
  intros Hrun.
  apply (coupling_invariant (fun _ x =>
    state_of <$> x.1.1 ≡ₚ state_of <$> pv) (pv, acc, g) (pv', acc', g'));
    [done| |done].
  intros i [[v a] h] [[v' a'] h'] _ Hp Hstep. simpl in *.
  apply coupling_step_inv in Hstep
    as (p1 & p2 & H1 & H2 & _ & [(_ & (c & _ & ->) & ->)|(_ & -> & ->)]);
    [|done].
  rewrite <- Hp. rewrite !list_fmap_insert.
  change (state_of (with_state_of p2 p1)) with (state_of p1).
  change (state_of (with_state_of p1 p2)) with (state_of p2).
  apply insert_swap_Permutation; by rewrite list_lookup_fmap, ?H1, ?H2.
Qed.

(** X26.  A pass over [rungs] rungs draws exactly [rungs - 1] uniform
    numbers, whatever it accepts. *)
Theorem coupling_draws pv acc g pv' acc' g' :
  coupling (pv, acc, g) = Ok (pv', acc', g') →
  g' = draws runif_0_1 (length pv - 1) g.
Proof.
  intros Hrun.
  apply (coupling_invariant (fun j x => x.2 = draws runif_0_1 j g)
           (pv, acc, g) (pv', acc', g')); [done| |done].
  intros i [[v a] h] [[v' a'] h'] _ Hg Hstep. simpl in *.
  apply coupling_step_inv in Hstep as (p1 & p2 & _ & _ & -> & _).
  by rewrite Hg.
Qed.

(** X27.  A pass raises every entry of [mc_accept] by zero or one. *)
Theorem coupling_counts pv acc g pv' acc' g' i c :
  acc !! i = Some c →
  coupling (pv, acc, g) = Ok (pv', acc', g') →
  ∃ c', acc' !! i = Some c' ∧ (c ≤ c' ≤ c + 1)%Z.
Proof.
  intros Hc Hrun.
  assert (H : ∃ c', acc' !! i = Some c'
                    ∧ (c ≤ c' ≤ c + 1)%Z
                    ∧ ((length pv - 1 ≤ i)%nat → c' = c));
    [|destruct H as (c' & ? & ? & _); eauto].
  apply (coupling_invariant (fun j x =>
    ∃ c', x.1.2 !! i = Some c' ∧ (c ≤ c' ≤ c + 1)%Z
          ∧ ((j ≤ i)%nat → c' = c)) (pv, acc, g) (pv', acc', g'));
    [exists c; repeat split; (done || lia)| |done].
  intros j [[v a] h] [[v' a'] h'] _ (c' & Hc' & Hb & Hsame) Hstep.
  simpl in *.
  apply coupling_step_inv in Hstep
    as (p1 & p2 & _ & _ & _ & [(_ & (c0 & Hc0 & ->) & _)|(_ & -> & _)]).
  - destruct (decide (j = i)) as [->|Hne].
    + rewrite Hc' in Hc0. inversion Hc0; subst c0.
      exists (c' + 1)%Z. rewrite list_lookup_insert_eq
        by (by eapply lookup_lt_Some).
      rewrite (Hsame ltac:(lia)). split; [done|]. split; lia.
    + exists c'. rewrite list_lookup_insert_ne by done.
      split; [done|]. split; [lia|]. intros. apply Hsame. lia.
  - exists c'. split; [done|]. split; [lia|]. intros. apply Hsame. lia.
Qed.

(** A step returns when both rungs and the counter of the pair exist. *)
Lemma coupling_step_returns i pv acc g :
  (i + 1 < length pv)%nat → (i < length acc)%nat →
  ∃ pv' acc' g', coupling_step i (pv, acc, g) = Ok (pv', acc', g')
                 ∧ length pv' = length pv ∧ length acc' = length acc.
Proof.
  intros Hi Ha.
  destruct (lookup_lt_is_Some_2 pv i) as [p1 H1]; [lia|].
  destruct (lookup_lt_is_Some_2 pv (i + 1)) as [p2 H2]; [lia|].
  destruct (lookup_lt_is_Some_2 acc i) as [c Hc]; [lia|].
  unfold Tempering.coupling_step.
  rewrite (vget_Some _ _ _ H1), (vget_Some _ _ _ H2).
  cbn [mbind result_bind]. destruct (runif_0_1 g) as [u g1].
  destruct (log u <? acceptance p1 p2)%D; [|by eexists _, _, _].
  rewrite (swap_rungs_closed _ i (i + 1) p1 p2) by (done || lia).
  cbn [mbind result_bind]. unfold vmodify.
  rewrite (vget_Some _ _ _ Hc). cbn [mbind result_bind].
  rewrite vset_Ok by done. cbn [mbind result_bind].
  eexists _, _, _. split; [done|]. by rewrite !length_insert.
Qed.

Lemma coupling_runs pv acc g :
  (length pv - 1 ≤ length acc)%nat →
  ∃ pv' acc' g', coupling (pv, acc, g) = Ok (pv', acc', g').
Proof.
  intros Hlen. unfold Tempering.coupling, for_loop.
  destruct (for_from_total
    (fun x => length x.1.1 = length pv ∧ length x.1.2 = length acc)
    0 (length pv - 1) coupling_step (pv, acc, g))
    as ([[pv' acc'] g'] & Hrun & _); [done| |by eexists _, _, _].
  intros j [[v a] h] Hj [L1 L2]. simpl in *.
  destruct (coupling_step_returns j v a h) as (v' & a' & h' & Hs & L1' & L2');
    [lia|lia|].
  exists (v', a', h'). split; [done|]. simpl. split; congruence.
Qed.

(** X29.  A pass returns whenever [mc_accept] has at least [rungs - 1]
    entries; with at most one rung it changes nothing and draws
    nothing. *)
Theorem coupling_returns pv acc g :
  ((length pv - 1 ≤ length acc)%nat →
     ∃ pv' acc' g', coupling (pv, acc, g) = Ok (pv', acc', g'))
  ∧ ((length pv ≤ 1)%nat → coupling (pv, acc, g) = Ok (pv, acc, g)).
Proof.
  split; [apply coupling_runs|].
  intros Hlen. unfold Tempering.coupling, for_loop. simpl.
  by replace (length pv - 1)%nat with 0%nat by lia.
Qed.

End CouplingPass.

Section CouplingExamples.

Local Open Scope R_scope.

Local Abbreviation hot := (Examples.chain 1 (Fin 0) (Fin 0) (Fin 0)).
Local Abbreviation cold := (Examples.chain 1 (Fin 1) (Fin 1) (Fin 1)).
Local Abbreviation ex_coupling :=
  (coupling unit (Examples.runif_const (Fin (1/2)))).

Lemma example_pass :
  ∃ pv' acc' g', ex_coupling ([hot; cold], [0%Z], tt) = Ok (pv', acc', g').
Proof. apply coupling_runs. simpl. lia. Qed.

Lemma swap_rungs_twice_witness :
  swap_rungs 0 1 [hot; cold] ≫= swap_rungs 0 1 = Ok [hot; cold].
Proof. by apply (swap_rungs_twice [hot; cold] 0 1 hot cold). Defined.

Lemma coupling_keeps_rungs_witness :
  ∃ pv' acc', ex_coupling ([hot; cold], [0%Z], tt) = Ok (pv', acc', tt)
              ∧ rung_of <$> pv' = [rung_of hot; rung_of cold].
Proof.
  destruct example_pass as (pv' & acc' & [] & Hrun).
  exists pv', acc'. split; [exact Hrun|].
  exact (proj2 (proj2 (coupling_keeps_rungs unit
    (Examples.runif_const (Fin (1/2))) _ _ _ _ _ _ Hrun))).
Defined.

Lemma coupling_permutes_states_witness :
  ∃ pv' acc', ex_coupling ([hot; cold], [0%Z], tt) = Ok (pv', acc', tt)
              ∧ state_of <$> pv' ≡ₚ [state_of hot; state_of cold].
Proof.
  destruct example_pass as (pv' & acc' & [] & Hrun).
  exists pv', acc'. split; [exact Hrun|].
  exact (coupling_permutes_states unit
    (Examples.runif_const (Fin (1/2))) _ _ _ _ _ _ Hrun).
Defined.

Lemma coupling_draws_witness :
  ∃ pv' acc' g', ex_coupling ([hot; cold], [0%Z], tt) = Ok (pv', acc', g')
                 ∧ g' = draws (Examples.runif_const (Fin (1/2))) 1 tt.
Proof.
  destruct example_pass as (pv' & acc' & g' & Hrun).
  exists pv', acc', g'. split; [exact Hrun|].
  exact (coupling_draws unit
    (Examples.runif_const (Fin (1/2))) _ _ _ _ _ _ Hrun).
Defined.

Lemma coupling_counts_witness :
  ∃ pv' acc' c', ex_coupling ([hot; cold], [0%Z], tt) = Ok (pv', acc', tt)
                 ∧ acc' !! 0%nat = Some c' ∧ (0 ≤ c' ≤ 1)%Z.
Proof.
  destruct example_pass as (pv' & acc' & [] & Hrun).
  destruct (coupling_counts unit (Examples.runif_const (Fin (1/2)))
              [hot; cold] [0%Z] tt pv' acc' tt 0%nat 0%Z eq_refl Hrun)
    as (c' & H1 & H2).
  exists pv', acc', c'. split; [exact Hrun|]. split; [exact H1|exact H2].
Defined.

Lemma coupling_returns_witness :
  ∃ pv' acc' g', ex_coupling ([hot; cold], [0%Z], tt) = Ok (pv', acc', g').
Proof.
  apply (proj1 (coupling_returns unit (Examples.runif_const (Fin (1/2)))
                  [hot; cold] [0%Z] tt)).
  simpl. lia.
Defined.

End CouplingExamples.

(* ===================================================================== *)
(** * The schedule of powers *)
(* ===================================================================== *)

Section ScheduleFacts.

Local Open Scope R_scope.

(** X30.  [run_mcmc] gives [rungs] powers.  With one rung the power is 1
    whatever [GTI_pow]; with at least two rungs and a finite positive
    [GTI_pow] the powers are finite, lie in [[0, 1]], decrease with the
    rung index, start at 1 on rung 0 and end at 0 on rung [rungs - 1]. *)
Theorem beta_raised_vec_schedule rungs GTI_pow :
  length (beta_raised_vec rungs GTI_pow) = Z.to_nat rungs
  ∧ beta_raised_vec 1 GTI_pow = [Fin 1]
  ∧ (∀ g, (2 ≤ rungs)%Z → GTI_pow = Fin g → 0 < g →
       beta_raised_vec rungs GTI_pow !! 0%nat = Some (Fin 1)
       ∧ beta_raised_vec rungs GTI_pow !! (Z.to_nat rungs - 1)%nat
         = Some (Fin 0)
       ∧ ∀ r r', (r ≤ r')%nat → (r' < Z.to_nat rungs)%nat →
           ∃ x y, beta_raised_vec rungs GTI_pow !! r = Some (Fin x)
                  ∧ beta_raised_vec rungs GTI_pow !! r' = Some (Fin y)
                  ∧ 0 <= y ∧ y <= x ∧ x <= 1).
Proof.
  assert (Hat : ∀ r, (r < Z.to_nat rungs)%nat →
            beta_raised_vec rungs GTI_pow !! r
            = Some (beta_raised_at rungs GTI_pow (Z.of_nat r))).
  { intros r Hr. unfold beta_raised_vec.
    rewrite list_lookup_fmap, lookup_seq_lt by done. done. }
  split; [unfold beta_raised_vec; by rewrite length_map, length_seq|].
  split; [done|].
  intros g Hrungs -> Hg.
  assert (Hfirst : beta_raised_vec rungs (Fin g) !! 0%nat = Some (Fin 1)).
  { rewrite Hat by lia. f_equal. by apply beta_raised_first. }
  split; [done|]. split.
  - rewrite Hat by lia. f_equal.
    replace (Z.of_nat (Z.to_nat rungs - 1)) with (rungs - 1)%Z by lia.
    by apply beta_raised_last.
  - intros r r' Hr Hr'. rewrite !Hat by lia.
    destruct (beta_raised_decreasing rungs g (Z.of_nat r) (Z.of_nat r'))
      as (x & y & Hx & Hy & Hxy); try lia; try done.
    destruct (beta_raised_decreasing rungs g 0 (Z.of_nat r))
      as (x0 & x' & Hx0 & Hx' & Hx0x); try lia; try done.
    rewrite (beta_raised_first rungs g) in Hx0 by done.
    rewrite Hx in Hx'. inversion Hx0; inversion Hx'; subst.
    exists x', y. rewrite Hx, Hy. repeat split; (done || lra).
Qed.

Lemma beta_raised_vec_schedule_witness :
  beta_raised_vec 3 (Fin 2) !! 0%nat = Some (Fin 1)
  ∧ beta_raised_vec 3 (Fin 2) !! 2%nat = Some (Fin 0).
Proof.
  assert (Hr : (2 ≤ 3)%Z) by lia.
  assert (Hg : 0 < 2) by lra.
  destruct (proj2 (proj2 (beta_raised_vec_schedule 3 (Fin 2))) 2
              Hr eq_refl Hg) as (H0 & H1 & _).
  split; [exact H0|exact H1].
Defined.

End ScheduleFacts.
